(** * AnswerFinder: the matching subsystem, embedded and verified

    A shallow embedding of the matching subsystem of the AnswerFinder
    extension: the text normalizer, the keyword extractor, the question
    classifier, the confidence calculator, the tier matchers, the matching
    engine and the query cache.

    Conventions.
    - A JavaScript string is the list of its UTF-16 code units ([jstr]).
    - A JavaScript number that is never [NaN] is a rational ([Q]); where the
      code can produce [NaN] (the keyword extractor) the type [jsnum] adds it.
      The question classifier, whose scores meet the floor 0.1 exactly, keeps
      the engine's binary64 Numbers ([float]).
    - [Date.now()] is an explicit argument of the operation that reads it.
    - String.prototype.normalize and String.prototype.toLowerCase are
      built-ins of the engine, not code of the repository: they are the two
      fields of [Builtins], and [ascii_builtins] is their behaviour on 7-bit
      ASCII text. *)

From Stdlib Require Import List Bool Arith NArith ZArith QArith Qminmax.
From Stdlib Require Import String Ascii Lia Lqa.
From Stdlib Require PrimFloat FloatOps SpecFloat Uint63.
Import ListNotations.

Set Implicit Arguments.

(* ================================================================== *)
(** * JavaScript strings *)
(* ================================================================== *)

Module JS.

Definition jstr := list N.

(** A string literal of 7-bit characters as code units. *)
Definition js (s : string) : jstr :=
  map N_of_ascii (list_ascii_of_string s).

Definition jstr_eqb (a b : jstr) : bool :=
  if list_eq_dec N.eq_dec a b then true else false.

Lemma jstr_eqb_eq a b : jstr_eqb a b = true <-> a = b.
Proof.
  unfold jstr_eqb. destruct (list_eq_dec N.eq_dec a b); split; congruence.
Qed.

Lemma jstr_eqb_refl a : jstr_eqb a a = true.
Proof. apply jstr_eqb_eq. reflexivity. Qed.

Definition in_range (lo hi c : N) : bool := (lo <=? c)%N && (c <=? hi)%N.

(** [\s] of a regular expression, and the characters [trim] removes:
    WhiteSpace and LineTerminator of ECMAScript. *)
Definition is_space (c : N) : bool :=
  in_range 9 13 c || (c =? 32)%N || (c =? 160)%N || (c =? 5760)%N
  || in_range 8192 8202 c || (c =? 8232)%N || (c =? 8233)%N
  || (c =? 8239)%N || (c =? 8287)%N || (c =? 12288)%N || (c =? 65279)%N.

(** [\w]: [A-Za-z0-9_]. *)
Definition is_word (c : N) : bool :=
  in_range 48 57 c || in_range 65 90 c || in_range 97 122 c || (c =? 95)%N.

(** LineTerminator: what [.] does not match and where [^] matches under [m]. *)
Definition is_line_terminator (c : N) : bool :=
  (c =? 10)%N || (c =? 13)%N || (c =? 8232)%N || (c =? 8233)%N.

Definition is_ascii (c : N) : bool := (c <? 128)%N.

Definition upper_ascii (c : N) : N :=
  if in_range 97 122 c then (c - 32)%N else c.

Definition lower_ascii (c : N) : N :=
  if in_range 65 90 c then (c + 32)%N else c.

(** String.prototype.trim *)
Fixpoint trimStart (s : jstr) : jstr :=
  match s with
  | c :: t => if is_space c then trimStart t else s
  | [] => []
  end.

Definition trimEnd (s : jstr) : jstr := rev (trimStart (rev s)).

Definition trim (s : jstr) : jstr := trimEnd (trimStart s).

(** String.prototype.includes *)
Fixpoint prefixb (p s : jstr) : bool :=
  match p, s with
  | [], _ => true
  | a :: p', b :: s' => (a =? b)%N && prefixb p' s'
  | _ :: _, [] => false
  end.

Fixpoint includes (s p : jstr) : bool :=
  prefixb p s || match s with
                 | [] => false
                 | _ :: t => includes t p
                 end.

(** [s.split(/\s+/)]: the pieces between maximal runs of white space; a run at
    either end leaves an empty piece there, and the empty string splits into
    one empty piece. *)
Fixpoint split_ws_go (cur : jstr) (in_ws : bool) (s : jstr) : list jstr :=
  match s with
  | [] => [rev cur]
  | c :: t =>
      if is_space c
      then if in_ws then split_ws_go cur true t
           else rev cur :: split_ws_go [] true t
      else split_ws_go (c :: cur) false t
  end.

Definition split_ws (s : jstr) : list jstr := split_ws_go [] false s.

(** [s.split(' ')] *)
Fixpoint split_space_go (cur : jstr) (s : jstr) : list jstr :=
  match s with
  | [] => [rev cur]
  | c :: t =>
      if (c =? 32)%N then rev cur :: split_space_go [] t
      else split_space_go (c :: cur) t
  end.

Definition split_space (s : jstr) : list jstr := split_space_go [] s.

(** [a.join(' ')] *)
Fixpoint join_space (l : list jstr) : jstr :=
  match l with
  | [] => []
  | [w] => w
  | w :: rest => w ++ 32%N :: join_space rest
  end.

End JS.

Import JS.

(* ================================================================== *)
(** * Regular expressions *)
(* ================================================================== *)

(** The fragment of ECMAScript regular expressions the sources use, with the
    backtracking semantics of the language: [rmatch] lists, in priority order,
    every way the expression matches at the current position, as the pair of
    the last code unit consumed so far and the input left.  Flags are part of
    the expression: [i] is in the character predicates, [m] picks [BolM]. *)

Module Regex.

Inductive regex : Type :=
| Eps                          (* the empty expression *)
| Chr (p : N -> bool)          (* one code unit: a literal, a class, [.] *)
| Seq (r1 r2 : regex)
| Alt (r1 r2 : regex)
| Star (r : regex)             (* greedy [*] *)
| Bol                          (* [^] *)
| BolM                         (* [^] under the [m] flag *)
| Eol                          (* [$] *)
| WordB.                       (* [\b] *)

Definition Plus (r : regex) : regex := Seq r (Star r).

Definition prev_is_word (prev : option N) : bool :=
  match prev with Some c => is_word c | None => false end.

Definition next_is_word (s : jstr) : bool :=
  match s with c :: _ => is_word c | [] => false end.

Definition mstate : Type := option N * jstr.

Fixpoint rmatch (r : regex) (prev : option N) (s : jstr) : list mstate :=
  match r with
  | Eps => [(prev, s)]
  | Chr p =>
      match s with
      | c :: t => if p c then [(Some c, t)] else []
      | [] => []
      end
  | Seq r1 r2 =>
      flat_map (fun st : mstate => rmatch r2 (fst st) (snd st)) (rmatch r1 prev s)
  | Alt r1 r2 => rmatch r1 prev s ++ rmatch r2 prev s
  | Star r1 =>
      (fix star (fuel : nat) (prev : option N) (s : jstr) : list mstate :=
         match fuel with
         | O => [(prev, s)]
         | S fuel' =>
             flat_map (fun st : mstate =>
                         if (List.length (snd st) <? List.length s)%nat
                         then star fuel' (fst st) (snd st) else [])
                      (rmatch r1 prev s)
             ++ [(prev, s)]
         end) (List.length s) prev s
  | Bol => match prev with None => [(prev, s)] | Some _ => [] end
  | BolM =>
      match prev with
      | None => [(prev, s)]
      | Some c => if is_line_terminator c then [(prev, s)] else []
      end
  | Eol => match s with [] => [(prev, s)] | _ :: _ => [] end
  | WordB => if xorb (prev_is_word prev) (next_is_word s) then [(prev, s)] else []
  end.

(** The match the engine reports at a position: the first in priority order. *)
Definition match_here (r : regex) (prev : option N) (s : jstr) : option mstate :=
  match rmatch r prev s with
  | st :: _ => Some st
  | [] => None
  end.

(** [r.test(s)] for an expression without the [g] flag. *)
Fixpoint search (r : regex) (prev : option N) (s : jstr) : bool :=
  match match_here r prev s with
  | Some _ => true
  | None =>
      match s with
      | [] => false
      | c :: t => search r (Some c) t
      end
  end.

Definition test (r : regex) (s : jstr) : bool := search r None s.

(** [s.replace(r, rep)] for an expression with the [g] flag and a replacement
    text without [$] patterns: scanning from the left, every match is replaced;
    after an empty match the scan copies one code unit and goes on. *)
Fixpoint replace_loop (fuel : nat) (r : regex) (rep : jstr)
         (prev : option N) (s : jstr) : jstr :=
  match fuel with
  | O => s
  | S fuel' =>
      match match_here r prev s with
      | Some (prev', s') =>
          if (List.length s' <? List.length s)%nat
          then rep ++ replace_loop fuel' r rep prev' s'
          else match s with
               | [] => rep
               | c :: t => rep ++ c :: replace_loop fuel' r rep (Some c) t
               end
      | None =>
          match s with
          | [] => []
          | c :: t => c :: replace_loop fuel' r rep (Some c) t
          end
      end
  end.

Definition replace_all (r : regex) (rep : jstr) (s : jstr) : jstr :=
  replace_loop (S (List.length s)) r rep None s.

(** Builders for the concrete syntax. *)

Definition chr (c : N) : regex := Chr (fun x => (x =? c)%N).

(** A literal character under the [i] flag: canonicalization never maps a
    code unit above 127 to one below, so only the two ASCII cases match. *)
Definition chr_i (c : N) : regex :=
  Chr (fun x => is_ascii x && (upper_ascii x =? upper_ascii c)%N).

Fixpoint seq_of (f : N -> regex) (l : jstr) : regex :=
  match l with
  | [] => Eps
  | [c] => f c
  | c :: t => Seq (f c) (seq_of f t)
  end.

Definition lit (s : string) : regex := seq_of chr (js s).
Definition lit_i (s : string) : regex := seq_of chr_i (js s).

(** A class [[...]] given by the string of its members. *)
Definition mem_class (members : jstr) (c : N) : bool :=
  existsb (fun x => (x =? c)%N) members.

Definition class (members : string) : regex := Chr (mem_class (js members)).

Definition range_i (lo hi : N) : regex :=
  Chr (fun x => in_range lo hi (lower_ascii x) && is_ascii x).

Definition space : regex := Chr is_space.
Definition dot : regex := Chr (fun c => negb (is_line_terminator c)).

Fixpoint seqs (l : list regex) : regex :=
  match l with
  | [] => Eps
  | [r] => r
  | r :: t => Seq r (seqs t)
  end.

(** ** Facts about the engine *)

(** The loop of [Star], named. *)
Definition star_of (r1 : regex) : nat -> option N -> jstr -> list mstate :=
  fix star (fuel : nat) (prev : option N) (s : jstr) : list mstate :=
    match fuel with
    | O => [(prev, s)]
    | S fuel' =>
        flat_map (fun st : mstate =>
                    if (List.length (snd st) <? List.length s)%nat
                    then star fuel' (fst st) (snd st) else [])
                 (rmatch r1 prev s)
        ++ [(prev, s)]
    end.

(** The last code unit seen after consuming [u]. *)
Fixpoint after (prev : option N) (u : jstr) : option N :=
  match u with
  | [] => prev
  | c :: t => after (Some c) t
  end.

(** The state after the longest run of code units satisfying [p]. *)
Fixpoint run_end (p : N -> bool) (prev : option N) (s : jstr) : mstate :=
  match s with
  | c :: t => if p c then run_end p (Some c) t else (prev, s)
  | [] => (prev, [])
  end.

(** The matches of [Star (Chr p)]: after every prefix of the run, longest
    first. *)
Fixpoint star_chr (p : N -> bool) (prev : option N) (s : jstr) : list mstate :=
  match s with
  | c :: t => if p c then star_chr p (Some c) t ++ [(prev, s)] else [(prev, s)]
  | [] => [(prev, [])]
  end.

(** No position of [s] has a match. *)
Fixpoint no_match (r : regex) (prev : option N) (s : jstr) : Prop :=
  match_here r prev s = None
  /\ match s with
     | [] => True
     | c :: t => no_match r (Some c) t
     end.

Definition head (s : jstr) : option N :=
  match s with
  | c :: _ => Some c
  | [] => None
  end.

Lemma rmatch_Star r1 prev s :
  rmatch (Star r1) prev s = star_of r1 (List.length s) prev s.
Proof. reflexivity. Qed.

Lemma after_app prev u v : after prev (u ++ v) = after (after prev u) v.
Proof. revert prev. induction u as [|c u IH]; intro prev; simpl; auto. Qed.

Lemma star_of_consumes r1 :
  (forall prev s st, In st (rmatch r1 prev s) ->
                     exists u, s = u ++ snd st /\ fst st = after prev u) ->
  forall fuel prev s st,
    In st (star_of r1 fuel prev s) ->
    exists u, s = u ++ snd st /\ fst st = after prev u.
Proof.
  intros IH1. induction fuel as [|fuel IH]; intros prev s st Hin; simpl in Hin.
  - destruct Hin as [<-|[]]. exists []. auto.
  - apply in_app_iff in Hin. destruct Hin as [Hin|[<-|[]]]; [|exists []; auto].
    apply in_flat_map in Hin. destruct Hin as [st1 [H1 H2]].
    destruct (List.length (snd st1) <? List.length s)%nat; [|contradiction].
    destruct (IH1 _ _ _ H1) as [u1 [E1 P1]].
    destruct (IH _ _ _ H2) as [u2 [E2 P2]].
    exists (u1 ++ u2). rewrite <- app_assoc, <- E2, <- E1.
    split; [reflexivity|]. rewrite after_app, <- P1. exact P2.
Qed.

(** A match consumes a prefix of the input and ends on its last code unit. *)
Lemma rmatch_consumes r : forall prev s st,
  In st (rmatch r prev s) ->
  exists u, s = u ++ snd st /\ fst st = after prev u.
Proof.
  induction r as [|p|r1 IH1 r2 IH2|r1 IH1 r2 IH2|r1 IH1| | | |];
    intros prev s st Hin.
  - destruct Hin as [<-|[]]. exists []. auto.
  - simpl in Hin. destruct s as [|c t]; [contradiction|].
    destruct (p c); [|contradiction]. destruct Hin as [<-|[]].
    exists [c]. auto.
  - simpl in Hin. apply in_flat_map in Hin. destruct Hin as [st1 [H1 H2]].
    destruct (IH1 _ _ _ H1) as [u1 [E1 P1]].
    destruct (IH2 _ _ _ H2) as [u2 [E2 P2]].
    exists (u1 ++ u2). rewrite <- app_assoc, <- E2, <- E1.
    split; [reflexivity|]. rewrite after_app, <- P1. exact P2.
  - simpl in Hin. apply in_app_iff in Hin.
    destruct Hin as [Hin|Hin]; [apply IH1 | apply IH2]; exact Hin.
  - rewrite rmatch_Star in Hin. eapply star_of_consumes; eassumption.
  - simpl in Hin. destruct prev; [contradiction|].
    destruct Hin as [<-|[]]. exists []. auto.
  - simpl in Hin. destruct prev as [c|].
    + destruct (is_line_terminator c); [|contradiction].
      destruct Hin as [<-|[]]. exists []. auto.
    + destruct Hin as [<-|[]]. exists []. auto.
  - simpl in Hin. destruct s; [|contradiction].
    destruct Hin as [<-|[]]. exists []. auto.
  - simpl in Hin. destruct (xorb (prev_is_word prev) (next_is_word s));
      [|contradiction].
    destruct Hin as [<-|[]]. exists []. auto.
Qed.

Lemma match_here_consumes r prev s prev' s' :
  match_here r prev s = Some (prev', s') ->
  exists u, s = u ++ s' /\ prev' = after prev u.
Proof.
  unfold match_here. destruct (rmatch r prev s) as [|st l] eqn:E; [discriminate|].
  intro H. injection H as ->.
  apply (rmatch_consumes r prev s (prev', s')). rewrite E. left. reflexivity.
Qed.

(** The replacement keeps a property of the code units that the replacement
    text has. *)
Lemma replace_loop_Forall (P : N -> Prop) r rep :
  Forall P rep ->
  forall fuel prev s, Forall P s -> Forall P (replace_loop fuel r rep prev s).
Proof.
  intros Hrep. induction fuel as [|fuel IH]; intros prev s Hs; simpl; [assumption|].
  destruct (match_here r prev s) as [[prev' s']|] eqn:E.
  - destruct (List.length s' <? List.length s)%nat.
    + destruct (match_here_consumes _ _ _ E) as [u [-> _]].
      apply Forall_app in Hs. destruct Hs as [_ Hs'].
      apply Forall_app. split; [assumption | apply IH; assumption].
    + destruct s as [|c t]; [assumption|].
      inversion Hs; subst. apply Forall_app. split; [assumption|].
      constructor; [assumption | apply IH; assumption].
  - destruct s as [|c t]; [constructor|].
    inversion Hs; subst. constructor; [assumption | apply IH; assumption].
Qed.

Lemma replace_all_Forall (P : N -> Prop) r rep s :
  Forall P rep -> Forall P s -> Forall P (replace_all r rep s).
Proof. intros. apply replace_loop_Forall; assumption. Qed.

(** Without a match the text is unchanged. *)
Lemma replace_loop_no_match r rep : forall fuel prev s,
  no_match r prev s -> replace_loop fuel r rep prev s = s.
Proof.
  induction fuel as [|fuel IH]; intros prev s H; simpl; [reflexivity|].
  destruct s as [|c t]; destruct H as [-> H]; [reflexivity|].
  f_equal. apply IH. exact H.
Qed.

Lemma replace_all_no_match r rep s :
  no_match r None s -> replace_all r rep s = s.
Proof. apply replace_loop_no_match. Qed.

(** The replacement of a class is a map over the code units. *)
Lemma replace_loop_Chr p rep : forall fuel prev s,
  (List.length s < fuel)%nat ->
  replace_loop fuel (Chr p) rep prev s
  = flat_map (fun c => if p c then rep else [c]) s.
Proof.
  induction fuel as [|fuel IH]; intros prev s Hlen; [lia|].
  destruct s as [|c t]; [reflexivity|].
  simpl in Hlen. cbn [replace_loop flat_map]. unfold match_here. cbn [rmatch].
  destruct (p c).
  - replace (List.length t <? List.length (c :: t))%nat with true
      by (symmetry; apply Nat.ltb_lt; simpl; lia).
    rewrite IH by lia. reflexivity.
  - rewrite IH by lia. reflexivity.
Qed.

Lemma replace_all_Chr p rep s :
  replace_all (Chr p) rep s = flat_map (fun c => if p c then rep else [c]) s.
Proof. apply replace_loop_Chr. lia. Qed.

Lemma replace_all_Chr_none p rep s :
  Forall (fun c => p c = false) s -> replace_all (Chr p) rep s = s.
Proof.
  intro H. rewrite replace_all_Chr.
  induction H as [|c t Hc _ IH]; simpl; [reflexivity|].
  rewrite Hc. simpl. f_equal. exact IH.
Qed.

Lemma replace_all_Chr_clean p rep s :
  Forall (fun c => p c = false) rep ->
  Forall (fun c => p c = false) (replace_all (Chr p) rep s).
Proof.
  intro Hrep. rewrite replace_all_Chr.
  induction s as [|c t IH]; simpl; [constructor|].
  destruct (p c) eqn:E; apply Forall_app; split; auto.
Qed.

(** ** Runs of one class *)

Lemma star_of_Chr p : forall fuel prev s,
  (List.length s <= fuel)%nat -> star_of (Chr p) fuel prev s = star_chr p prev s.
Proof.
  induction fuel as [|fuel IH]; intros prev s Hlen.
  - destruct s; [reflexivity | simpl in Hlen; lia].
  - destruct s as [|c t]; [reflexivity|].
    simpl in Hlen. cbn [star_of rmatch star_chr].
    destruct (p c); [|reflexivity].
    cbn [flat_map fst snd].
    replace (List.length t <? List.length (c :: t))%nat with true
      by (symmetry; apply Nat.ltb_lt; simpl; lia).
    fold (star_of (Chr p)). rewrite IH by lia. rewrite app_nil_r. reflexivity.
Qed.

Lemma rmatch_Star_Chr p prev s :
  rmatch (Star (Chr p)) prev s = star_chr p prev s.
Proof. rewrite rmatch_Star. apply star_of_Chr. lia. Qed.

Lemma rmatch_Plus_Chr p prev s :
  rmatch (Plus (Chr p)) prev s
  = match s with
    | c :: t => if p c then star_chr p (Some c) t else []
    | [] => []
    end.
Proof.
  unfold Plus. cbn [rmatch]. destruct s as [|c t]; [reflexivity|].
  destruct (p c); [|reflexivity].
  cbn [flat_map fst snd]. fold (rmatch (Star (Chr p)) (Some c) t).
  rewrite rmatch_Star_Chr. apply app_nil_r.
Qed.

(** The input left by a state starts with a code unit of the class. *)
Definition in_run (p : N -> bool) (st : mstate) : Prop :=
  exists c t, snd st = c :: t /\ p c = true.

Lemma star_chr_head p : forall prev s,
  exists rest, star_chr p prev s = run_end p prev s :: rest
               /\ Forall (in_run p) rest.
Proof.
  intros prev s. revert prev. induction s as [|c t IH]; intro prev; simpl.
  - exists []. split; [reflexivity | constructor].
  - destruct (p c) eqn:E.
    + destruct (IH (Some c)) as [rest [-> Hrest]].
      exists (rest ++ [(prev, c :: t)]). split; [reflexivity|].
      apply Forall_app. split; [assumption|].
      constructor; [|constructor]. exists c, t. auto.
    + exists []. split; [reflexivity | constructor].
Qed.

Lemma run_end_stop p : forall prev s c t,
  snd (run_end p prev s) = c :: t -> p c = false.
Proof.
  intros prev s. revert prev. induction s as [|a s IH]; intros prev c t; simpl.
  - discriminate.
  - destruct (p a) eqn:E; [apply IH|].
    simpl. intro H. injection H as <- _. exact E.
Qed.

Lemma run_end_consumes p : forall prev s,
  exists u, s = u ++ snd (run_end p prev s)
            /\ Forall (fun c => p c = true) u
            /\ fst (run_end p prev s) = after prev u.
Proof.
  intros prev s. revert prev. induction s as [|a s IH]; intro prev; simpl.
  - exists []. repeat split. constructor.
  - destruct (p a) eqn:E.
    + destruct (IH (Some a)) as [u [E1 [E2 E3]]].
      exists (a :: u). simpl. rewrite <- E1. repeat split; auto.
    + exists []. repeat split. constructor.
Qed.

Lemma run_end_id p prev s :
  head s = None \/ (exists c, head s = Some c /\ p c = false) ->
  run_end p prev s = (prev, s).
Proof.
  destruct s as [|c t]; simpl; [reflexivity|].
  intros [H|[c' [H E]]]; [discriminate|].
  injection H as ->. rewrite E. reflexivity.
Qed.

Lemma flat_map_all_nil {A B : Type} (f : A -> list B) (l : list A) :
  Forall (fun x => f x = []) l -> flat_map f l = [].
Proof.
  induction 1 as [|x l Hx _ IH]; simpl; [reflexivity|].
  rewrite Hx, IH. reflexivity.
Qed.

(** /[p]+/ *)
Lemma match_here_Plus_Chr p prev s :
  match_here (Plus (Chr p)) prev s
  = match s with
    | c :: t => if p c then Some (run_end p (Some c) t) else None
    | [] => None
    end.
Proof.
  unfold match_here. rewrite rmatch_Plus_Chr.
  destruct s as [|c t]; [reflexivity|].
  destruct (p c); [|reflexivity].
  destruct (star_chr_head p (Some c) t) as [rest [-> _]]. reflexivity.
Qed.

(** /[q][p]+/ *)
Lemma match_here_Chr_Plus q p prev s :
  match_here (Seq (Chr q) (Plus (Chr p))) prev s
  = match s with
    | w :: h :: t => if q w && p h then Some (run_end p (Some h) t) else None
    | _ => None
    end.
Proof.
  unfold match_here. cbn [rmatch]. fold (rmatch (Plus (Chr p))).
  destruct s as [|w s']; [reflexivity|].
  destruct (q w); cbn [flat_map fst snd andb];
    [|destruct s' as [|? ?]; reflexivity].
  rewrite app_nil_r.
  change (flat_map (fun st : mstate => rmatch (Star (Chr p)) (fst st) (snd st))
                   (rmatch (Chr p) (Some w) s'))
    with (rmatch (Plus (Chr p)) (Some w) s').
  rewrite rmatch_Plus_Chr. destruct s' as [|h t]; [reflexivity|].
  destruct (p h); [|reflexivity].
  destruct (star_chr_head p (Some h) t) as [rest [-> _]]. reflexivity.
Qed.

(** /[p]+[q]/ for disjoint classes: only the longest run can be followed by
    a code unit of [q]. *)
Lemma match_here_Plus_Chr_then q p prev s :
  (forall c, p c = true -> q c = false) ->
  match_here (Seq (Plus (Chr p)) (Chr q)) prev s
  = match s with
    | c :: t =>
        if p c
        then match snd (run_end p (Some c) t) with
             | w :: rest => if q w then Some (Some w, rest) else None
             | [] => None
             end
        else None
    | [] => None
    end.
Proof.
  intro Hdisj. unfold match_here.
  change (rmatch (Seq (Plus (Chr p)) (Chr q)) prev s)
    with (flat_map (fun st : mstate => rmatch (Chr q) (fst st) (snd st))
                   (rmatch (Plus (Chr p)) prev s)).
  rewrite rmatch_Plus_Chr. destruct s as [|c t]; [reflexivity|].
  destruct (p c); [|reflexivity].
  destruct (star_chr_head p (Some c) t) as [rest [-> Hrest]].
  cbn [flat_map]. rewrite (@flat_map_all_nil _ _ _ rest), app_nil_r.
  - cbn [rmatch]. destruct (snd (run_end p (Some c) t)) as [|w r]; [reflexivity|].
    destruct (q w); reflexivity.
  - eapply Forall_impl; [|exact Hrest].
    intros st [a [r [E Ha]]]. cbn [rmatch]. rewrite E, (Hdisj _ Ha). reflexivity.
Qed.

(** /[p]+$/ *)
Lemma match_here_Plus_Chr_Eol p prev s :
  match_here (Seq (Plus (Chr p)) Eol) prev s
  = match s with
    | c :: t =>
        if p c
        then match snd (run_end p (Some c) t) with
             | [] => Some (run_end p (Some c) t)
             | _ :: _ => None
             end
        else None
    | [] => None
    end.
Proof.
  unfold match_here.
  change (rmatch (Seq (Plus (Chr p)) Eol) prev s)
    with (flat_map (fun st : mstate => rmatch Eol (fst st) (snd st))
                   (rmatch (Plus (Chr p)) prev s)).
  rewrite rmatch_Plus_Chr. destruct s as [|c t]; [reflexivity|].
  destruct (p c); [|reflexivity].
  destruct (star_chr_head p (Some c) t) as [rest [-> Hrest]].
  cbn [flat_map]. rewrite (@flat_map_all_nil _ _ _ rest), app_nil_r.
  - cbn [rmatch]. destruct (run_end p (Some c) t) as [pe [|w r]]; reflexivity.
  - eapply Forall_impl; [|exact Hrest].
    intros st [a [r [E Ha]]]. cbn [rmatch]. rewrite E. reflexivity.
Qed.

Lemma match_here_Alt r1 r2 prev s :
  match_here (Alt r1 r2) prev s
  = match match_here r1 prev s with
    | Some st => Some st
    | None => match_here r2 prev s
    end.
Proof.
  unfold match_here. cbn [rmatch]. destruct (rmatch r1 prev s); reflexivity.
Qed.

Lemma match_here_Bol_Seq r prev s :
  match_here (Seq Bol r) prev s
  = match prev with
    | None => match_here r None s
    | Some _ => None
    end.
Proof.
  unfold match_here. cbn [rmatch]. destruct prev; [reflexivity|].
  cbn [flat_map fst snd]. rewrite app_nil_r. reflexivity.
Qed.

Lemma match_here_Chr_Seq q r prev s :
  match_here (Seq (Chr q) r) prev s
  = match s with
    | c :: t => if q c then match_here r (Some c) t else None
    | [] => None
    end.
Proof.
  unfold match_here. cbn [rmatch]. destruct s as [|c t]; [reflexivity|].
  destruct (q c); [|reflexivity].
  cbn [flat_map fst snd]. rewrite app_nil_r. reflexivity.
Qed.

(** No match at the positions of text with a property that its tails keep. *)
Lemma no_match_intro r (Q : jstr -> Prop) :
  (forall c t, Q (c :: t) -> Q t) ->
  (forall prev s, Q s -> match_here r prev s = None) ->
  forall s prev, Q s -> no_match r prev s.
Proof.
  intros Htail Hnone. induction s as [|c t IH]; intros prev HQ.
  - split; [apply Hnone; exact HQ | exact I].
  - split; [apply Hnone; exact HQ|]. apply IH. apply (Htail c t HQ).
Qed.

End Regex.

Import Regex.

(* ================================================================== *)
(** * Constants (lib/utils/constants.js) *)
(* ================================================================== *)

Module Constants.

Inductive QuestionType : Type :=
| MCQ | TRUE_FALSE | FILL_BLANK | SHORT_ANSWER | ESSAY | UNKNOWN.

(** MATCH_TYPES; [NONE] is the [null] member, and stands for every value the
    [switch] of calculateConfidence sends to its [default] branch. *)
Inductive MatchType : Type :=
| EXACT | KEYWORD | FUZZY | PARTIAL | AI | NONE.

Inductive KeywordType : Type :=
| ENTITY | TECHNICAL | COMMON | STOPWORD.

Inductive ErrorCode : Type :=
| QUERY_EMPTY | QUERY_TOO_LONG | NO_DATA_LOADED | UNKNOWN_ERROR.

(** CONFIDENCE_THRESHOLDS *)
Definition CONF_EXACT : Q := 1.
Definition CONF_HIGH : Q := 0.85.
Definition CONF_MEDIUM : Q := 0.60.
Definition CONF_LOW : Q := 0.30.

(** MATCHING_CONFIG *)
Definition KEYWORD_MIN_OVERLAP : Q := 0.75.
Definition KEYWORD_MIN_CONFIDENCE : Q := 0.75.
Definition KEYWORD_MAX_CONFIDENCE : Q := 0.95.
Definition FUZZY_MIN_SIMILARITY : Q := 0.85.
Definition FUZZY_MIN_CONFIDENCE : Q := 0.60.
Definition FUZZY_MAX_CONFIDENCE : Q := 0.80.
Definition FUZZY_MAX_CANDIDATES : nat := 50.
Definition PARTIAL_MIN_SCORE : Q := 0.50.
Definition PARTIAL_MIN_CONFIDENCE : Q := 0.30.
Definition PARTIAL_MAX_CONFIDENCE : Q := 0.60.
Definition MAX_QUERY_LENGTH : nat := 500.
Definition MIN_QUERY_LENGTH : nat := 3.

(** CACHE_CONFIG *)
Definition CACHE_MAX_SIZE : Z := 100.
Definition CACHE_TTL_MS : Z := 3600000.

(** KEYWORD_CONFIG *)
Definition MAX_KEYWORDS : nat := 50.
Definition MIN_KEYWORD_LENGTH : nat := 3.
Definition MAX_KEYWORD_LENGTH : nat := 50.
Definition IMPORTANCE_THRESHOLD : Q := 0.1.

End Constants.

Import Constants.

Definition Qlt_bool (a b : Q) : bool := negb (Qle_bool b a).

Lemma Qlt_bool_iff a b : Qlt_bool a b = true <-> a < b.
Proof.
  unfold Qlt_bool. rewrite negb_true_iff.
  destruct (Qle_bool b a) eqn:E.
  - apply Qle_bool_iff in E. split; [discriminate | intro H; exfalso; lra].
  - split; [intros _ | reflexivity].
    destruct (Qlt_le_dec a b) as [H|H]; [assumption|].
    apply Qle_bool_iff in H. congruence.
Qed.

Lemma Qlt_bool_false a b : Qlt_bool a b = false <-> b <= a.
Proof.
  unfold Qlt_bool. rewrite negb_false_iff. apply Qle_bool_iff.
Qed.

(** Replace every [Qmin]/[Qmax] of the goal by a variable with its
    defining property, and leave linear arithmetic. *)
Ltac qmin_step a b :=
  let H := fresh "Hm" in
  let x := fresh "m" in
  pose proof (Q.min_spec a b) as H;
  set (x := Qmin a b) in *; clearbody x.

Ltac qmax_step a b :=
  let H := fresh "Hm" in
  let x := fresh "m" in
  pose proof (Q.max_spec a b) as H;
  set (x := Qmax a b) in *; clearbody x.

Ltac qminmax :=
  repeat match goal with
         | |- context [Qmin ?a ?b] => qmin_step a b
         | |- context [Qmax ?a ?b] => qmax_step a b
         | _ : context [Qmin ?a ?b] |- _ => qmin_step a b
         | _ : context [Qmax ?a ?b] |- _ => qmax_step a b
         end;
  intuition lra.

(* ================================================================== *)
(** * Confidence calculator (lib/matching/confidence-calculator.js) *)
(* ================================================================== *)

Module Confidence.

(** The [context] argument; [questionType] is read and never used. *)
Record Context : Type := mkContext {
  queryLength : nat;
  questionLength : nat
}.

Definition scaleScore (score min max : Q) : Q := min + score * (max - min).

(** [lengthRatio < 0.7], where [lengthRatio] is min/max of the two lengths:
    for two zero lengths the ratio is 0/0, [NaN], and the test is false. *)
Definition lengthRatio_below (ctx : Context) : bool :=
  let lo := Nat.min (queryLength ctx) (questionLength ctx) in
  let hi := Nat.max (queryLength ctx) (questionLength ctx) in
  if (hi =? 0)%nat then false
  else Qlt_bool (inject_Z (Z.of_nat lo) / inject_Z (Z.of_nat hi)) 0.7.

Definition calculateConfidence (matchType : MatchType) (rawScore : Q)
           (ctx : Context) : Q :=
  let confidence :=
    match matchType with
    | EXACT => CONF_EXACT
    | KEYWORD =>
        let c := scaleScore rawScore KEYWORD_MIN_CONFIDENCE KEYWORD_MAX_CONFIDENCE in
        if (50 <? queryLength ctx)%nat then Qmin (c * 1.1) 1.0 else c
    | FUZZY =>
        let c := scaleScore rawScore FUZZY_MIN_CONFIDENCE FUZZY_MAX_CONFIDENCE in
        if lengthRatio_below ctx then c * 0.9 else c
    | PARTIAL =>
        let c := scaleScore rawScore PARTIAL_MIN_CONFIDENCE PARTIAL_MAX_CONFIDENCE in
        c * 0.8
    | AI => rawScore
    | NONE => 0
    end in
  Qmax 0 (Qmin 1 confidence).

Inductive Level : Type := HIGH | MEDIUM | LOW | NO_LEVEL.

Definition getConfidenceLevel (confidence : Q) : Level :=
  if Qle_bool CONF_HIGH confidence then HIGH
  else if Qle_bool CONF_MEDIUM confidence then MEDIUM
  else if Qle_bool CONF_LOW confidence then LOW
  else NO_LEVEL.

Lemma calculateConfidence_range mt r ctx :
  0 <= calculateConfidence mt r ctx <= 1.
Proof. unfold calculateConfidence. qminmax. Qed.

Lemma calculateConfidence_exact r ctx :
  calculateConfidence EXACT r ctx == CONF_EXACT.
Proof. unfold calculateConfidence, CONF_EXACT. qminmax. Qed.

Lemma calculateConfidence_le mt ctx r1 r2 :
  r1 <= r2 ->
  calculateConfidence mt r1 ctx <= calculateConfidence mt r2 ctx.
Proof.
  intro H. unfold calculateConfidence, scaleScore.
  unfold KEYWORD_MIN_CONFIDENCE, KEYWORD_MAX_CONFIDENCE, FUZZY_MIN_CONFIDENCE,
    FUZZY_MAX_CONFIDENCE, PARTIAL_MIN_CONFIDENCE, PARTIAL_MAX_CONFIDENCE, CONF_EXACT.
  destruct mt;
    try destruct (50 <? queryLength ctx)%nat;
    try destruct (lengthRatio_below ctx);
    qminmax.
Qed.

(** C2. For a fixed match type and a fixed context the confidence is monotonic
    non-decreasing in the raw score: rawScore1 < rawScore2 implies
    confidence(rawScore1) <= confidence(rawScore2); an exact match has the
    maximum confidence constant 1.0 whatever the raw score; and every result
    lies in [0,1]. *)
Theorem calculateConfidence_monotone :
  (forall mt ctx r1 r2, r1 < r2 ->
     calculateConfidence mt r1 ctx <= calculateConfidence mt r2 ctx)
  /\ (forall r ctx, calculateConfidence EXACT r ctx == 1)
  /\ (forall mt r ctx, 0 <= calculateConfidence mt r ctx <= 1).
Proof.
  split; [|split].
  - intros mt ctx r1 r2 H. apply calculateConfidence_le. lra.
  - intros r ctx. apply calculateConfidence_exact.
  - intros. apply calculateConfidence_range.
Qed.

Lemma calculateConfidence_monotone_witness :
  calculateConfidence KEYWORD 0.8 (mkContext 3 4)
  <= calculateConfidence KEYWORD 0.9 (mkContext 3 4).
Proof.
  apply (proj1 calculateConfidence_monotone KEYWORD (mkContext 3 4) 0.8 0.9).
  reflexivity.
Defined.

(** ** The bands of the tiers *)

Lemma keyword_band r ctx :
  0 <= r -> 0.75 <= calculateConfidence KEYWORD r ctx.
Proof.
  intro H. unfold calculateConfidence, scaleScore, KEYWORD_MIN_CONFIDENCE,
    KEYWORD_MAX_CONFIDENCE.
  destruct (50 <? queryLength ctx)%nat; qminmax.
Qed.

Lemma fuzzy_band r ctx :
  0 <= r <= 1 ->
  0.54 + 0.18 * r <= calculateConfidence FUZZY r ctx <= 0.6 + 0.2 * r.
Proof.
  intro H. unfold calculateConfidence, scaleScore, FUZZY_MIN_CONFIDENCE,
    FUZZY_MAX_CONFIDENCE.
  destruct (lengthRatio_below ctx); qminmax.
Qed.

Lemma partial_band r ctx :
  0 <= r <= 1 -> calculateConfidence PARTIAL r ctx == 0.24 + 0.24 * r.
Proof.
  intro H. unfold calculateConfidence, scaleScore, PARTIAL_MIN_CONFIDENCE,
    PARTIAL_MAX_CONFIDENCE.
  qminmax.
Qed.

(** X4. For a raw score of [0,1] each tier has a band of its own: the keyword
    tier never goes below 0.75, the fuzzy tier stays within [0.54, 0.8], and
    the partial tier within [0.24, 0.48]. *)
Theorem tier_confidence_bands r ctx :
  0 <= r <= 1 ->
  0.75 <= calculateConfidence KEYWORD r ctx <= 1
  /\ 0.54 <= calculateConfidence FUZZY r ctx <= 0.8
  /\ 0.24 <= calculateConfidence PARTIAL r ctx <= 0.48
  /\ calculateConfidence AI r ctx == r.
Proof.
  intro H. split; [|split; [|split]].
  - split; [apply keyword_band; lra | apply calculateConfidence_range].
  - pose proof (fuzzy_band ctx H). lra.
  - pose proof (partial_band ctx H) as Hp. rewrite Hp. lra.
  - unfold calculateConfidence. qminmax.
Qed.

Lemma tier_confidence_bands_witness :
  0.24 <= calculateConfidence PARTIAL 0.5 (mkContext 3 4) <= 0.48.
Proof.
  apply (@tier_confidence_bands 0.5 (mkContext 3 4)). lra.
Defined.

Lemma getConfidenceLevel_bands c :
  (0.85 <= c -> getConfidenceLevel c = HIGH)
  /\ (0.6 <= c < 0.85 -> getConfidenceLevel c = MEDIUM)
  /\ (0.3 <= c < 0.6 -> getConfidenceLevel c = LOW)
  /\ (c < 0.3 -> getConfidenceLevel c = NO_LEVEL).
Proof.
  unfold getConfidenceLevel, CONF_HIGH, CONF_MEDIUM, CONF_LOW.
  repeat match goal with
         | |- context [Qle_bool ?a c] =>
             let E := fresh "E" in
             destruct (Qle_bool a c) eqn:E;
             [apply Qle_bool_iff in E
             |assert (c < a)
                by (apply Qnot_le_lt; intro Hc; apply Qle_bool_iff in Hc;
                    congruence);
              clear E]
         end;
    repeat split; intros; try reflexivity; exfalso; lra.
Qed.

End Confidence.

Import Confidence.

(* ================================================================== *)
(** * Data model *)
(* ================================================================== *)

Module Data.

(** A number that may be [NaN]. *)
Inductive jsnum : Type :=
| Num (q : Q)
| NaN.

Definition jadd (a b : jsnum) : jsnum :=
  match a, b with
  | Num x, Num y => Num (x + y)
  | _, _ => NaN
  end.

(** [a > 0]: false for [NaN]. *)
Definition jpos (a : jsnum) : bool :=
  match a with
  | Num x => Qlt_bool 0 x
  | NaN => false
  end.

Record Keyword : Type := mkKeyword {
  word : jstr;
  importance : jsnum;
  type : KeywordType
}.

(** A stored question/answer pair, with the part of [processed] the matchers
    read. *)
Record Question : Type := mkQuestion {
  id : jstr;
  question : jstr;
  answer : jstr;
  normalizedQuestion : jstr;
  keywords : list Keyword
}.

Record MatchResult : Type := mkMatch {
  matched : Question;
  matchType : MatchType;
  confidence : Q;
  rawScore : Q;
  tierOf : nat;                        (* metadata.tier *)
  candidatesEvaluated : option nat     (* metadata.candidatesEvaluated *)
}.

(** The document store as the matchers see it during one query: the three
    read operations of the IndexedDB manager.  [getStats().totalQuestions] is
    the length of [getAllQuestions()]. *)
Record DB : Type := mkDB {
  getAllQuestions : list Question;
  getQuestionByNormalizedText : jstr -> option Question;
  getQuestionsByKeywords : list jstr -> list Question
}.

Definition totalQuestions (db : DB) : nat := List.length (getAllQuestions db).

(** [new Set(array)]: the distinct members, in order of first occurrence. *)
Fixpoint mem (x : jstr) (l : list jstr) : bool :=
  match l with
  | [] => false
  | y :: t => jstr_eqb x y || mem x t
  end.

Definition set_add (s : list jstr) (x : jstr) : list jstr :=
  if mem x s then s else s ++ [x].

Definition set_of (l : list jstr) : list jstr := fold_left set_add l [].

(** [new Map(pairs)]: a key set again keeps its place and takes the new value. *)
Fixpoint map_set {V : Type} (m : list (jstr * V)) (k : jstr) (v : V)
  : list (jstr * V) :=
  match m with
  | [] => [(k, v)]
  | (k', v') :: t =>
      if jstr_eqb k k' then (k', v) :: t else (k', v') :: map_set t k v
  end.

Definition map_of {V : Type} (pairs : list (jstr * V)) : list (jstr * V) :=
  fold_left (fun m kv => map_set m (fst kv) (snd kv)) pairs [].

Definition map_has {V : Type} (m : list (jstr * V)) (k : jstr) : bool :=
  existsb (fun kv => jstr_eqb k (fst kv)) m.

End Data.

Import Data.

(* ================================================================== *)
(** * Tier 2: keyword matcher (lib/matching/keyword-matcher.js) *)
(* ================================================================== *)

Module KeywordMatcher.

(** jaccardSimilarity of lib/utils/string-utils.js, on two Sets. *)
Definition jaccardSimilarity (set1 set2 : list jstr) : Q :=
  let intersection := filter (fun x => mem x set2) set1 in
  let union := set_of (set1 ++ set2) in
  if (List.length union =? 0)%nat then 0
  else inject_Z (Z.of_nat (List.length intersection))
       / inject_Z (Z.of_nat (List.length union)).

Definition kw_pairs (l : list Keyword) : list (jstr * jsnum) :=
  map (fun kw => (word kw, importance kw)) l.

(** The loop of calculateImportanceBoost: total and matched importance. *)
Definition importance_sums (queryMap candidateMap : list (jstr * jsnum))
  : jsnum * jsnum :=
  fold_left
    (fun acc wi =>
       let total := jadd (fst acc) (snd wi) in
       let matched := if map_has candidateMap (fst wi)
                      then jadd (snd acc) (snd wi) else snd acc in
       (total, matched))
    queryMap (Num 0, Num 0).

(** [totalImportance > 0 ? matchedImportance / totalImportance : 0] *)
Definition calculateImportanceBoost (queryKeywords candidateKeywords : list Keyword)
  : jsnum :=
  let queryMap := map_of (kw_pairs queryKeywords) in
  let candidateMap := map_of (kw_pairs candidateKeywords) in
  let '(total, matched) := importance_sums queryMap candidateMap in
  if jpos total
  then match matched, total with
       | Num m, Num t => Num (m / t)
       | _, _ => NaN
       end
  else Num 0.

(** [similarity * (1 + importanceBoost * 0.2)] *)
Definition weightedScore (queryKeywords : list Keyword) (candidate : Question)
  : jsnum :=
  let queryKeywordStrings := map word queryKeywords in
  let candidateKeywords := map word (keywords candidate) in
  let similarity :=
    jaccardSimilarity (set_of queryKeywordStrings) (set_of candidateKeywords) in
  match calculateImportanceBoost queryKeywords (keywords candidate) with
  | Num boost => Num (similarity * (1 + boost * 0.2))
  | NaN => NaN
  end.

(** The scoring loop: the best candidate so far and its score, replaced only
    by a strictly greater score ([NaN > bestScore] is false). *)
Definition best_step (queryKeywords : list Keyword)
           (best : option Question * Q) (candidate : Question)
  : option Question * Q :=
  match weightedScore queryKeywords candidate with
  | Num w => if Qlt_bool (snd best) w then (Some candidate, w) else best
  | NaN => best
  end.

Definition keywordMatch (queryKeywords : list Keyword) (db : DB)
  : option MatchResult :=
  match queryKeywords with
  | [] => None
  | _ :: _ =>
      let queryKeywordStrings := map word queryKeywords in
      let candidates := getQuestionsByKeywords db queryKeywordStrings in
      match candidates with
      | [] => None
      | _ :: _ =>
          let '(bestMatch, bestScore) :=
            fold_left (best_step queryKeywords) candidates (None, 0) in
          if Qlt_bool bestScore KEYWORD_MIN_OVERLAP then None
          else
            match bestMatch with
            | None => None (* not reached: the score is above the initial 0 *)
            | Some q =>
                let confidence :=
                  calculateConfidence KEYWORD bestScore
                    (mkContext (List.length queryKeywordStrings)
                               (List.length (keywords q))) in
                Some (mkMatch q KEYWORD confidence bestScore 2
                              (Some (List.length candidates)))
            end
      end
  end.

(** A one-document store whose question has the single keyword "paris". *)
Definition paris_kw : Keyword := mkKeyword (js "paris") (Num 0.5) COMMON.

Definition paris_doc : Question :=
  mkQuestion (js "q1") (js "Paris?") (js "Paris") (js "paris") [paris_kw].

Definition paris_db : DB :=
  mkDB [paris_doc]
       (fun t => if jstr_eqb t (js "paris") then Some paris_doc else None)
       (fun ws => if mem (js "paris") ws then [paris_doc] else []).

(** C1 (the code breaks the claim). For the query keyword list
    [{word: "paris", importance: 0.5}] and a candidate holding the same single
    keyword, the Jaccard similarity is 1, the importance boost is 1, and the
    keyword tier returns rawScore 1 * (1 + 1 * 0.2) = 1.2, outside [0,1]. *)
Theorem keywordMatch_rawScore_exceeds_one :
  exists m, keywordMatch [paris_kw] paris_db = Some m
            /\ rawScore m == 1.2 /\ ~ (rawScore m <= 1).
Proof.
  eexists. split; [vm_compute; reflexivity|].
  split; [reflexivity|].
  intro H. vm_compute in H. apply H. reflexivity.
Qed.

(** ** Sets of strings *)

Lemma mem_In x l : mem x l = true <-> In x l.
Proof.
  induction l as [|y t IH]; simpl; [split; [discriminate | contradiction]|].
  rewrite orb_true_iff, IH, jstr_eqb_eq. split; intros [H|H]; auto.
Qed.

Lemma mem_false x l : mem x l = false <-> ~ In x l.
Proof.
  rewrite <- mem_In. destruct (mem x l); split; congruence.
Qed.

Lemma set_add_spec s x :
  NoDup s ->
  NoDup (set_add s x) /\ (forall y, In y (set_add s x) <-> In y s \/ y = x).
Proof.
  intro Hs. unfold set_add. destruct (mem x s) eqn:E.
  - apply mem_In in E. split; [exact Hs|]. intro y. split; [auto|].
    intros [H| ->]; assumption.
  - apply mem_false in E. split.
    + apply NoDup_app; [exact Hs | repeat constructor; intros [] |].
      intros y Hy [<-|[]]. contradiction.
    + intro y. rewrite in_app_iff. simpl. intuition.
Qed.

Lemma fold_set_add_spec l : forall s,
  NoDup s ->
  NoDup (fold_left set_add l s)
  /\ (forall y, In y (fold_left set_add l s) <-> In y s \/ In y l).
Proof.
  induction l as [|x l IH]; intros s Hs; simpl.
  - split; [exact Hs|]. intro y. tauto.
  - destruct (set_add_spec x Hs) as [Hn Hin].
    destruct (IH _ Hn) as [Hn' Hin']. split; [exact Hn'|].
    intro y. rewrite Hin', Hin. intuition.
Qed.

Lemma set_of_NoDup l : NoDup (set_of l).
Proof. apply (fold_set_add_spec l (NoDup_nil _)). Qed.

Lemma set_of_In l y : In y (set_of l) <-> In y l.
Proof.
  unfold set_of. rewrite (proj2 (fold_set_add_spec l (NoDup_nil _)) y).
  simpl. tauto.
Qed.

(** A quotient of two counts. *)
Lemma count_ratio_range (a b : nat) :
  (a <= b)%nat -> (0 < b)%nat ->
  0 <= inject_Z (Z.of_nat a) / inject_Z (Z.of_nat b) <= 1.
Proof.
  intros Hab Hb.
  assert (H0 : 0 < inject_Z (Z.of_nat b)).
  { change 0 with (inject_Z 0). rewrite <- Zlt_Qlt. lia. }
  assert (Ha : 0 <= inject_Z (Z.of_nat a)).
  { change 0 with (inject_Z 0). rewrite <- Zle_Qle. lia. }
  assert (Hle : inject_Z (Z.of_nat a) <= inject_Z (Z.of_nat b)).
  { rewrite <- Zle_Qle. lia. }
  split.
  - apply Qle_shift_div_l; [exact H0|]. lra.
  - apply Qle_shift_div_r; [exact H0|]. lra.
Qed.

Lemma jaccard_counts set1 set2 :
  NoDup set1 ->
  (List.length (filter (fun x => mem x set2) set1)
   <= List.length (set_of (set1 ++ set2)))%nat.
Proof.
  intro H1. apply NoDup_incl_length.
  - apply NoDup_filter. exact H1.
  - intros x Hx. apply filter_In in Hx. apply set_of_In, in_or_app.
    left. apply Hx.
Qed.

Lemma jaccardSimilarity_range set1 set2 :
  NoDup set1 -> 0 <= jaccardSimilarity set1 set2 <= 1.
Proof.
  intro H1. unfold jaccardSimilarity.
  destruct (List.length (set_of (set1 ++ set2)) =? 0)%nat eqn:E; [lra|].
  apply Nat.eqb_neq in E.
  apply count_ratio_range; [apply jaccard_counts; exact H1 | lia].
Qed.

Lemma filter_none {A : Type} (f : A -> bool) l :
  (forall x, In x l -> f x = false) -> filter f l = [].
Proof.
  induction l as [|a t IH]; intro H; simpl; [reflexivity|].
  rewrite (H a (or_introl eq_refl)). apply IH.
  intros x Hx. apply H. right. exact Hx.
Qed.

(** X5. The Jaccard similarity of two Sets is a number of [0,1]; it is 1 for a
    Set and itself unless the Set is empty, and 0 for two empty Sets and for
    two Sets without a common member. *)
Theorem jaccardSimilarity_facts :
  (forall l1 l2, 0 <= jaccardSimilarity (set_of l1) (set_of l2) <= 1)
  /\ (forall l, l <> [] -> jaccardSimilarity (set_of l) (set_of l) == 1)
  /\ jaccardSimilarity (set_of []) (set_of []) == 0
  /\ (forall l1 l2, (forall x, In x l1 -> ~ In x l2) ->
                    jaccardSimilarity (set_of l1) (set_of l2) == 0).
Proof.
  split; [|split; [|split]].
  - intros. apply jaccardSimilarity_range, set_of_NoDup.
  - intros l Hne. unfold jaccardSimilarity.
    set (A := set_of l).
    assert (HA : A <> []).
    { destruct l as [|x t]; [contradiction|]. intro HA.
      assert (Hx : In x A) by (apply set_of_In; left; reflexivity).
      rewrite HA in Hx. contradiction. }
    assert (Hf : filter (fun x => mem x A) A = A).
    { apply forallb_filter_id. apply forallb_forall. intros x Hx.
      apply mem_In. exact Hx. }
    assert (Hu : List.length (set_of (A ++ A)) = List.length A).
    { apply Nat.le_antisymm; apply NoDup_incl_length;
        try apply set_of_NoDup.
      - intros x Hx. apply set_of_In, in_app_or in Hx. tauto.
      - intros x Hx. apply set_of_In, in_or_app. left. exact Hx. }
    rewrite Hf, Hu.
    destruct (List.length A =? 0)%nat eqn:E.
    + apply Nat.eqb_eq in E. destruct A; [contradiction | discriminate].
    + apply Nat.eqb_neq in E. unfold Qdiv. apply Qmult_inv_r.
      intro H. unfold Qeq in H. simpl in H. lia.
  - reflexivity.
  - intros l1 l2 Hd. unfold jaccardSimilarity.
    rewrite filter_none.
    + destruct (_ =? 0)%nat; [reflexivity|]. unfold Qdiv. simpl.
      apply Qmult_0_l.
    + intros x Hx. apply mem_false. rewrite set_of_In in *. apply Hd. exact Hx.
Qed.

Lemma jaccardSimilarity_facts_witness :
  jaccardSimilarity (set_of [js "paris"]) (set_of [js "paris"]) == 1
  /\ jaccardSimilarity (set_of [js "paris"]) (set_of [js "rome"]) == 0.
Proof.
  destruct jaccardSimilarity_facts as [_ [H1 [_ H2]]]. split.
  - apply H1. discriminate.
  - apply H2. intros x [<-|[]] [H|[]]. vm_compute in H. discriminate H.
Defined.

(** ** The best candidate *)

(** The scoring loop keeps the first candidate of greatest score above the
    score it starts from. *)
Lemma best_step_fold qk : forall cands b0 s0,
  let r := fold_left (best_step qk) cands (b0, s0) in
  s0 <= snd r
  /\ (r = (b0, s0)
      \/ exists q, fst r = Some q /\ In q cands
                   /\ weightedScore qk q = Num (snd r) /\ s0 < snd r)
  /\ (forall c w, In c cands -> weightedScore qk c = Num w -> w <= snd r).
Proof.
  induction cands as [|c cands IH]; intros b0 s0; cbn zeta.
  - simpl. split; [lra|]. split; [left; reflexivity|]. intros c w [].
  - cbn [fold_left].
    replace (best_step qk (b0, s0) c)
      with (match weightedScore qk c with
            | Num w => if Qlt_bool s0 w then (Some c, w) else (b0, s0)
            | NaN => (b0, s0)
            end) by reflexivity.
    destruct (weightedScore qk c) as [w|] eqn:Ew.
    + destruct (Qlt_bool s0 w) eqn:El.
      * apply Qlt_bool_iff in El.
        destruct (IH (Some c) w) as [H1 [H2 H3]]. cbn zeta in *.
        split; [lra|]. split.
        -- right. destruct H2 as [H2|[q [Hq1 [Hq2 [Hq3 Hq4]]]]].
           ++ rewrite H2. exists c. cbn [fst snd].
              split; [reflexivity|]. split; [left; reflexivity|].
              split; [exact Ew | exact El].
           ++ exists q. split; [exact Hq1|]. split; [right; exact Hq2|].
              split; [exact Hq3 | lra].
        -- intros c' w' [<-|Hin] Hw.
           ++ rewrite Ew in Hw. injection Hw as <-. exact H1.
           ++ apply (H3 c' w' Hin Hw).
      * apply Qlt_bool_false in El.
        destruct (IH b0 s0) as [H1 [H2 H3]]. cbn zeta in *.
        split; [exact H1|]. split.
        -- destruct H2 as [H2|[q [Hq1 [Hq2 [Hq3 Hq4]]]]]; [left; exact H2|].
           right. exists q. split; [exact Hq1|]. split; [right; exact Hq2|].
        split; [exact Hq3 | exact Hq4].
        -- intros c' w' [<-|Hin] Hw.
           ++ rewrite Ew in Hw. injection Hw as <-. lra.
           ++ apply (H3 c' w' Hin Hw).
    + destruct (IH b0 s0) as [H1 [H2 H3]]. cbn zeta in *.
      split; [exact H1|]. split.
      * destruct H2 as [H2|[q [Hq1 [Hq2 [Hq3 Hq4]]]]]; [left; exact H2|].
        right. exists q. split; [exact Hq1|]. split; [right; exact Hq2|].
        split; [exact Hq3 | exact Hq4].
      * intros c' w' [<-|Hin] Hw; [congruence|].
        apply (H3 c' w' Hin Hw).
Qed.

(** X6. What keywordMatch returns is a candidate of the store whose weighted
    score is the raw score of the match, reaches the minimum overlap 0.75
    and is not below the score of any candidate; the match has type KEYWORD,
    tier 2 and a confidence above 0.89.  keywordMatch returns a match
    whenever a candidate scores 0.76 or more.  (Over the rationals the two
    bounds are 0.9 and 0.75; they are stated with a margin, to hold of the
    Numbers the engine computes as well, which round 0.75 + 0.75 x 0.2 to
    0.8999999999999999.) *)
Theorem keywordMatch_best qk db :
  let cands := getQuestionsByKeywords db (map word qk) in
  (forall m,
     keywordMatch qk db = Some m ->
     In (matched m) cands
     /\ weightedScore qk (matched m) = Num (rawScore m)
     /\ KEYWORD_MIN_OVERLAP <= rawScore m
     /\ (forall c w, In c cands -> weightedScore qk c = Num w -> w <= rawScore m)
     /\ matchType m = KEYWORD /\ tierOf m = 2%nat
     /\ 0.89 <= confidence m <= 1)
  /\ (forall c w,
        qk <> [] -> In c cands -> weightedScore qk c = Num w ->
        0.76 <= w ->
        keywordMatch qk db <> None).
Proof.
  intro cands. unfold keywordMatch.
  destruct qk as [|kw0 qk']; [split; [discriminate | intros; contradiction]|].
  set (qk := kw0 :: qk') in *. fold cands.
  destruct cands as [|c0 cs] eqn:Ec;
    [split; [discriminate | intros c w _ []]|].
  rewrite <- Ec.
  pose proof (best_step_fold qk cands None 0) as Hfold. cbn zeta in Hfold.
  destruct (fold_left (best_step qk) cands (None, 0)) as [b s].
  cbn [fst snd] in Hfold. destruct Hfold as [H1 [H2 H3]].
  destruct (Qlt_bool s KEYWORD_MIN_OVERLAP) eqn:El.
  - apply Qlt_bool_iff in El. unfold KEYWORD_MIN_OVERLAP in El.
    split; [discriminate|].
    intros c w _ Hin Hw Hthr. exfalso.
    pose proof (H3 c w Hin Hw). lra.
  - apply Qlt_bool_false in El.
    destruct H2 as [H2|[q [Hq1 [Hq2 [Hq3 Hq4]]]]].
    + injection H2 as -> ->. exfalso. unfold KEYWORD_MIN_OVERLAP in El. lra.
    + subst b. split; [|discriminate].
      intros m Hm. injection Hm as <-. cbn [matched rawScore matchType tierOf
                                             confidence].
      repeat split; try assumption.
      * unfold KEYWORD_MIN_OVERLAP in El.
        unfold calculateConfidence, scaleScore, KEYWORD_MIN_CONFIDENCE,
          KEYWORD_MAX_CONFIDENCE.
        destruct (50 <? _)%nat; qminmax.
      * apply calculateConfidence_range.
Qed.

Lemma keywordMatch_best_witness :
  keywordMatch [paris_kw] paris_db <> None.
Proof.
  apply (proj2 (keywordMatch_best [paris_kw] paris_db) paris_doc (600 # 500)).
  - discriminate.
  - left. reflexivity.
  - vm_compute. reflexivity.
  - vm_compute. discriminate.
Defined.

(** ** The range of the weighted score *)

Definition weighed (kw : Keyword) : Prop :=
  exists x, importance kw = Num x /\ 0 <= x.

Definition weighed_pair (wi : jstr * jsnum) : Prop :=
  exists x, snd wi = Num x /\ 0 <= x.

Lemma map_set_weighed m k v :
  Forall weighed_pair m -> weighed_pair (k, v) ->
  Forall weighed_pair (map_set m k v).
Proof.
  intros Hm Hv. induction Hm as [|[k' v'] m Hk Hm IH]; simpl.
  - constructor; [exact Hv | constructor].
  - destruct (jstr_eqb k k'); constructor; solve [assumption | exact Hv].
Qed.

Lemma map_of_weighed pairs :
  Forall weighed_pair pairs -> Forall weighed_pair (map_of pairs).
Proof.
  unfold map_of. intro H.
  assert (Hgen : forall acc, Forall weighed_pair acc ->
            Forall weighed_pair
              (fold_left (fun m kv => map_set m (fst kv) (snd kv)) pairs acc)).
  { induction H as [|[k v] pairs Hk _ IH]; intros acc Hacc; simpl;
      [exact Hacc|].
    apply IH. apply map_set_weighed; assumption. }
  apply Hgen. constructor.
Qed.

Lemma importance_sums_bounds (candidateMap : list (jstr * jsnum)) :
  forall (queryMap : list (jstr * jsnum)) t0 m0,
  Forall weighed_pair queryMap -> 0 <= m0 <= t0 ->
  exists t m,
    fold_left
      (fun acc wi =>
         let total := jadd (fst acc) (snd wi) in
         let matched := if map_has candidateMap (fst wi)
                        then jadd (snd acc) (snd wi) else snd acc in
         (total, matched))
      queryMap (Num t0, Num m0) = (Num t, Num m)
    /\ 0 <= m <= t.
Proof.
  induction queryMap as [|[k v] qm IH]; intros t0 m0 Hq H0; simpl.
  - exists t0, m0. split; [reflexivity | exact H0].
  - inversion Hq as [|? ? [x [Hx Hx0]] Hq']; subst. simpl in Hx. subst v.
    destruct (map_has candidateMap k); simpl; apply IH; try assumption; lra.
Qed.

Lemma calculateImportanceBoost_range qk ck :
  Forall weighed qk ->
  exists b, calculateImportanceBoost qk ck = Num b /\ 0 <= b <= 1.
Proof.
  intro H. unfold calculateImportanceBoost.
  assert (Hs : exists t m,
             importance_sums (map_of (kw_pairs qk)) (map_of (kw_pairs ck))
             = (Num t, Num m) /\ 0 <= m <= t).
  { apply (@importance_sums_bounds (map_of (kw_pairs ck))
             (map_of (kw_pairs qk)) 0 0); [|lra].
    apply map_of_weighed. unfold kw_pairs.
    induction H as [|kw l Hk _ IH]; simpl; constructor; assumption. }
  destruct Hs as [t [m [Hs Hb]]].
  - rewrite Hs. cbn [jpos].
    destruct (Qlt_bool 0 t) eqn:E.
    + apply Qlt_bool_iff in E. exists (m / t). split; [reflexivity|]. split.
      * apply Qle_shift_div_l; [exact E | lra].
      * apply Qle_shift_div_r; [exact E | lra].
    + exists 0. split; [reflexivity | lra].
Qed.

Lemma weightedScore_range qk c :
  Forall weighed qk ->
  exists w, weightedScore qk c = Num w /\ 0 <= w <= 1.2.
Proof.
  intro H. unfold weightedScore.
  destruct (calculateImportanceBoost_range (keywords c) H) as [b [Hb Hr]].
  rewrite Hb. eexists. split; [reflexivity|].
  pose proof (@jaccardSimilarity_range (set_of (map word qk))
                (set_of (map word (keywords c))) (set_of_NoDup _)) as Hj.
  set (j := jaccardSimilarity _ _) in *. clearbody j. nra.
Qed.

(** X7. When the importance of every query keyword is a number that is not
    negative, the raw score of the keyword tier lies in [0.75, 1.2]. *)
Theorem keywordMatch_rawScore_range qk db m :
  Forall weighed qk ->
  keywordMatch qk db = Some m ->
  KEYWORD_MIN_OVERLAP <= rawScore m <= 1.2.
Proof.
  intros Hq. unfold keywordMatch.
  destruct qk as [|kw0 qk']; [discriminate|].
  set (qk := kw0 :: qk') in *.
  set (cands := getQuestionsByKeywords db (map word qk)).
  destruct cands as [|c0 cs] eqn:Ec; [discriminate|]. rewrite <- Ec.
  pose proof (best_step_fold qk cands None 0) as Hfold. cbn zeta in Hfold.
  destruct (fold_left (best_step qk) cands (None, 0)) as [b s].
  cbn [fst snd] in Hfold. destruct Hfold as [H1 [H2 H3]].
  destruct (Qlt_bool s KEYWORD_MIN_OVERLAP) eqn:El; [discriminate|].
  apply Qlt_bool_false in El.
  destruct H2 as [H2|[q [Hq1 [Hq2 [Hq3 Hq4]]]]].
  - injection H2 as -> ->. discriminate.
  - subst b. intro Hm. injection Hm as <-. cbn [rawScore].
    split; [exact El|].
    destruct (weightedScore_range q Hq) as [w [Hw Hr]].
    rewrite Hw in Hq3. injection Hq3 as <-. apply Hr.
Qed.

Lemma keywordMatch_rawScore_range_witness :
  exists m, keywordMatch [paris_kw] paris_db = Some m
            /\ KEYWORD_MIN_OVERLAP <= rawScore m <= 1.2.
Proof.
  eexists. split; [vm_compute; reflexivity|].
  apply (@keywordMatch_rawScore_range [paris_kw] paris_db).
  - constructor; [|constructor]. exists 0.5. split; [reflexivity | lra].
  - vm_compute. reflexivity.
Defined.

Lemma keywordMatch_tier qk db m :
  keywordMatch qk db = Some m ->
  tierOf m = 2%nat /\ 0.9 <= confidence m <= 1.
Proof.
  unfold keywordMatch. destruct qk as [|kw0 qk']; [discriminate|].
  destruct (getQuestionsByKeywords db (map word (kw0 :: qk')));
    [discriminate|].
  destruct (fold_left _ _ _) as [b s].
  destruct (Qlt_bool s KEYWORD_MIN_OVERLAP) eqn:El; [discriminate|].
  apply Qlt_bool_false in El. unfold KEYWORD_MIN_OVERLAP in El.
  destruct b as [best|]; [|discriminate].
  intro H. injection H as <-. cbn [tierOf confidence].
  split; [reflexivity|]. split; [|apply calculateConfidence_range].
  unfold calculateConfidence, scaleScore, KEYWORD_MIN_CONFIDENCE,
    KEYWORD_MAX_CONFIDENCE.
  destruct (50 <? _)%nat; qminmax.
Qed.

End KeywordMatcher.

Import KeywordMatcher.

(* ================================================================== *)
(** * Query cache (lib/storage/cache-manager.js) *)
(* ================================================================== *)

Module Cache.

Section LRU.

Variable V : Type.

Record Entry : Type := mkEntry {
  value : V;
  timestamp : Z
}.

(** The [Map] of the class keeps its entries in insertion order: the head of
    the list is what [keys().next().value] returns. *)
Record LRUCache : Type := mkCache {
  maxSize : Z;
  ttl : Z;
  cache : list (jstr * Entry)
}.

Definition new (maxSize ttl : Z) : LRUCache := mkCache maxSize ttl [].

Definition map_get (m : list (jstr * Entry)) (k : jstr) : option Entry :=
  match find (fun kv => jstr_eqb k (fst kv)) m with
  | Some kv => Some (snd kv)
  | None => None
  end.

Definition map_delete (m : list (jstr * Entry)) (k : jstr) : list (jstr * Entry) :=
  filter (fun kv => negb (jstr_eqb k (fst kv))) m.

Definition with_cache (c : LRUCache) (m : list (jstr * Entry)) : LRUCache :=
  mkCache (maxSize c) (ttl c) m.

Definition size (c : LRUCache) : nat := List.length (cache c).

(** [get(key)] at time [now]: the value or [null], and the cache afterwards. *)
Definition get (key : jstr) (now : Z) (c : LRUCache) : option V * LRUCache :=
  if negb (map_has (cache c) key) then (None, c)
  else
    match map_get (cache c) key with
    | None => (None, c)
    | Some entry =>
        if (ttl c <? now - timestamp entry)%Z
        then (None, with_cache c (map_delete (cache c) key))
        else (Some (value entry),
              with_cache c (map_set (map_delete (cache c) key) key entry))
    end.

(** [set(key, value)] at time [now]. *)
Definition set (key : jstr) (v : V) (now : Z) (c : LRUCache) : LRUCache :=
  let m1 := if map_has (cache c) key then map_delete (cache c) key else cache c in
  let m2 := if (maxSize c <=? Z.of_nat (List.length m1))%Z
            then match m1 with
                 | [] => m1   (* the first key is [undefined]: nothing to delete *)
                 | (firstKey, _) :: _ => map_delete m1 firstKey
                 end
            else m1 in
  with_cache c (map_set m2 key (mkEntry v now)).

Definition has (key : jstr) (now : Z) (c : LRUCache) : bool * LRUCache :=
  match get key now c with
  | (Some _, c') => (true, c')
  | (None, c') => (false, c')
  end.

Definition clear (c : LRUCache) : LRUCache := with_cache c [].

(** A history of calls. *)
Inductive op : Type :=
| OGet (key : jstr) (now : Z)
| OSet (key : jstr) (v : V) (now : Z)
| OClear.

Definition step (c : LRUCache) (o : op) : LRUCache :=
  match o with
  | OGet k now => snd (get k now c)
  | OSet k v now => set k v now c
  | OClear => clear c
  end.

Definition run (ops : list op) (c : LRUCache) : LRUCache := fold_left step ops c.

(** A [Map] holds a key once. *)
Definition wf (c : LRUCache) : Prop := NoDup (map fst (cache c)).

(** The calls that leave the entry of [k] to the cache's own policy: reads of
    any key and writes of other keys. *)
Definition leaves (k : jstr) (o : op) : Prop :=
  match o with
  | OGet _ _ => True
  | OSet k' _ _ => k' <> k
  | OClear => False
  end.

(** The capacity eviction of [k]: a [set] of another key that finds the map
    (without that key) at capacity, with [k] as its first key. *)
Definition evicts (k : jstr) (c : LRUCache) (o : op) : Prop :=
  match o with
  | OSet k' _ _ =>
      k' <> k
      /\ let m1 := if map_has (cache c) k' then map_delete (cache c) k'
                   else cache c in
         (maxSize c <= Z.of_nat (List.length m1))%Z
         /\ exists e rest, m1 = (k, e) :: rest
  | _ => False
  end.

(** A read of [k] that finds the entry written at [t] expired, and deletes
    it. *)
Definition expires (k : jstr) (t : Z) (c : LRUCache) (o : op) : Prop :=
  match o with
  | OGet k' now => k' = k /\ (ttl c < now - t)%Z
  | _ => False
  end.

(** ** The underlying map *)

Implicit Types (m : list (jstr * Entry)) (k : jstr) (e : Entry).

Lemma map_has_false_get m k : map_has m k = false -> map_get m k = None.
Proof.
  unfold map_get. induction m as [|[k' e] m IH]; simpl; [reflexivity|].
  destruct (jstr_eqb k k'); simpl; [discriminate|]. exact IH.
Qed.

Lemma map_has_In m k : map_has m k = true <-> In k (map fst m).
Proof.
  unfold map_has. rewrite existsb_exists. split.
  - intros [[k' e] [Hin Heq]]. apply jstr_eqb_eq in Heq. simpl in Heq. subst.
    apply in_map_iff. exists (k', e). auto.
  - intros Hin. apply in_map_iff in Hin. destruct Hin as [[k' e] [Heq Hin]].
    simpl in Heq. subst. exists (k, e). split; [assumption|].
    apply jstr_eqb_refl.
Qed.

Lemma map_has_delete_same m k : map_has (map_delete m k) k = false.
Proof.
  induction m as [|[k' e] m IH]; simpl; [reflexivity|].
  destruct (jstr_eqb k k') eqn:E; simpl; [exact IH|].
  rewrite E. exact IH.
Qed.

Lemma map_delete_absent m k : map_has m k = false -> map_delete m k = m.
Proof.
  induction m as [|[k' e] m IH]; simpl; [reflexivity|].
  destruct (jstr_eqb k k') eqn:E; simpl; [discriminate|].
  intro H. rewrite IH; auto.
Qed.

Lemma map_set_absent (m : list (jstr * Entry)) k e :
  map_has m k = false -> map_set m k e = m ++ [(k, e)].
Proof.
  induction m as [|[k' e'] m IH]; simpl; [reflexivity|].
  destruct (jstr_eqb k k') eqn:E; simpl; [discriminate|].
  intro H. rewrite IH; auto.
Qed.

Lemma map_delete_length_le m k :
  (List.length (map_delete m k) <= List.length m)%nat.
Proof. apply filter_length_le. Qed.

Lemma map_delete_keys_incl m k x :
  In x (map fst (map_delete m k)) -> In x (map fst m).
Proof.
  unfold map_delete. rewrite !in_map_iff.
  intros [kv [Heq Hin]]. apply filter_In in Hin. exists kv. tauto.
Qed.

Lemma map_delete_NoDup m k :
  NoDup (map fst m) -> NoDup (map fst (map_delete m k)).
Proof.
  induction m as [|[k' e] m IH]; simpl; intro H; [constructor|].
  inversion H as [|? ? Hnin Hnd]; subst.
  destruct (jstr_eqb k k'); simpl; [auto|].
  constructor; [|auto].
  intro Hin. apply Hnin. eapply map_delete_keys_incl; eauto.
Qed.

Lemma map_delete_present_length m k :
  NoDup (map fst m) -> map_has m k = true ->
  S (List.length (map_delete m k)) = List.length m.
Proof.
  induction m as [|[k' e] m IH]; simpl; intros Hnd Hhas; [discriminate|].
  inversion Hnd as [|? ? Hnin Hnd']; subst.
  destruct (jstr_eqb k k') eqn:E; simpl.
  - apply jstr_eqb_eq in E. subst k'.
    rewrite map_delete_absent; [reflexivity|].
    destruct (map_has m k) eqn:Hm; [|reflexivity].
    apply map_has_In in Hm. contradiction.
  - f_equal. apply IH; assumption.
Qed.

Lemma map_get_delete_other m k k' :
  k' <> k -> map_get (map_delete m k) k' = map_get m k'.
Proof.
  intro Hne. unfold map_get.
  induction m as [|[k0 e] m IH]; simpl; [reflexivity|].
  destruct (jstr_eqb k k0) eqn:E; simpl.
  - apply jstr_eqb_eq in E. subst k0.
    destruct (jstr_eqb k' k) eqn:E'; [apply jstr_eqb_eq in E'; contradiction|].
    exact IH.
  - destruct (jstr_eqb k' k0); [reflexivity|]. exact IH.
Qed.

Lemma map_get_app_other (m : list (jstr * Entry)) k e k' :
  k' <> k -> map_get (m ++ [(k, e)]) k' = map_get m k'.
Proof.
  intro Hne. unfold map_get.
  induction m as [|[k0 e0] m IH]; simpl.
  - destruct (jstr_eqb k' k) eqn:E; [apply jstr_eqb_eq in E; contradiction|].
    reflexivity.
  - destruct (jstr_eqb k' k0); [reflexivity|]. exact IH.
Qed.

Lemma map_get_app_new (m : list (jstr * Entry)) k e :
  map_has m k = false -> map_get (m ++ [(k, e)]) k = Some e.
Proof.
  unfold map_get.
  induction m as [|[k0 e0] m IH]; simpl.
  - rewrite jstr_eqb_refl. reflexivity.
  - destruct (jstr_eqb k k0); simpl; [discriminate|]. exact IH.
Qed.

Lemma map_has_app (m : list (jstr * Entry)) k e k' :
  map_has (m ++ [(k, e)]) k' = map_has m k' || jstr_eqb k' k.
Proof.
  unfold map_has. rewrite existsb_app. simpl. rewrite orb_false_r. reflexivity.
Qed.

Lemma map_has_delete_other m k k' :
  k' <> k -> map_has (map_delete m k) k' = map_has m k'.
Proof.
  intro Hne. induction m as [|[k0 e] m IH]; simpl; [reflexivity|].
  destruct (jstr_eqb k k0) eqn:E; simpl.
  - apply jstr_eqb_eq in E. subst k0.
    destruct (jstr_eqb k' k) eqn:E'; [apply jstr_eqb_eq in E'; contradiction|].
    exact IH.
  - rewrite IH. reflexivity.
Qed.

Lemma map_has_get m k : map_has m k = true -> exists e, map_get m k = Some e.
Proof.
  unfold map_get. induction m as [|[k' e] m IH]; simpl; [discriminate|].
  destruct (jstr_eqb k k'); simpl; [eauto|]. exact IH.
Qed.

Lemma NoDup_keys_app (m : list (jstr * Entry)) k e :
  NoDup (map fst m) -> map_has m k = false -> NoDup (map fst (m ++ [(k, e)])).
Proof.
  intros Hnd Hk. rewrite map_app. simpl.
  apply NoDup_app; [assumption | repeat constructor; auto | ].
  intros x Hx [Hy|[]]. subst x.
  apply map_has_In in Hx. congruence.
Qed.

Lemma map_get_delete_same m k : map_get (map_delete m k) k = None.
Proof. apply map_has_false_get, map_has_delete_same. Qed.

Lemma map_has_delete_false m k k' :
  map_has m k = false -> map_has (map_delete m k') k = false.
Proof.
  intro H. destruct (list_eq_dec N.eq_dec k k') as [->|Hne].
  - apply map_has_delete_same.
  - rewrite map_has_delete_other; assumption.
Qed.

(** ** What [get] and [set] leave behind *)

Lemma set_cache key v now c :
  exists m2,
    cache (set key v now c) = m2 ++ [(key, mkEntry v now)]
    /\ map_has m2 key = false
    /\ (forall x, In x m2 -> In x (map_delete (cache c) key)).
Proof.
  unfold set. simpl.
  set (m1 := if map_has (cache c) key then map_delete (cache c) key else cache c).
  assert (H1 : m1 = map_delete (cache c) key).
  { unfold m1. destruct (map_has (cache c) key) eqn:E; [reflexivity|].
    symmetry. apply map_delete_absent. exact E. }
  assert (Habs : map_has m1 key = false).
  { rewrite H1. apply map_has_delete_same. }
  set (m2 := if (maxSize c <=? Z.of_nat (List.length m1))%Z
             then match m1 with
                  | [] => m1
                  | (firstKey, _) :: _ => map_delete m1 firstKey
                  end
             else m1).
  assert (H2 : map_has m2 key = false /\ forall x, In x m2 -> In x m1).
  { unfold m2. destruct (maxSize c <=? Z.of_nat (List.length m1))%Z; [|auto].
    destruct m1 as [|[fk fe] m1']; [auto|]. split.
    - apply map_has_delete_false. exact Habs.
    - intros x Hx. unfold map_delete in Hx. apply filter_In in Hx. tauto. }
  exists m2. split; [|split].
  - apply map_set_absent. apply H2.
  - apply H2.
  - intros x Hx. rewrite <- H1. apply H2. exact Hx.
Qed.

Lemma set_has key v now c : map_has (cache (set key v now c)) key = true.
Proof.
  destruct (set_cache key v now c) as [m2 [-> _]].
  rewrite map_has_app, jstr_eqb_refl. apply orb_true_r.
Qed.

Lemma set_get_same key v now c :
  map_get (cache (set key v now c)) key = Some (mkEntry v now).
Proof.
  destruct (set_cache key v now c) as [m2 [-> [Habs _]]].
  apply map_get_app_new. exact Habs.
Qed.

Lemma set_params key v now c :
  maxSize (set key v now c) = maxSize c /\ ttl (set key v now c) = ttl c.
Proof. split; reflexivity. Qed.

Lemma get_params key now c :
  maxSize (snd (get key now c)) = maxSize c /\ ttl (snd (get key now c)) = ttl c.
Proof.
  unfold get. destruct (negb (map_has (cache c) key)); [auto|].
  destruct (map_get (cache c) key); [|auto].
  destruct (ttl c <? now - timestamp e)%Z; auto.
Qed.

Lemma step_params c o :
  maxSize (step c o) = maxSize c /\ ttl (step c o) = ttl c.
Proof.
  destruct o; cbn [step]; [apply get_params | apply set_params | split; reflexivity].
Qed.

(** The cache after [get]: untouched, without the key, or with the key's entry
    moved to the end. *)
Lemma get_cache key now c :
  cache (snd (get key now c)) = cache c
  \/ cache (snd (get key now c)) = map_delete (cache c) key
  \/ (exists e, map_get (cache c) key = Some e
                /\ map_has (cache c) key = true
                /\ cache (snd (get key now c))
                   = map_delete (cache c) key ++ [(key, e)]).
Proof.
  unfold get. destruct (map_has (cache c) key) eqn:Hhas; simpl; [|auto].
  destruct (map_get (cache c) key) as [e|] eqn:Hget; [|auto].
  destruct (ttl c <? now - timestamp e)%Z; simpl; [auto|].
  right. right. exists e. repeat split.
  apply map_set_absent, map_has_delete_same.
Qed.

Lemma step_wf c o : wf c -> wf (step c o).
Proof.
  unfold wf. intro Hwf. destruct o as [k now | k v now | ]; simpl.
  - destruct (get_cache k now c) as [-> | [-> | [e [_ [_ ->]]]]].
    + assumption.
    + apply map_delete_NoDup. assumption.
    + apply NoDup_keys_app.
      * apply map_delete_NoDup. assumption.
      * apply map_has_delete_same.
  - destruct (set_cache k v now c) as [m2 [Hc [Habs Hsub]]].
    unfold set in *. simpl in *.
    set (m1 := if map_has (cache c) k then map_delete (cache c) k else cache c) in *.
    assert (Hnd1 : NoDup (map fst m1)).
    { unfold m1. destruct (map_has (cache c) k);
        [apply map_delete_NoDup|]; assumption. }
    assert (Habs1 : map_has m1 k = false).
    { unfold m1. destruct (map_has (cache c) k) eqn:E;
        [apply map_has_delete_same | exact E]. }
    destruct (maxSize c <=? Z.of_nat (List.length m1))%Z.
    + destruct m1 as [|[fk fe] m1'].
      * simpl. repeat constructor. intros [].
      * rewrite map_set_absent by (apply map_has_delete_false; exact Habs1).
        apply NoDup_keys_app.
        -- apply map_delete_NoDup. exact Hnd1.
        -- apply map_has_delete_false. exact Habs1.
    + rewrite map_set_absent by exact Habs1.
      apply NoDup_keys_app; assumption.
  - constructor.
Qed.

Lemma get_size_le key now c :
  wf c -> (size (snd (get key now c)) <= size c)%nat.
Proof.
  unfold wf, size. intro Hwf.
  destruct (get_cache key now c) as [-> | [-> | [e [_ [Hhas ->]]]]].
  - lia.
  - apply map_delete_length_le.
  - rewrite length_app. simpl.
    pose proof (map_delete_present_length (cache c) key Hwf Hhas). lia.
Qed.

Lemma set_size_le key v now c :
  wf c -> (1 <= maxSize c)%Z -> (Z.of_nat (size c) <= maxSize c)%Z ->
  (Z.of_nat (size (set key v now c)) <= maxSize c)%Z.
Proof.
  unfold wf, size. intros Hwf Hmax Hsize. unfold set. simpl.
  set (m1 := if map_has (cache c) key then map_delete (cache c) key else cache c).
  assert (Hnd1 : NoDup (map fst m1)).
  { unfold m1. destruct (map_has (cache c) key);
      [apply map_delete_NoDup|]; assumption. }
  assert (Habs1 : map_has m1 key = false).
  { unfold m1. destruct (map_has (cache c) key) eqn:E;
      [apply map_has_delete_same | exact E]. }
  assert (Hlen1 : (List.length m1 <= List.length (cache c))%nat).
  { unfold m1. destruct (map_has (cache c) key);
      [apply map_delete_length_le | lia]. }
  destruct (maxSize c <=? Z.of_nat (List.length m1))%Z eqn:Hfull.
  - apply Z.leb_le in Hfull.
    destruct m1 as [|[fk fe] m1'] eqn:Em1.
    + simpl in *. lia.
    + rewrite map_set_absent by (apply map_has_delete_false; exact Habs1).
      rewrite length_app. simpl List.length at 2.
      assert (Hfk : map_has ((fk, fe) :: m1') fk = true).
      { simpl. rewrite jstr_eqb_refl. reflexivity. }
      pose proof (map_delete_present_length ((fk, fe) :: m1') fk Hnd1 Hfk).
      lia.
  - apply Z.leb_gt in Hfull.
    rewrite map_set_absent by exact Habs1.
    rewrite length_app. simpl. lia.
Qed.

Lemma run_bounded ops : forall c,
  wf c -> (1 <= maxSize c)%Z -> (Z.of_nat (size c) <= maxSize c)%Z ->
  (Z.of_nat (size (run ops c)) <= maxSize c)%Z.
Proof.
  induction ops as [|o ops IH]; intros c Hwf Hmax Hsize; simpl; [assumption|].
  destruct (step_params c o) as [Hm _].
  rewrite <- Hm. apply IH.
  - apply step_wf. assumption.
  - rewrite Hm. assumption.
  - rewrite Hm. destruct o as [k now | k v now | ]; simpl.
    + pose proof (get_size_le k now Hwf). lia.
    + apply set_size_le; assumption.
    + unfold size. simpl. lia.
Qed.

(** The entry [set] wrote for [k] stays as written, or is gone. *)
Definition kept (k : jstr) (v : V) (t : Z) (ttl0 : Z) (c : LRUCache) : Prop :=
  ttl c = ttl0
  /\ (map_get (cache c) k = None \/ map_get (cache c) k = Some (mkEntry v t)).

Lemma step_kept k v t ttl0 c o :
  leaves k o -> kept k v t ttl0 c -> kept k v t ttl0 (step c o).
Proof.
  intros Hl [Httl Hk]. split.
  { rewrite (proj2 (step_params c o)). assumption. }
  destruct o as [k' now | k' v' now | ]; simpl in *; [| |contradiction].
  - destruct (get_cache k' now c) as [-> | [-> | [e [Hget [_ ->]]]]].
    + assumption.
    + destruct (list_eq_dec N.eq_dec k k') as [->|Hne].
      * left. apply map_get_delete_same.
      * rewrite map_get_delete_other by assumption. assumption.
    + destruct (list_eq_dec N.eq_dec k k') as [->|Hne].
      * rewrite map_get_app_new by apply map_has_delete_same.
        rewrite Hget in Hk. destruct Hk as [Hk|Hk]; [discriminate|].
        right. assumption.
      * rewrite map_get_app_other by assumption.
        rewrite map_get_delete_other by assumption. assumption.
  - assert (Hne : k <> k') by congruence.
    unfold set. simpl.
    set (m1 := if map_has (cache c) k' then map_delete (cache c) k' else cache c).
    assert (H1 : map_get m1 k = map_get (cache c) k).
    { unfold m1. destruct (map_has (cache c) k'); [|reflexivity].
      apply map_get_delete_other. assumption. }
    assert (Habs1 : map_has m1 k' = false).
    { unfold m1. destruct (map_has (cache c) k') eqn:E;
        [apply map_has_delete_same | exact E]. }
    destruct (maxSize c <=? Z.of_nat (List.length m1))%Z.
    + destruct m1 as [|[fk fe] m1'] eqn:Em1.
      * left. unfold map_get. simpl.
        destruct (jstr_eqb k k') eqn:E; [|reflexivity].
        apply jstr_eqb_eq in E. contradiction.
      * rewrite map_set_absent by (apply map_has_delete_false; exact Habs1).
        rewrite map_get_app_other by assumption.
        destruct (list_eq_dec N.eq_dec k fk) as [->|Hnf].
        -- left. apply map_get_delete_same.
        -- rewrite map_get_delete_other by assumption. rewrite H1. assumption.
    + rewrite map_set_absent by exact Habs1.
      rewrite map_get_app_other by assumption. rewrite H1. assumption.
Qed.

Lemma run_kept k v t ttl0 ops : forall c,
  Forall (leaves k) ops -> kept k v t ttl0 c -> kept k v t ttl0 (run ops c).
Proof.
  induction ops as [|o ops IH]; intros c Hall Hk; simpl; [assumption|].
  inversion Hall; subst. apply IH; [assumption|].
  apply step_kept; assumption.
Qed.

Lemma get_of_kept k v t t' c :
  kept k v t (ttl c) c ->
  fst (get k t' c)
  = if map_has (cache c) k && negb (ttl c <? t' - t)%Z then Some v else None.
Proof.
  intros [_ Hk]. unfold get.
  destruct (map_has (cache c) k) eqn:Hhas; simpl; [|reflexivity].
  destruct (map_has_get _ _ Hhas) as [e He].
  rewrite He in *. destruct Hk as [Hk|Hk]; [discriminate|].
  injection Hk as ->. simpl.
  destruct (ttl c <? t' - t)%Z; reflexivity.
Qed.

(** ** What removes an entry *)

Lemma step_removes k v t c o :
  leaves k o -> kept k v t (ttl c) c ->
  map_has (cache c) k = true ->
  map_has (cache (step c o)) k = false ->
  evicts k c o \/ expires k t c o.
Proof.
  intros Hl [_ Hk] Hhas Hgone.
  destruct o as [k' now | k' v' now | ]; cbn [step leaves] in *;
    [| |contradiction].
  - right. unfold get in Hgone.
    destruct (map_has (cache c) k') eqn:Hk'; cbn [negb snd] in Hgone;
      [|congruence].
    destruct (map_get (cache c) k') as [entry|] eqn:Hget;
      [|cbn [snd] in Hgone; congruence].
    destruct (list_eq_dec N.eq_dec k k') as [<-|Hne].
    + rewrite Hget in Hk. destruct Hk as [Hk|Hk]; [discriminate|].
      injection Hk as ->. cbn [timestamp] in Hgone.
      destruct (ttl c <? now - t)%Z eqn:E.
      * split; [reflexivity | apply Z.ltb_lt; exact E].
      * cbn [snd with_cache cache] in Hgone.
        rewrite map_set_absent in Hgone by apply map_has_delete_same.
        rewrite map_has_app, jstr_eqb_refl, orb_true_r in Hgone.
        discriminate.
    + exfalso.
      destruct (ttl c <? now - timestamp entry)%Z;
        cbn [snd with_cache cache] in Hgone.
      * rewrite map_has_delete_other in Hgone by assumption. congruence.
      * rewrite map_set_absent in Hgone by apply map_has_delete_same.
        rewrite map_has_app, map_has_delete_other in Hgone by assumption.
        rewrite Hhas in Hgone. discriminate.
  - left. assert (Hne : k <> k') by congruence.
    split; [exact Hl|]. cbv zeta.
    unfold set in Hgone. cbn [with_cache cache] in Hgone.
    set (m1 := if map_has (cache c) k' then map_delete (cache c) k'
               else cache c) in *.
    assert (H1 : map_has m1 k = true).
    { unfold m1. destruct (map_has (cache c) k'); [|exact Hhas].
      rewrite map_has_delete_other by assumption. exact Hhas. }
    assert (Habs1 : map_has m1 k' = false).
    { unfold m1. destruct (map_has (cache c) k') eqn:E;
        [apply map_has_delete_same | exact E]. }
    assert (Hother : jstr_eqb k k' = false).
    { destruct (jstr_eqb k k') eqn:E; [|reflexivity].
      apply jstr_eqb_eq in E. contradiction. }
    destruct (maxSize c <=? Z.of_nat (List.length m1))%Z eqn:Ecap.
    + apply Z.leb_le in Ecap. split; [exact Ecap|].
      destruct m1 as [|[fk fe] rest] eqn:Em1; [discriminate H1|].
      rewrite map_set_absent in Hgone
        by (apply map_has_delete_false; exact Habs1).
      rewrite map_has_app, Hother, orb_false_r in Hgone.
      destruct (list_eq_dec N.eq_dec k fk) as [<-|Hnf].
      * exists fe, rest. reflexivity.
      * rewrite map_has_delete_other in Hgone by assumption. congruence.
    + exfalso. rewrite map_set_absent in Hgone by exact Habs1.
      rewrite map_has_app, Hother, orb_false_r in Hgone. congruence.
Qed.

Lemma run_removes k v t ops : forall c,
  Forall (leaves k) ops -> kept k v t (ttl c) c ->
  map_has (cache c) k = true ->
  map_has (cache (run ops c)) k = false ->
  exists ops1 o ops2,
    ops = ops1 ++ o :: ops2
    /\ map_has (cache (run ops1 c)) k = true
    /\ (evicts k (run ops1 c) o \/ expires k t (run ops1 c) o).
Proof.
  induction ops as [|o ops IH]; intros c Hall Hk Hhas Hgone;
    cbn [run fold_left] in *; [congruence|].
  inversion Hall as [|? ? Hl Hall']; subst.
  destruct (map_has (cache (step c o)) k) eqn:Hstep.
  - assert (Hk' : kept k v t (ttl (step c o)) (step c o)).
    { rewrite (proj2 (step_params c o)). apply step_kept; assumption. }
    destruct (IH (step c o) Hall' Hk' Hstep Hgone)
      as [ops1 [o' [ops2 [Heq [Hin Hrem]]]]].
    exists (o :: ops1), o', ops2.
    split; [rewrite Heq; reflexivity|]. split; assumption.
  - exists [], o, ops. split; [reflexivity|]. split; [exact Hhas|].
    apply (@step_removes k v t c o); assumption.
Qed.

(** C8 (amended). After [set(k, v)] at time [t], and whatever reads and
    writes of other keys follow, [get(k)] at time [t'] returns [v] exactly when
    the entry is still in the cache and the TTL has not elapsed
    ([t' - t <= ttl]), and [null] otherwise; right after [set] the entry is
    present, and it leaves the cache in two ways only: a capacity eviction (a
    [set] of another key finds the cache full with [k] as its oldest entry),
    or a read of [k] itself after the TTL has elapsed.  So [get(k)] returns
    [v] until the TTL elapses or a capacity eviction removes [k].  For an
    integer [maxSize >= 1], the cache of a fresh [LRUCache] holds at most
    [maxSize] entries after any sequence of get/set/clear calls. *)
Theorem lru_get_after_set_and_size_bound :
  (forall c k v t ops t',
     Forall (leaves k) ops ->
     let c' := run ops (set k v t c) in
     fst (get k t' c')
     = if map_has (cache c') k && negb (ttl c <? t' - t)%Z
       then Some v else None)
  /\ (forall c k v t, map_has (cache (set k v t c)) k = true)
  /\ (forall maxSize0 ttl0 ops,
        (1 <= maxSize0)%Z ->
        (Z.of_nat (size (run ops (new maxSize0 ttl0))) <= maxSize0)%Z)
  /\ (forall c k v t ops t',
        Forall (leaves k) ops ->
        fst (get k t' (run ops (set k v t c))) = Some v
        \/ (ttl c < t' - t)%Z
        \/ exists ops1 o ops2,
             ops = ops1 ++ o :: ops2
             /\ map_has (cache (run ops1 (set k v t c))) k = true
             /\ (evicts k (run ops1 (set k v t c)) o
                 \/ expires k t (run ops1 (set k v t c)) o)).
Proof.
  assert (Hget : forall c k v t ops t',
     Forall (leaves k) ops ->
     let c' := run ops (set k v t c) in
     fst (get k t' c')
     = if map_has (cache c') k && negb (ttl c <? t' - t)%Z
       then Some v else None).
  { intros c k v t ops t' Hall c'.
    assert (Hk : kept k v t (ttl c) c').
    { apply run_kept; [assumption|]. split; [reflexivity|].
      right. apply set_get_same. }
    assert (Httl : ttl c' = ttl c) by apply Hk.
    rewrite <- Httl in Hk |- *. apply get_of_kept. assumption. }
  split; [exact Hget|]. split; [|split].
  - intros. apply set_has.
  - intros maxSize0 ttl0 ops Hmax.
    apply (@run_bounded ops (new maxSize0 ttl0)).
    + constructor.
    + assumption.
    + simpl. lia.
  - intros c k v t ops t' Hall.
    rewrite (Hget c k v t ops t' Hall).
    destruct (map_has (cache (run ops (set k v t c))) k) eqn:Hhas.
    + destruct (ttl c <? t' - t)%Z eqn:E; cbn [andb negb].
      * right. left. apply Z.ltb_lt. exact E.
      * left. reflexivity.
    + right. right.
      apply (@run_removes k v t ops (set k v t c)).
      * exact Hall.
      * split; [reflexivity|]. right. apply set_get_same.
      * apply set_has.
      * exact Hhas.
Qed.

(** C10. When [set] is called with a key that is already present while the
    cache is at capacity (size = maxSize), the entry of that key is replaced
    (new value, new timestamp, moved to the most recent place), every other
    entry stays present and unchanged, in the same order, and the size stays
    equal to maxSize: nothing is evicted. *)
Theorem set_existing_key_at_capacity c k v now :
  wf c ->
  map_has (cache c) k = true ->
  Z.of_nat (size c) = maxSize c ->
  let c' := set k v now c in
  cache c' = map_delete (cache c) k ++ [(k, mkEntry v now)]
  /\ Z.of_nat (size c') = maxSize c'
  /\ map_get (cache c') k = Some (mkEntry v now)
  /\ (forall k', k' <> k ->
        map_get (cache c') k' = map_get (cache c) k'
        /\ map_has (cache c') k' = map_has (cache c) k').
Proof.
  intros Hwf Hhas Hsize c'.
  pose proof (map_delete_present_length (cache c) k Hwf Hhas) as Hlen.
  assert (Hc : cache c' = map_delete (cache c) k ++ [(k, mkEntry v now)]).
  { unfold c', set. simpl. rewrite Hhas.
    replace (maxSize c <=? Z.of_nat (List.length (map_delete (cache c) k)))%Z
      with false.
    - apply map_set_absent, map_has_delete_same.
    - symmetry. apply Z.leb_gt. unfold size in Hsize. lia. }
  split; [exact Hc|]. split; [|split].
  - unfold size. rewrite Hc, length_app. simpl.
    change (maxSize c') with (maxSize c). unfold size in Hsize. lia.
  - rewrite Hc. apply map_get_app_new, map_has_delete_same.
  - intros k' Hne. rewrite Hc. split.
    + rewrite map_get_app_other by assumption.
      apply map_get_delete_other. assumption.
    + rewrite map_has_app, map_has_delete_other by assumption.
      destruct (jstr_eqb k' k) eqn:E; [|apply orb_false_r].
      apply jstr_eqb_eq in E. contradiction.
Qed.

(** ** Which entry is evicted *)

(** X8. When [set] adds a new key to a cache that is full, the oldest entry
    alone is evicted: the others stay, in their order, and the new entry is
    the most recent. *)
Theorem set_new_key_at_capacity c k v now :
  wf c ->
  map_has (cache c) k = false ->
  Z.of_nat (size c) = maxSize c ->
  (1 <= maxSize c)%Z ->
  cache (set k v now c) = tl (cache c) ++ [(k, mkEntry v now)]
  /\ size (set k v now c) = size c.
Proof.
  unfold wf, size. intros Hwf Habs Hsize Hmax.
  assert (Hc : cache (set k v now c) = tl (cache c) ++ [(k, mkEntry v now)]).
  { unfold set. cbn [cache with_cache]. rewrite Habs.
    replace (maxSize c <=? Z.of_nat (List.length (cache c)))%Z with true
      by (symmetry; apply Z.leb_le; lia).
    destruct (cache c) as [|[fk fe] rest] eqn:Ec; [simpl in Hsize; lia|].
    cbn [tl]. simpl in Hwf. inversion Hwf as [|? ? Hnin _]; subst.
    assert (Hrest : map_has rest fk = false).
    { destruct (map_has rest fk) eqn:E; [|reflexivity].
      apply map_has_In in E. contradiction. }
    cbn [map_delete filter fst]. rewrite jstr_eqb_refl. cbn [negb].
    fold (map_delete rest fk). rewrite (@map_delete_absent rest fk Hrest).
    apply map_set_absent. simpl in Habs.
    destruct (jstr_eqb k fk); [discriminate | exact Habs]. }
  split; [exact Hc|]. rewrite Hc, length_app. simpl.
  destruct (cache c); simpl in *; lia.
Qed.

(** ** Recency *)

(** The keys used after [k]: those of the entries behind it. *)
Fixpoint newer (k : jstr) (m : list (jstr * Entry)) : option (list jstr) :=
  match m with
  | [] => None
  | (k', _) :: t => if jstr_eqb k k' then Some (map fst t) else newer k t
  end.

(** A call that uses a key of [D]. *)
Definition touches (D : list jstr) (o : op) : Prop :=
  match o with
  | OGet k' _ => In k' D
  | OSet k' _ _ => In k' D
  | OClear => False
  end.

Lemma newer_has k m l : newer k m = Some l -> map_has m k = true.
Proof.
  induction m as [|[k' e] m IH]; simpl; [discriminate|].
  destruct (jstr_eqb k k'); [reflexivity|]. exact IH.
Qed.

Lemma newer_incl k m l x : newer k m = Some l -> In x l -> In x (map fst m).
Proof.
  induction m as [|[k' e] m IH]; simpl; [discriminate|].
  destruct (jstr_eqb k k').
  - intro H. injection H as <-. auto.
  - intros H Hx. right. apply IH; assumption.
Qed.

Lemma newer_NoDup k m l :
  NoDup (map fst m) -> newer k m = Some l -> NoDup l.
Proof.
  induction m as [|[k' e] m IH]; simpl; [discriminate|].
  intro H. inversion H as [|? ? _ Hnd]; subst.
  destruct (jstr_eqb k k'); [|apply IH; exact Hnd].
  intro E. injection E as <-. exact Hnd.
Qed.

Lemma newer_delete k k' m :
  k' <> k ->
  newer k (map_delete m k')
  = option_map (filter (fun x => negb (jstr_eqb k' x))) (newer k m).
Proof.
  intro Hne. induction m as [|[a e] m IH]; [reflexivity|].
  cbn [map_delete filter fst newer].
  destruct (jstr_eqb k' a) eqn:Ea; cbn [negb].
  - apply jstr_eqb_eq in Ea. subst a.
    destruct (jstr_eqb k k') eqn:Ek;
      [apply jstr_eqb_eq in Ek; symmetry in Ek; contradiction|].
    exact IH.
  - cbn [newer]. destruct (jstr_eqb k a); [|exact IH].
    cbn [option_map]. f_equal. unfold map_delete.
    clear. induction m as [|[b e'] m IH]; [reflexivity|].
    cbn [filter fst map]. destruct (jstr_eqb k' b); cbn [negb map];
      [exact IH | f_equal; exact IH].
Qed.

Lemma newer_app k m l k' e :
  newer k m = Some l -> newer k (m ++ [(k', e)]) = Some (l ++ [k']).
Proof.
  induction m as [|[a e'] m IH]; simpl; [discriminate|].
  destruct (jstr_eqb k a); [|exact IH].
  intro H. injection H as <-. rewrite map_app. reflexivity.
Qed.

Lemma newer_app_new k m e :
  map_has m k = false -> newer k (m ++ [(k, e)]) = Some [].
Proof.
  induction m as [|[a e'] m IH]; simpl.
  - rewrite jstr_eqb_refl. reflexivity.
  - destruct (jstr_eqb k a); [discriminate|]. exact IH.
Qed.

Lemma newer_first k m l :
  newer k m = Some l ->
  match m with
  | (fk, _) :: _ => fk = k -> List.length m = S (List.length l)
  | [] => True
  end.
Proof.
  destruct m as [|[fk fe] rest]; [auto|]. simpl.
  intros H Heq. subst fk. rewrite jstr_eqb_refl in H.
  injection H as <-. rewrite length_map. reflexivity.
Qed.

Lemma filter_incl_nin (k' : jstr) l :
  incl (filter (fun x => negb (jstr_eqb k' x)) l) l
  /\ ~ In k' (filter (fun x => negb (jstr_eqb k' x)) l).
Proof.
  split.
  - intros x Hx. apply filter_In in Hx. apply Hx.
  - intro Hx. apply filter_In in Hx. destruct Hx as [_ Hx].
    rewrite jstr_eqb_refl in Hx. discriminate Hx.
Qed.

(** The keys used after [k] are among those the calls used. *)
Definition recent (k : jstr) (D : list jstr) (c : LRUCache) : Prop :=
  wf c /\ exists l, newer k (cache c) = Some l /\ incl l D.

Lemma step_recent k D c o :
  NoDup D -> ~ In k D -> (Z.of_nat (List.length D) < maxSize c)%Z ->
  touches D o -> recent k D c -> recent k D (step c o).
Proof.
  intros HD HkD Hmax Ho [Hwf [l [Hl Hincl]]].
  split; [apply step_wf; exact Hwf|].
  destruct o as [k' now | k' v now | ]; cbn [touches] in Ho; [| |contradiction].
  - (* get *)
    assert (Hne : k' <> k) by (intros ->; contradiction).
    cbn [step].
    destruct (get_cache k' now c) as [-> | [-> | [e [_ [_ ->]]]]].
    + exists l. split; assumption.
    + rewrite (@newer_delete k k' _ Hne), Hl. cbn [option_map].
      eexists. split; [reflexivity|].
      intros x Hx. apply Hincl. apply (proj1 (filter_incl_nin k' l)). exact Hx.
    + erewrite newer_app;
        [|rewrite (@newer_delete k k' _ Hne), Hl; reflexivity].
      eexists. split; [reflexivity|].
      intros x Hx. apply in_app_or in Hx. destruct Hx as [Hx|[<-|[]]].
      * apply Hincl. apply (proj1 (filter_incl_nin k' l)). exact Hx.
      * exact Ho.
  - (* set *)
    assert (Hne : k' <> k) by (intros ->; contradiction).
    cbn [step]. unfold set. cbn [cache with_cache].
    set (m1 := if map_has (cache c) k' then map_delete (cache c) k'
               else cache c).
    assert (H1 : NoDup (map fst m1) /\ map_has m1 k' = false
                 /\ exists l1, newer k m1 = Some l1 /\ incl l1 D
                               /\ ~ In k' l1).
    { unfold m1. destruct (map_has (cache c) k') eqn:E.
      - split; [apply map_delete_NoDup; exact Hwf|].
        split; [apply map_has_delete_same|].
        rewrite (@newer_delete k k' _ Hne), Hl. cbn [option_map].
        eexists. split; [reflexivity|].
        destruct (filter_incl_nin k' l) as [Hi Hn]. split; [|exact Hn].
        intros x Hx. apply Hincl, Hi, Hx.
      - split; [exact Hwf|]. split; [exact E|].
        exists l. split; [exact Hl|]. split; [exact Hincl|].
        intro Hx. apply (@newer_incl k (cache c) l k' Hl) in Hx.
        apply map_has_In in Hx. congruence. }
    clearbody m1. destruct H1 as [Hnd1 [Habs1 [l1 [Hl1 [Hincl1 Hnin1]]]]].
    set (m2 := if (maxSize c <=? Z.of_nat (List.length m1))%Z
               then match m1 with
                    | [] => m1
                    | (firstKey, _) :: _ => map_delete m1 firstKey
                    end
               else m1).
    assert (H2 : map_has m2 k' = false
                 /\ exists l2, newer k m2 = Some l2 /\ incl l2 D).
    { unfold m2.
      destruct (maxSize c <=? Z.of_nat (List.length m1))%Z eqn:Hfull.
      2: { split; [exact Habs1|]. exists l1. split; assumption. }
      apply Z.leb_le in Hfull.
      destruct m1 as [|[fk fe] rest] eqn:Em1; [discriminate Hl1|].
      split; [apply map_has_delete_false; exact Habs1|].
      destruct (list_eq_dec N.eq_dec fk k) as [Heq|Hfk].
      - exfalso. pose proof (@newer_first k _ l1 Hl1 Heq) as Hlen.
        assert (Hcount : (List.length (k' :: l1) <= List.length D)%nat).
        { apply NoDup_incl_length.
          - constructor; [exact Hnin1|].
            apply (@newer_NoDup k _ l1 Hnd1 Hl1).
          - intros x [<-|Hx]; [exact Ho | apply Hincl1, Hx]. }
        simpl in Hcount. lia.
      - rewrite (@newer_delete k fk _ Hfk), Hl1. cbn [option_map].
        eexists. split; [reflexivity|].
        intros x Hx. apply Hincl1.
        apply (proj1 (filter_incl_nin fk l1)). exact Hx. }
    clearbody m2. destruct H2 as [Habs2 [l2 [Hl2 Hincl2]]].
    rewrite (@map_set_absent m2 k' _ Habs2), (@newer_app k m2 l2 k' _ Hl2).
    eexists. split; [reflexivity|].
    intros x Hx. apply in_app_or in Hx.
    destruct Hx as [Hx|[<-|[]]]; [apply Hincl2, Hx | exact Ho].
Qed.

Lemma run_recent k D ops : forall c,
  NoDup D -> ~ In k D -> (Z.of_nat (List.length D) < maxSize c)%Z ->
  Forall (touches D) ops -> recent k D c -> recent k D (run ops c).
Proof.
  induction ops as [|o ops IH]; intros c HD Hk Hmax Hall Hr; [exact Hr|].
  inversion Hall; subst. cbn [run fold_left]. apply IH; try assumption.
  - rewrite (proj1 (step_params c o)). exact Hmax.
  - apply step_recent; assumption.
Qed.

Lemma touches_leaves k D o : ~ In k D -> touches D o -> leaves k o.
Proof.
  intros Hk. destruct o as [k' now | k' v now | ]; simpl; [auto| |auto].
  intros Hin ->. contradiction.
Qed.

(** X9. The entry written for [k] outlives the calls that follow it when they
    use fewer than [maxSize] keys in all, none of them [k]: it is still in
    the cache, and read before the TTL has elapsed it gives its value. *)
Theorem recently_used_survives c k v t ops D :
  wf c -> NoDup D -> ~ In k D ->
  (Z.of_nat (List.length D) < maxSize c)%Z ->
  Forall (touches D) ops ->
  let c' := run ops (set k v t c) in
  map_has (cache c') k = true
  /\ forall t', (t' - t <= ttl c)%Z -> fst (get k t' c') = Some v.
Proof.
  intros Hwf HD Hk Hmax Hall c'.
  assert (Hr : recent k D c').
  { apply run_recent; try assumption.
    split; [apply (@step_wf c (OSet k v t) Hwf)|].
    destruct (set_cache k v t c) as [m2 [Hc [Habs _]]].
    rewrite Hc. exists []. split; [apply newer_app_new; exact Habs|].
    intros x []. }
  destruct Hr as [_ [l [Hl _]]].
  pose proof (@newer_has k _ l Hl) as Hhas.
  split; [exact Hhas|]. intros t' Ht.
  assert (Hkept : kept k v t (ttl c) c').
  { apply run_kept.
    - eapply Forall_impl; [|exact Hall]. intros o. apply touches_leaves.
      exact Hk.
    - split; [reflexivity|]. right. apply set_get_same. }
  assert (Httl : ttl c' = ttl c) by apply Hkept.
  rewrite <- Httl in Hkept. rewrite (@get_of_kept k v t t' c' Hkept), Hhas, Httl.
  replace (ttl c <? t' - t)%Z with false by (symmetry; apply Z.ltb_ge; lia).
  reflexivity.
Qed.


End LRU.

Arguments OGet {V} key now.
Arguments OClear {V}.

(** A cache of capacity two holding "a" then "b". *)
Definition two_full : LRUCache nat :=
  set (js "b") 2%nat 1%Z (set (js "a") 1%nat 0%Z (new nat 2 1000)).

Lemma lru_get_after_set_and_size_bound_witness :
  fst (get (js "a") 5 (run [OGet (js "a") 3; OSet (js "c") 7%nat 4]
                           (set (js "a") 1%nat 2 two_full)))
  = Some 1%nat
  /\ (Z.of_nat (size (run [OSet (js "a") 1%nat 0; OSet (js "b") 2%nat 1;
                           OSet (js "c") 3%nat 2] (new nat 2 1000))) <= 2)%Z.
Proof.
  split.
  - rewrite (proj1 (lru_get_after_set_and_size_bound nat) two_full (js "a") 1%nat
               2%Z [OGet (js "a") 3; OSet (js "c") 7%nat 4] 5%Z).
    + reflexivity.
    + repeat constructor. simpl. discriminate.
  - apply (proj1 (proj2 (proj2 (lru_get_after_set_and_size_bound nat)))
             2%Z 1000%Z).
    lia.
Defined.

(** C8, as stated, fails for a capacity of zero: [set] finds no first key to
    evict and inserts, so the cache holds one entry, more than [maxSize]. *)
Lemma lru_zero_capacity_overflows :
  (Z.of_nat (size (set (js "a") 1%nat 0%Z (new nat 0 1000)))
   > maxSize (set (js "a") 1%nat 0%Z (new nat 0 1000)))%Z.
Proof. reflexivity. Qed.

Lemma set_existing_key_at_capacity_witness :
  cache (set (js "a") 9%nat 5%Z two_full)
  = [(js "b", mkEntry 2%nat 1%Z); (js "a", mkEntry 9%nat 5%Z)]
  /\ Z.of_nat (size (set (js "a") 9%nat 5%Z two_full)) = 2%Z.
Proof.
  destruct (@set_existing_key_at_capacity nat two_full (js "a") 9%nat 5%Z)
    as [H1 [H2 _]].
  - repeat constructor; simpl; intuition discriminate.
  - reflexivity.
  - reflexivity.
  - split; [exact H1 | exact H2].
Defined.

Lemma set_new_key_at_capacity_witness :
  cache (set (js "c") 3%nat 2%Z two_full)
  = [(js "b", mkEntry 2%nat 1%Z); (js "c", mkEntry 3%nat 2%Z)].
Proof.
  destruct (@set_new_key_at_capacity nat two_full (js "c") 3%nat 2%Z)
    as [H _].
  - repeat constructor; simpl; intuition discriminate.
  - reflexivity.
  - reflexivity.
  - simpl. lia.
  - exact H.
Defined.

Lemma recently_used_survives_witness :
  fst (get (js "a") 9
         (run [OSet (js "b") 2%nat 3; OGet (js "b") 4; OSet (js "b") 5%nat 6]
              (set (js "a") 1%nat 2 two_full)))
  = Some 1%nat.
Proof.
  apply (@recently_used_survives nat two_full (js "a") 1%nat 2%Z
           [OSet (js "b") 2%nat 3; OGet (js "b") 4; OSet (js "b") 5%nat 6]
           [js "b"]).
  - repeat constructor; simpl; intuition discriminate.
  - repeat constructor. simpl. tauto.
  - simpl. intuition discriminate.
  - simpl. lia.
  - repeat constructor.
  - simpl. lia.
Defined.

End Cache.

(* ================================================================== *)
(** * Engine built-ins *)
(* ================================================================== *)

(** [text.normalize('NFKC')] and [text.toLowerCase()] belong to the JavaScript
    engine.  The embedding takes them as a parameter and fixes only what they
    do on text of 7-bit code units: NFKC leaves it as it is, and lower-casing
    maps [A-Z] to [a-z]. *)
Record Builtins : Type := mkBuiltins {
  nfkc : jstr -> jstr;
  toLowerCase : jstr -> jstr
}.

Definition ascii_text (s : jstr) : Prop := Forall (fun c => is_ascii c = true) s.

Definition ascii_faithful (B : Builtins) : Prop :=
  (forall s, ascii_text s -> nfkc B s = s)
  /\ (forall s, ascii_text s -> toLowerCase B s = map lower_ascii s).

Definition ascii_builtins : Builtins :=
  mkBuiltins (fun s => s) (map lower_ascii).

Lemma ascii_builtins_faithful : ascii_faithful ascii_builtins.
Proof. split; reflexivity. Qed.

(* ================================================================== *)
(** * Text normalizer (lib/normalization/text-normalizer.js) *)
(* ================================================================== *)

Module Normalizer.

Record Options : Type := mkOptions {
  lowercase : bool;
  expandContractions : bool;
  normalizeNumbers : bool;
  preserveQuestionMarks : bool
}.

(** The defaults of the destructuring patterns of the stages. *)
Definition default_options : Options := mkOptions true true false false.

(** [text.replace(/[...]/g, rep)] for a class given by its code units. *)
Definition replace_class (members : list N) (rep : jstr) (text : jstr) : jstr :=
  replace_all (Chr (mem_class members)) rep text.

(** Stage 1: character normalization *)
Definition normalizeCharacters (B : Builtins) (text : jstr) : jstr :=
  let text := nfkc B text in
  (* /[\u2018\u2019]/g, to an apostrophe *)
  let text := replace_class [8216; 8217]%N [39%N] text in
  (* /[\u201C\u201D]/g, to a double quote *)
  let text := replace_class [8220; 8221]%N [34%N] text in
  (* /[\u2013\u2014]/g, to a hyphen *)
  let text := replace_class [8211; 8212]%N [45%N] text in
  (* /\u2026/g, to three full stops *)
  let text := replace_class [8230]%N [46; 46; 46]%N text in
  (* /[\u00A0\u1680\u2000-\u200B\u202F\u205F\u3000]/g, to a space *)
  let text :=
    replace_all
      (Chr (fun c => mem_class [160; 5760; 8239; 8287; 12288]%N c
                     || in_range 8192 8203 c)) [32%N] text in
  (* /[\u200B-\u200D\uFEFF]/g, removed *)
  let text :=
    replace_all (Chr (fun c => in_range 8203 8205 c || (c =? 65279)%N)) [] text in
  text.

(** [[^\w\s]] *)
Definition not_word_space (c : N) : bool := negb (is_word c) && negb (is_space c).

(** /^[^\w\s]+|[^\w\s]+$/g *)
Definition re_edges : regex :=
  Alt (Seq Bol (Plus (Chr not_word_space))) (Seq (Plus (Chr not_word_space)) Eol).

Definition hyphen : regex := chr 45.

(** /(\s)-+(\s)/g, /(\s)-+/g and /-+(\s)/g *)
Definition re_hyphen_between : regex := seqs [space; Plus hyphen; space].
Definition re_hyphen_leading : regex := seqs [space; Plus hyphen].
Definition re_hyphen_trailing : regex := seqs [Plus hyphen; space].

(** Stage 2: punctuation handling *)
Definition normalizePunctuation (text : jstr) (options : Options) : jstr :=
  let text := replace_all re_edges [] text in
  (* /[.,;:]/g *)
  let text := replace_class [46; 44; 59; 58]%N (js " ") text in
  (* /[?!]/g *)
  let text := if negb (preserveQuestionMarks options)
              then replace_class [63; 33]%N (js " ") text else text in
  (* the three quote characters: double quote, apostrophe, backtick *)
  let text := replace_class [34; 39; 96]%N [] text in
  (* /[(){}\[\]]/g *)
  let text := replace_class [40; 41; 123; 125; 91; 93]%N (js " ") text in
  (* /[<>|\\\/~^*+=_]/g *)
  let text :=
    replace_class [60; 62; 124; 92; 47; 126; 94; 42; 43; 61; 95]%N (js " ") text in
  let text := replace_all re_hyphen_between (js " ") text in
  let text := replace_all re_hyphen_leading (js " ") text in
  let text := replace_all re_hyphen_trailing (js " ") text in
  text.

Definition contractions : list (string * string) :=
  [ ("don't", "do not"); ("doesn't", "does not"); ("didn't", "did not");
    ("won't", "will not"); ("wouldn't", "would not"); ("can't", "cannot");
    ("couldn't", "could not"); ("shouldn't", "should not"); ("isn't", "is not");
    ("aren't", "are not"); ("wasn't", "was not"); ("weren't", "were not");
    ("haven't", "have not"); ("hasn't", "has not"); ("hadn't", "had not");
    ("i'm", "i am"); ("you're", "you are"); ("he's", "he is");
    ("she's", "she is"); ("it's", "it is"); ("we're", "we are");
    ("they're", "they are"); ("i've", "i have"); ("you've", "you have");
    ("we've", "we have"); ("they've", "they have"); ("i'll", "i will");
    ("you'll", "you will"); ("he'll", "he will"); ("she'll", "she will");
    ("we'll", "we will"); ("they'll", "they will"); ("i'd", "i would");
    ("you'd", "you would"); ("he'd", "he would"); ("she'd", "she would");
    ("we'd", "we would"); ("they'd", "they would") ]%string.

Definition numberWords : list (string * string) :=
  [ ("zero", "0"); ("one", "1"); ("two", "2"); ("three", "3"); ("four", "4");
    ("five", "5"); ("six", "6"); ("seven", "7"); ("eight", "8"); ("nine", "9");
    ("ten", "10"); ("eleven", "11"); ("twelve", "12"); ("thirteen", "13");
    ("fourteen", "14"); ("fifteen", "15"); ("sixteen", "16");
    ("seventeen", "17"); ("eighteen", "18"); ("nineteen", "19");
    ("twenty", "20"); ("thirty", "30"); ("forty", "40"); ("fifty", "50");
    ("sixty", "60"); ("seventy", "70"); ("eighty", "80"); ("ninety", "90");
    ("hundred", "100"); ("thousand", "1000") ]%string.

(** [new RegExp('\\b' + w + '\\b', 'gi')] *)
Definition re_word (w : string) : regex := seqs [WordB; lit_i w; WordB].

(** [Object.entries(table).forEach(([w, by]) => text = text.replace(re, by))] *)
Definition replace_words (table : list (string * string)) (text : jstr) : jstr :=
  fold_left (fun text entry => replace_all (re_word (fst entry)) (js (snd entry)) text)
            table text.

(** Stage 3: text transformation *)
Definition transformText (B : Builtins) (text : jstr) (options : Options) : jstr :=
  let text := if expandContractions options
              then replace_words contractions text else text in
  let text := if normalizeNumbers options
              then replace_words numberWords text else text in
  let text := if lowercase options then toLowerCase B text else text in
  text.

(** Stage 4: structural normalization *)
Definition normalizeStructure (text : jstr) : jstr :=
  let text := replace_all (Plus space) (js " ") text in
  trim text.

(** The pipeline, on a string argument. *)
Definition normalize (B : Builtins) (text : jstr) (options : Options) : jstr :=
  match text with
  | [] => []
  | _ :: _ =>
      let text := normalizeCharacters B text in
      let text := normalizePunctuation text options in
      let text := transformText B text options in
      let text := normalizeStructure text in
      text
  end.

Definition normalizeForMatching (B : Builtins) (text : jstr) : jstr :=
  normalize B text (mkOptions true true false false).

Definition normalizeForKeywords (B : Builtins) (text : jstr) : jstr :=
  normalize B text (mkOptions true false false false).

(** ** Shapes of normalized text *)

Definition is_hyphen (c : N) : bool := (c =? 45)%N.

(** No two neighbours of [s] are related by [R]. *)
Fixpoint no_adj (R : N -> N -> bool) (s : jstr) : Prop :=
  match s with
  | a :: t =>
      match t with
      | b :: _ => R a b = false
      | [] => True
      end /\ no_adj R t
  | [] => True
  end.

(** White space before a hyphen, a hyphen before white space, white space
    before white space. *)
Definition ws_hy (a b : N) : bool := is_space a && is_hyphen b.
Definition hy_ws (a b : N) : bool := is_hyphen a && is_space b.
Definition ws_ws (a b : N) : bool := is_space a && is_space b.

(** The only white space is the space character. *)
Definition plain_space (c : N) : Prop := is_space c = true -> c = 32%N.

Definition starts_solid (s : jstr) : Prop :=
  match s with
  | c :: _ => is_space c = false
  | [] => True
  end.

(** The text is empty or begins and ends with a word character. *)
Definition word_edges (s : jstr) : Prop :=
  match s with
  | [] => True
  | c :: _ => is_word c = true /\ is_word (List.last s 0%N) = true
  end.

Lemma no_adj_tail R c t : no_adj R (c :: t) -> no_adj R t.
Proof. simpl. tauto. Qed.

Lemma no_adj_app_r R u v : no_adj R (u ++ v) -> no_adj R v.
Proof.
  induction u as [|a u IH]; simpl; [auto|]. intros [_ H]. apply IH. exact H.
Qed.

Lemma no_adj_pair R u a b v : no_adj R (u ++ a :: b :: v) -> R a b = false.
Proof. intro H. apply no_adj_app_r in H. simpl in H. tauto. Qed.

Lemma no_adj_cons R a s :
  (forall b, head s = Some b -> R a b = false) -> no_adj R s ->
  no_adj R (a :: s).
Proof.
  intros H1 H2. simpl. split; [|exact H2].
  destruct s as [|b t]; [exact I|]. apply H1. reflexivity.
Qed.

Lemma no_adj_app_l R u v : no_adj R (u ++ v) -> no_adj R u.
Proof.
  induction u as [|a u IH]; simpl; [auto|]. intros [H1 H2]. split; [|auto].
  destruct u as [|b u']; [exact I|]. exact H1.
Qed.

Lemma no_adj_map R (f : N -> N) s :
  (forall a b, R (f a) (f b) = R a b) -> no_adj R s -> no_adj R (map f s).
Proof.
  intro Hf. induction s as [|a t IH]; simpl; [auto|]. intros [H1 H2].
  split; [|auto]. destruct t as [|b t']; simpl; [exact I|].
  rewrite Hf. exact H1.
Qed.

(** A nonempty run ends on one of its members. *)
Lemma run_last (p : N -> bool) c u :
  Forall (fun x => p x = true) (c :: u) ->
  exists u' a, c :: u = u' ++ [a] /\ p a = true.
Proof.
  intro H. destruct (@exists_last _ (c :: u)) as [u' [a E]]; [discriminate|].
  exists u', a. split; [exact E|]. rewrite E in H.
  apply Forall_app in H. destruct H as [_ H]. inversion H. assumption.
Qed.

(** The first code unit of the output of one step of the loop. *)
Lemma replace_loop_head r rep fuel prev s b :
  rep <> [] ->
  head (replace_loop (S fuel) r rep prev s) = Some b ->
  (match_here r prev s <> None /\ head rep = Some b)
  \/ (match_here r prev s = None /\ head s = Some b).
Proof.
  intros Hrep. simpl.
  destruct (match_here r prev s) as [[p' s']|].
  - intro H. left. split; [discriminate|].
    destruct rep as [|x rep']; [contradiction|].
    destruct (List.length s' <? List.length s)%nat; [exact H|].
    destruct s; exact H.
  - intro H. right. split; [reflexivity|]. destruct s; exact H.
Qed.

Lemma length_run_end p prev s :
  (List.length (snd (run_end p prev s)) <= List.length s)%nat.
Proof.
  destruct (run_end_consumes p prev s) as [u [E _]].
  rewrite E at 2. rewrite length_app. lia.
Qed.

(** ** The hyphen rules *)

Lemma leading_shape : re_hyphen_leading = Seq (Chr is_space) (Plus (Chr is_hyphen)).
Proof. reflexivity. Qed.

Lemma trailing_shape : re_hyphen_trailing = Seq (Plus (Chr is_hyphen)) (Chr is_space).
Proof. reflexivity. Qed.

Lemma hyphen_not_space c : is_hyphen c = true -> is_space c = false.
Proof. unfold is_hyphen. intro H. apply N.eqb_eq in H. subst. reflexivity. Qed.

(** After [/(\s)-+/g] no white space stands before a hyphen. *)
Lemma leading_post : forall fuel prev s,
  (List.length s < fuel)%nat ->
  no_adj ws_hy (replace_loop fuel re_hyphen_leading (js " ") prev s).
Proof.
  induction fuel as [|fuel IH]; intros prev s Hlen; [lia|].
  assert (Hhead : forall f p t b,
             head (replace_loop (S f) re_hyphen_leading (js " ") p t) = Some b ->
             is_hyphen b = true -> head t = Some b).
  { intros f p t b Hb Hy. apply replace_loop_head in Hb; [|discriminate].
    destruct Hb as [[_ Hb]|[_ Hb]]; [|exact Hb].
    injection Hb as <-. discriminate Hy. }
  simpl. rewrite leading_shape, match_here_Chr_Plus, <- leading_shape.
  destruct s as [|w [|h t]].
  - exact I.
  - destruct fuel; simpl; auto.
  - simpl in Hlen.
    destruct (is_space w && is_hyphen h) eqn:E.
    + pose proof (length_run_end is_hyphen (Some h) t) as Hle.
      destruct (run_end is_hyphen (Some h) t) as [p' s'] eqn:Er. simpl in Hle.
      replace (List.length s' <? List.length (w :: h :: t))%nat with true
        by (symmetry; apply Nat.ltb_lt; simpl; lia).
      change (js " " ++ ?x) with (32%N :: x).
      destruct fuel as [|fuel']; [lia|].
      apply no_adj_cons; [|apply IH; lia].
      intros b Hb. unfold ws_hy. destruct (is_hyphen b) eqn:Eb; [|apply andb_false_r].
      exfalso. apply Hhead in Hb; [|exact Eb].
      destruct s' as [|c s'']; [discriminate|]. injection Hb as ->.
      pose proof (run_end_stop is_hyphen (Some h) t) as Hs.
      rewrite Er in Hs. specialize (Hs _ _ eq_refl). congruence.
    + destruct fuel as [|fuel']; [lia|].
      apply no_adj_cons; [|apply IH; simpl; lia].
      intros b Hb. unfold ws_hy. destruct (is_space w) eqn:Ew; [|reflexivity].
      destruct (is_hyphen b) eqn:Eb; [|reflexivity].
      exfalso. apply Hhead in Hb; [|exact Eb]. injection Hb as ->.
      simpl in E. congruence.
Qed.

Lemma match_here_trailing prev s :
  match_here re_hyphen_trailing prev s
  = match s with
    | c :: t =>
        if is_hyphen c
        then match snd (run_end is_hyphen (Some c) t) with
             | w :: rest => if is_space w then Some (Some w, rest) else None
             | [] => None
             end
        else None
    | [] => None
    end.
Proof.
  rewrite trailing_shape. apply match_here_Plus_Chr_then. apply hyphen_not_space.
Qed.

(** A hyphen in front of a match, or of white space, starts a match. *)
Lemma trailing_extends prev prev' c t :
  is_hyphen c = true ->
  (match_here re_hyphen_trailing prev t <> None
   \/ exists w, head t = Some w /\ is_space w = true) ->
  match_here re_hyphen_trailing prev' (c :: t) <> None.
Proof.
  intros Hc H. rewrite match_here_trailing, Hc.
  destruct H as [H|[w [Hw Hs]]].
  - rewrite match_here_trailing in H. destruct t as [|c' t']; [congruence|].
    destruct (is_hyphen c') eqn:Ec'; [|congruence].
    simpl. rewrite Ec'.
    destruct (snd (run_end is_hyphen (Some c') t')) as [|w rest]; [congruence|].
    destruct (is_space w); congruence.
  - destruct t as [|w' t']; [discriminate|]. injection Hw as ->.
    simpl. destruct (is_hyphen w) eqn:Ew.
    + apply hyphen_not_space in Ew. congruence.
    + simpl. rewrite Hs. discriminate.
Qed.

(** After [/-+(\s)/g] no hyphen stands before white space. *)
Lemma trailing_post : forall fuel prev s,
  (List.length s < fuel)%nat ->
  no_adj hy_ws (replace_loop fuel re_hyphen_trailing (js " ") prev s).
Proof.
  induction fuel as [|fuel IH]; intros prev s Hlen; [lia|].
  simpl. destruct (match_here re_hyphen_trailing prev s) as [[p' s']|] eqn:E.
  - destruct (match_here_consumes _ _ _ E) as [u [Hu _]].
    assert (Hne : u <> []).
    { intros ->. rewrite match_here_trailing in E. simpl in Hu. subst s'.
      destruct s as [|c t]; [discriminate|].
      destruct (is_hyphen c); [|discriminate].
      pose proof (length_run_end is_hyphen (Some c) t) as Hle.
      destruct (snd (run_end is_hyphen (Some c) t)) as [|w rest]; [discriminate|].
      destruct (is_space w); [|discriminate].
      injection E as _ E. rewrite E in Hle. simpl in Hle. lia. }
    assert (Hlt : (List.length s' < List.length s)%nat).
    { rewrite Hu, length_app. destruct u; [contradiction|simpl; lia]. }
    replace (List.length s' <? List.length s)%nat with true
      by (symmetry; apply Nat.ltb_lt; exact Hlt).
    change (js " " ++ ?x) with (32%N :: x).
    apply no_adj_cons; [intros; reflexivity|]. apply IH. lia.
  - destruct s as [|c t]; [exact I|]. simpl in Hlen.
    destruct fuel as [|fuel']; [lia|].
    apply no_adj_cons; [|apply IH; lia].
    intros b Hb. unfold hy_ws. destruct (is_hyphen c) eqn:Ec; [|reflexivity].
    destruct (is_space b) eqn:Eb; [|reflexivity]. exfalso.
    apply (@trailing_extends (Some c) prev c t Ec); [|exact E].
    apply replace_loop_head in Hb; [|discriminate].
    destruct Hb as [[Hm _]|[_ Hb]]; [left; exact Hm|].
    right. exists b. auto.
Qed.

Lemma trailing_keeps : forall fuel prev s,
  (List.length s < fuel)%nat ->
  no_adj ws_hy s ->
  no_adj ws_hy (replace_loop fuel re_hyphen_trailing (js " ") prev s).
Proof.
  induction fuel as [|fuel IH]; intros prev s Hlen Hs; [lia|].
  assert (Hhead : forall f p t b,
             head (replace_loop (S f) re_hyphen_trailing (js " ") p t) = Some b ->
             is_hyphen b = true -> head t = Some b).
  { intros f p t b Hb Hy. apply replace_loop_head in Hb; [|discriminate].
    destruct Hb as [[_ Hb]|[_ Hb]]; [|exact Hb].
    injection Hb as <-. discriminate Hy. }
  simpl. destruct (match_here re_hyphen_trailing prev s) as [[p' s']|] eqn:E.
  - rewrite match_here_trailing in E. destruct s as [|c t]; [discriminate|].
    destruct (is_hyphen c) eqn:Ec; [|discriminate].
    destruct (run_end_consumes is_hyphen (Some c) t) as [u [Hu [Hall _]]].
    destruct (snd (run_end is_hyphen (Some c) t)) as [|w rest]; [discriminate|].
    destruct (is_space w) eqn:Ew; [|discriminate].
    injection E as _ <-.
    assert (Hlt : (List.length rest < List.length (c :: t))%nat).
    { rewrite Hu. simpl. rewrite length_app. simpl. lia. }
    replace (List.length rest <? List.length (c :: t))%nat with true
      by (symmetry; apply Nat.ltb_lt; exact Hlt).
    change (js " " ++ ?x) with (32%N :: x).
    assert (Hrest : no_adj ws_hy rest).
    { rewrite Hu in Hs. apply (no_adj_app_r _ (c :: u ++ [w])).
      simpl. rewrite <- app_assoc. exact Hs. }
    simpl in Hlen, Hlt. destruct fuel as [|fuel']; [lia|].
    apply no_adj_cons; [|apply IH; [lia | exact Hrest]].
    intros b Hb. unfold ws_hy. destruct (is_hyphen b) eqn:Eb; [|apply andb_false_r].
    exfalso. apply Hhead in Hb; [|exact Eb].
    destruct rest as [|b' rest']; [discriminate|]. injection Hb as ->.
    rewrite Hu in Hs.
    assert (Hp : ws_hy w b = false).
    { apply (@no_adj_pair ws_hy (c :: u) w b rest'). exact Hs. }
    unfold ws_hy in Hp. rewrite Ew, Eb in Hp. discriminate.
  - destruct s as [|c t]; [exact I|]. simpl in Hlen.
    destruct fuel as [|fuel']; [lia|].
    apply no_adj_cons; [|apply IH; [lia | eapply no_adj_tail; exact Hs]].
    intros b Hb. unfold ws_hy. destruct (is_hyphen b) eqn:Eb; [|apply andb_false_r].
    apply Hhead in Hb; [|exact Eb].
    destruct t as [|b' t']; [discriminate|]. injection Hb as ->.
    simpl in Hs. destruct Hs as [Hs _]. unfold ws_hy in Hs. rewrite Eb in Hs.
    rewrite andb_true_r in *. exact Hs.
Qed.

(** ** The collapse of white space *)

Lemma match_here_spaces prev s :
  match_here (Plus space) prev s
  = match s with
    | c :: t => if is_space c then Some (run_end is_space (Some c) t) else None
    | [] => None
    end.
Proof. unfold space. apply match_here_Plus_Chr. Qed.

Lemma spaces_loop_step fuel prev c t :
  (List.length (c :: t) < S fuel)%nat ->
  replace_loop (S fuel) (Plus space) (js " ") prev (c :: t)
  = if is_space c
    then 32%N :: replace_loop fuel (Plus space) (js " ")
                              (fst (run_end is_space (Some c) t))
                              (snd (run_end is_space (Some c) t))
    else c :: replace_loop fuel (Plus space) (js " ") (Some c) t.
Proof.
  intro Hlen. cbn [replace_loop]. rewrite match_here_spaces.
  destruct (is_space c); [|reflexivity].
  pose proof (length_run_end is_space (Some c) t) as Hle.
  destruct (run_end is_space (Some c) t) as [p' s']. simpl in Hle |- *.
  replace (List.length s' <? S (List.length t))%nat with true
    by (symmetry; apply Nat.ltb_lt; lia).
  reflexivity.
Qed.

(** The output of the collapse starts with white space only where the input
    does. *)
Lemma spaces_head fuel prev s b :
  head (replace_loop (S fuel) (Plus space) (js " ") prev s) = Some b ->
  (b = 32%N /\ exists c, head s = Some c /\ is_space c = true)
  \/ (head s = Some b /\ is_space b = false).
Proof.
  intro Hb. apply replace_loop_head in Hb; [|discriminate].
  rewrite match_here_spaces in Hb.
  destruct s as [|c t]; [destruct Hb as [[H _]|[_ H]]; [congruence|discriminate]|].
  destruct (is_space c) eqn:Ec; destruct Hb as [[H1 H2]|[H1 H2]]; try congruence.
  - left. injection H2 as <-. split; [reflexivity|]. exists c. auto.
  - right. injection H2 as <-. auto.
Qed.

Lemma spaces_post : forall fuel prev s,
  (List.length s < fuel)%nat ->
  no_adj ws_ws (replace_loop fuel (Plus space) (js " ") prev s)
  /\ Forall plain_space (replace_loop fuel (Plus space) (js " ") prev s).
Proof.
  induction fuel as [|fuel IH]; intros prev s Hlen; [lia|].
  destruct s as [|c t]; [simpl; auto|].
  rewrite spaces_loop_step by exact Hlen. simpl in Hlen.
  destruct fuel as [|fuel']; [lia|].
  destruct (is_space c) eqn:Ec.
  - pose proof (length_run_end is_space (Some c) t) as Hle.
    pose proof (run_end_stop is_space (Some c) t) as Hstop.
    destruct (run_end is_space (Some c) t) as [p' s']. simpl in *.
    destruct (IH p' s' ltac:(lia)) as [H1 H2].
    split; [|constructor; [intro; reflexivity | exact H2]].
    apply no_adj_cons; [|exact H1].
    intros b Hb. unfold ws_ws. simpl.
    apply spaces_head in Hb.
    destruct Hb as [[_ [c' [Hc' Es]]]|[_ Hb]]; [|exact Hb].
    destruct s' as [|x s'']; [discriminate|]. injection Hc' as ->.
    rewrite (Hstop _ _ eq_refl) in Es. discriminate.
  - destruct (IH (Some c) t ltac:(lia)) as [H1 H2].
    split; [|constructor; [unfold plain_space; congruence | exact H2]].
    apply no_adj_cons; [|exact H1].
    intros b _. unfold ws_ws. rewrite Ec. reflexivity.
Qed.

Lemma spaces_keep_ws_hy : forall fuel prev s,
  (List.length s < fuel)%nat ->
  no_adj ws_hy s ->
  no_adj ws_hy (replace_loop fuel (Plus space) (js " ") prev s).
Proof.
  induction fuel as [|fuel IH]; intros prev s Hlen Hs; [lia|].
  destruct s as [|c t]; [exact I|].
  rewrite spaces_loop_step by exact Hlen. simpl in Hlen.
  destruct fuel as [|fuel']; [lia|].
  destruct (is_space c) eqn:Ec.
  - pose proof (length_run_end is_space (Some c) t) as Hle.
    destruct (run_end_consumes is_space (Some c) t) as [u [Hu [Hall _]]].
    destruct (run_end is_space (Some c) t) as [p' s']. cbn [fst snd] in *.
    apply no_adj_cons.
    + intros b Hb. unfold ws_hy. simpl.
      destruct (is_hyphen b) eqn:Eb; [|reflexivity]. exfalso.
      apply spaces_head in Hb. destruct Hb as [[-> _]|[Hb _]]; [discriminate|].
      destruct s' as [|b' s'']; [discriminate|]. injection Hb as ->.
      destruct (@run_last is_space c u) as [u' [a [Eu Ea]]];
        [constructor; assumption|].
      rewrite Hu in Hs.
      change (c :: u ++ b :: s'') with ((c :: u) ++ b :: s'') in Hs.
      rewrite Eu, <- app_assoc in Hs.
      apply no_adj_pair in Hs. unfold ws_hy in Hs.
      rewrite Ea, Eb in Hs. discriminate.
    + apply IH; [lia|]. rewrite Hu in Hs.
      apply (no_adj_app_r _ (c :: u)). exact Hs.
  - apply no_adj_cons; [|apply IH; [lia | eapply no_adj_tail; exact Hs]].
    intros b _. unfold ws_hy. rewrite Ec. reflexivity.
Qed.

Lemma spaces_keep_hy_ws : forall fuel prev s,
  (List.length s < fuel)%nat ->
  no_adj hy_ws s ->
  no_adj hy_ws (replace_loop fuel (Plus space) (js " ") prev s).
Proof.
  induction fuel as [|fuel IH]; intros prev s Hlen Hs; [lia|].
  destruct s as [|c t]; [exact I|].
  rewrite spaces_loop_step by exact Hlen. simpl in Hlen.
  destruct fuel as [|fuel']; [lia|].
  destruct (is_space c) eqn:Ec.
  - pose proof (length_run_end is_space (Some c) t) as Hle.
    destruct (run_end_consumes is_space (Some c) t) as [u [Hu _]].
    destruct (run_end is_space (Some c) t) as [p' s']. cbn [fst snd] in *.
    apply no_adj_cons; [intros; reflexivity|].
    apply IH; [lia|]. rewrite Hu in Hs.
    apply (no_adj_app_r _ (c :: u)). exact Hs.
  - apply no_adj_cons; [|apply IH; [lia | eapply no_adj_tail; exact Hs]].
    intros b Hb. unfold hy_ws. destruct (is_hyphen c) eqn:Eh; [|reflexivity].
    destruct (is_space b) eqn:Eb; [|reflexivity]. exfalso.
    apply spaces_head in Hb.
    destruct Hb as [[_ [c' [Hc' Es]]]|[Hb Es]]; [|congruence].
    destruct t as [|x t']; [discriminate|]. injection Hc' as ->.
    simpl in Hs. destruct Hs as [Hs _]. unfold hy_ws in Hs.
    rewrite Eh, Es in Hs. discriminate.
Qed.

(** Text whose white space is single spaces is left as it is. *)
Lemma spaces_id : forall fuel prev s,
  no_adj ws_ws s -> Forall plain_space s ->
  replace_loop fuel (Plus space) (js " ") prev s = s.
Proof.
  induction fuel as [|fuel IH]; intros prev s Hadj Hplain; [reflexivity|].
  destruct s as [|c t]; [reflexivity|].
  cbn [replace_loop]. rewrite match_here_spaces.
  inversion Hplain as [|? ? Hc Ht]; subst.
  destruct (is_space c) eqn:Ec.
  - rewrite run_end_id.
    + replace (List.length t <? List.length (c :: t))%nat with true
        by (symmetry; apply Nat.ltb_lt; simpl; lia).
      rewrite (Hc Ec) at 2. simpl. f_equal.
      apply IH; [eapply no_adj_tail; exact Hadj | exact Ht].
    + destruct t as [|b t']; [left; reflexivity|]. right. exists b.
      split; [reflexivity|]. simpl in Hadj. destruct Hadj as [Hadj _].
      unfold ws_ws in Hadj. rewrite Ec in Hadj. exact Hadj.
  - f_equal. apply IH; [eapply no_adj_tail; exact Hadj | exact Ht].
Qed.

(** ** Trimming *)

Definition ends_solid (s : jstr) : Prop := starts_solid (rev s).

Lemma trimStart_split s :
  exists a, s = a ++ trimStart s /\ Forall (fun c => is_space c = true) a.
Proof.
  induction s as [|c t IH]; simpl.
  - exists []. split; [reflexivity | constructor].
  - destruct (is_space c) eqn:E.
    + destruct IH as [a [Ha Hall]]. exists (c :: a).
      split; [simpl; f_equal; exact Ha | constructor; assumption].
    + exists []. split; [reflexivity | constructor].
Qed.

Lemma trimStart_solid s : starts_solid (trimStart s).
Proof.
  induction s as [|c t IH]; simpl; [exact I|].
  destruct (is_space c) eqn:E; [exact IH | exact E].
Qed.

Lemma trimStart_id s : starts_solid s -> trimStart s = s.
Proof. destruct s as [|c t]; simpl; [reflexivity|]. intros ->. reflexivity. Qed.

Lemma trimEnd_split s :
  exists b, s = trimEnd s ++ b /\ Forall (fun c => is_space c = true) b.
Proof.
  unfold trimEnd. destruct (trimStart_split (rev s)) as [a [Ha Hall]].
  exists (rev a). split.
  - rewrite <- rev_app_distr, <- Ha. symmetry. apply rev_involutive.
  - apply Forall_rev. exact Hall.
Qed.

Lemma trimEnd_solid s : ends_solid (trimEnd s).
Proof.
  unfold ends_solid, trimEnd. rewrite rev_involutive. apply trimStart_solid.
Qed.

Lemma trimEnd_id s : ends_solid s -> trimEnd s = s.
Proof.
  unfold ends_solid, trimEnd. intro H. rewrite trimStart_id by exact H.
  apply rev_involutive.
Qed.

Lemma trimEnd_keeps_start s : starts_solid s -> starts_solid (trimEnd s).
Proof.
  intro H. destruct (trimEnd_split s) as [b [Hb Hall]].
  destruct (trimEnd s) as [|c t] eqn:E; [exact I|].
  rewrite Hb in H. exact H.
Qed.

Lemma trim_split s :
  exists a b, s = a ++ trim s ++ b
              /\ Forall (fun c => is_space c = true) a
              /\ Forall (fun c => is_space c = true) b.
Proof.
  unfold trim. destruct (trimStart_split s) as [a [Ha Hall]].
  destruct (trimEnd_split (trimStart s)) as [b [Hb Hbll]].
  exists a, b. rewrite <- Hb. auto.
Qed.

Lemma trim_solid s : starts_solid (trim s) /\ ends_solid (trim s).
Proof.
  unfold trim. split.
  - apply trimEnd_keeps_start, trimStart_solid.
  - apply trimEnd_solid.
Qed.

Lemma trim_id s : starts_solid s -> ends_solid s -> trim s = s.
Proof.
  intros H1 H2. unfold trim. rewrite trimStart_id by exact H1.
  apply trimEnd_id. exact H2.
Qed.

Lemma trim_Forall (P : N -> Prop) s : Forall P s -> Forall P (trim s).
Proof.
  intro H. destruct (trim_split s) as [a [b [E _]]]. rewrite E in H.
  apply Forall_app in H. destruct H as [_ H].
  apply Forall_app in H. tauto.
Qed.

Lemma trim_no_adj R s : no_adj R s -> no_adj R (trim s).
Proof.
  intro H. destruct (trim_split s) as [a [b [E _]]]. rewrite E in H.
  apply no_adj_app_r in H. apply no_adj_app_l in H. exact H.
Qed.

(** ** Stage 4 *)

Lemma structure_post s :
  no_adj ws_ws (normalizeStructure s)
  /\ Forall plain_space (normalizeStructure s)
  /\ starts_solid (normalizeStructure s)
  /\ ends_solid (normalizeStructure s).
Proof.
  unfold normalizeStructure.
  unfold replace_all.
  destruct (@spaces_post (S (List.length s)) None s) as [H1 H2]; [lia|].
  split; [apply trim_no_adj; exact H1|].
  split; [apply trim_Forall; exact H2|].
  apply trim_solid.
Qed.

Lemma structure_keeps_ws_hy s :
  no_adj ws_hy s -> no_adj ws_hy (normalizeStructure s).
Proof.
  intro H. apply trim_no_adj. unfold normalizeStructure, replace_all.
  apply spaces_keep_ws_hy; [lia | exact H].
Qed.

Lemma structure_keeps_hy_ws s :
  no_adj hy_ws s -> no_adj hy_ws (normalizeStructure s).
Proof.
  intro H. apply trim_no_adj. unfold normalizeStructure, replace_all.
  apply spaces_keep_hy_ws; [lia | exact H].
Qed.

Lemma structure_Forall (P : N -> Prop) s :
  P 32%N -> Forall P s -> Forall P (normalizeStructure s).
Proof.
  intros H32 H. apply trim_Forall. apply replace_all_Forall; [|exact H].
  constructor; [exact H32 | constructor].
Qed.

Lemma structure_id s :
  no_adj ws_ws s -> Forall plain_space s -> starts_solid s -> ends_solid s ->
  normalizeStructure s = s.
Proof.
  intros H1 H2 H3 H4. unfold normalizeStructure, replace_all.
  rewrite spaces_id by assumption. apply trim_id; assumption.
Qed.

(** ** Whole words *)

(** The predicate of [chr_i c]. *)
Definition ci_eq (c x : N) : bool :=
  is_ascii x && (upper_ascii x =? upper_ascii c)%N.

(** The input left after the literal [l], matched without regard to case. *)
Fixpoint strip_i (l : jstr) (s : jstr) : option jstr :=
  match l with
  | [] => Some s
  | c :: l' =>
      match s with
      | x :: s' => if ci_eq c x then strip_i l' s' else None
      | [] => None
      end
  end.

(** [/\bl\b/i] at a position whose previous code unit is a word character or
    not ([pw]): the input left by the match. *)
Definition word_at (l : jstr) (pw : bool) (s : jstr) : option jstr :=
  if xorb pw (next_is_word s)
  then match strip_i l s with
       | Some s' =>
           if xorb (is_word (List.last l 0%N)) (next_is_word s')
           then Some s' else None
       | None => None
       end
  else None.

(** The word [l] stands nowhere in [s] between word boundaries. *)
Fixpoint absent (l : jstr) (pw : bool) (s : jstr) : Prop :=
  word_at l pw s = None
  /\ match s with
     | [] => True
     | c :: t => absent l (is_word c) t
     end.

Ltac code_units :=
  unfold ci_eq, is_ascii, upper_ascii, lower_ascii, is_word, is_space,
    in_range in *;
  repeat match goal with
         | |- context [(?a <=? ?b)%N] => destruct (N.leb_spec a b)
         | |- context [(?a <? ?b)%N] => destruct (N.ltb_spec a b)
         | |- context [(?a =? ?b)%N] => destruct (N.eqb_spec a b)
         | H : context [(?a <=? ?b)%N] |- _ => destruct (N.leb_spec a b)
         | H : context [(?a <? ?b)%N] |- _ => destruct (N.ltb_spec a b)
         | H : context [(?a =? ?b)%N] |- _ => destruct (N.eqb_spec a b)
         end;
  simpl in *; try reflexivity; try discriminate; try lia.

Lemma is_word_upper x : is_word (upper_ascii x) = is_word x.
Proof. code_units. Qed.

Lemma ci_eq_word c x : ci_eq c x = true -> is_word x = is_word c.
Proof.
  unfold ci_eq. intro H. apply andb_true_iff in H. destruct H as [_ H].
  apply N.eqb_eq in H.
  rewrite <- (is_word_upper x), <- (is_word_upper c), H. reflexivity.
Qed.

Lemma rmatch_chr_i c prev s :
  rmatch (chr_i c) prev s
  = match s with
    | x :: t => if ci_eq c x then [(Some x, t)] else []
    | [] => []
    end.
Proof. reflexivity. Qed.

(** What stands in front of the input left by [strip_i]. *)
Lemma strip_i_word l : forall s s',
  l <> [] -> strip_i l s = Some s' ->
  exists u, s = u ++ s' /\ u <> []
            /\ is_word (List.last u 0%N) = is_word (List.last l 0%N)
            /\ List.length u = List.length l.
Proof.
  induction l as [|c l IH]; intros s s' Hne H; [contradiction|].
  simpl in H. destruct s as [|x t]; [discriminate|].
  destruct (ci_eq c x) eqn:E; [|discriminate].
  destruct l as [|c' l'].
  - simpl in H. injection H as <-. exists [x].
    repeat split; [discriminate|]. simpl. apply ci_eq_word. exact E.
  - destruct (IH t s' ltac:(discriminate) H) as [u [Hu [Hn [Hw Hlen]]]].
    exists (x :: u). subst t. repeat split.
    + discriminate.
    + destruct u as [|y u']; [contradiction|]. exact Hw.
    + simpl. f_equal. exact Hlen.
Qed.

Lemma rmatch_literal_i l : forall prev s,
  l <> [] ->
  rmatch (seq_of chr_i l) prev s
  = match strip_i l s with
    | Some s' => [(after prev (firstn (List.length l) s), s')]
    | None => []
    end.
Proof.
  induction l as [|c l IH]; intros prev s Hne; [contradiction|].
  destruct l as [|c' l'].
  - cbn [seq_of strip_i]. rewrite rmatch_chr_i.
    destruct s as [|x t]; [reflexivity|]. destruct (ci_eq c x); reflexivity.
  - change (seq_of chr_i (c :: c' :: l'))
      with (Seq (chr_i c) (seq_of chr_i (c' :: l'))).
    cbn [rmatch]. fold (rmatch (chr_i c) prev s). rewrite rmatch_chr_i.
    destruct s as [|x t]; [reflexivity|].
    change (strip_i (c :: c' :: l') (x :: t))
      with (if ci_eq c x then strip_i (c' :: l') t else None).
    destruct (ci_eq c x); [|reflexivity].
    cbn [flat_map fst snd]. rewrite app_nil_r.
    rewrite IH by discriminate.
    destruct (strip_i (c' :: l') t); reflexivity.
Qed.

Lemma after_last prev u :
  u <> [] -> prev_is_word (after prev u) = is_word (List.last u 0%N).
Proof.
  revert prev. induction u as [|c u IH]; intros prev Hne; [contradiction|].
  destruct u as [|c' u']; [reflexivity|].
  change (after prev (c :: c' :: u')) with (after (Some c) (c' :: u')).
  rewrite IH by discriminate. reflexivity.
Qed.

Lemma firstn_strip (l s s' u : jstr) :
  s = u ++ s' -> List.length u = List.length l ->
  firstn (List.length l) s = u.
Proof.
  intros -> <-. rewrite firstn_app, Nat.sub_diag, firstn_all. simpl.
  apply app_nil_r.
Qed.

(** The match of [/\bl\b/i] at a position. *)
Lemma match_here_word l prev s :
  l <> [] ->
  match_here (Seq WordB (Seq (seq_of chr_i l) WordB)) prev s
  = match word_at l (prev_is_word prev) s with
    | Some s' => Some (after prev (firstn (List.length l) s), s')
    | None => None
    end.
Proof.
  intro Hne. unfold match_here, word_at. cbn [rmatch].
  destruct (xorb (prev_is_word prev) (next_is_word s)); [|reflexivity].
  cbn [flat_map fst snd]. rewrite app_nil_r.
  fold (rmatch (seq_of chr_i l) prev s). rewrite rmatch_literal_i by exact Hne.
  destruct (strip_i l s) as [s'|] eqn:E; [|reflexivity].
  cbn [flat_map fst snd]. rewrite app_nil_r.
  destruct (@strip_i_word l s s' Hne E) as [u [Hu [Hn [Hw Hlen]]]].
  rewrite (@firstn_strip l s s' u Hu Hlen), (@after_last prev u Hn), Hw.
  destruct (xorb (is_word (List.last l 0%N)) (next_is_word s')); reflexivity.
Qed.

(** [/\bl\b/i] for the code units of a key. *)
Definition re_word_of (l : jstr) : regex :=
  Seq WordB (Seq (seq_of chr_i l) WordB).

Lemma re_word_shape w : re_word w = re_word_of (js w).
Proof. reflexivity. Qed.

Lemma no_match_absent l : forall prev s,
  l <> [] ->
  absent l (prev_is_word prev) s ->
  no_match (re_word_of l) prev s.
Proof.
  intros prev s Hne. revert prev.
  induction s as [|c t IH]; intros prev [H1 H2]; cbn [no_match]; split;
    try (unfold re_word_of; rewrite match_here_word by exact Hne;
         rewrite H1; reflexivity).
  - exact I.
  - apply (IH (Some c)). exact H2.
Qed.

(** ** Letters and digits *)

Definition is_alpha (c : N) : bool := in_range 65 90 c || in_range 97 122 c.
Definition is_digit (c : N) : bool := in_range 48 57 c.

(** A key of one of the tables of stage 3, and a numeral. *)
Definition alphabetic (l : jstr) : Prop :=
  l <> [] /\ Forall (fun c => is_alpha c = true) l.
Definition plain (d : jstr) : Prop :=
  d <> [] /\ Forall (fun c => is_alpha c = false) d.

(** Settles the comparisons of the goal that the bounds at hand decide. *)
Ltac settle :=
  repeat match goal with
         | |- context [(?a <=? ?b)%N] =>
             first [ replace (a <=? b)%N with true
                       by (symmetry; apply N.leb_le; lia)
                   | replace (a <=? b)%N with false
                       by (symmetry; apply N.leb_gt; lia) ]
         | |- context [(?a <? ?b)%N] =>
             first [ replace (a <? b)%N with true
                       by (symmetry; apply N.ltb_lt; lia)
                   | replace (a <? b)%N with false
                       by (symmetry; apply N.ltb_ge; lia) ]
         | |- context [(?a =? ?b)%N] =>
             first [ replace (a =? b)%N with true
                       by (symmetry; apply N.eqb_eq; lia)
                   | replace (a =? b)%N with false
                       by (symmetry; apply N.eqb_neq; lia) ]
         end;
  try reflexivity.

Lemma alpha_bounds c :
  is_alpha c = true -> (65 <= c <= 90)%N \/ (97 <= c <= 122)%N.
Proof. unfold is_alpha. code_units. Qed.

Lemma word_bounds c : is_word c = true -> (48 <= c <= 122)%N.
Proof. code_units. Qed.

Lemma alpha_word c : is_alpha c = true -> is_word c = true.
Proof. intro H. apply alpha_bounds in H. unfold is_word, in_range. destruct H; settle. Qed.

Lemma word_not_space c : is_word c = true -> is_space c = false.
Proof. intro H. apply word_bounds in H. unfold is_space, in_range. settle. Qed.

Lemma space_not_alpha c : is_space c = true -> is_alpha c = false.
Proof.
  intro H. destruct (is_alpha c) eqn:E; [|reflexivity].
  apply alpha_word, word_not_space in E. congruence.
Qed.

Lemma digit_not_alpha c : is_digit c = true -> is_alpha c = false.
Proof. unfold is_alpha, is_digit. code_units. Qed.

Lemma ci_eq_alpha c x : is_alpha c = true -> ci_eq c x = true -> is_alpha x = true.
Proof. unfold is_alpha. code_units. Qed.

Lemma ci_eq_lower c x : ci_eq c (lower_ascii x) = ci_eq c x.
Proof. code_units. Qed.

Lemma is_word_lower x : is_word (lower_ascii x) = is_word x.
Proof. code_units. Qed.

Lemma Forall_last (P : N -> Prop) u d : u <> [] -> Forall P u -> P (List.last u d).
Proof.
  intros Hne H. induction H as [|a u Ha Hu IH]; [contradiction|].
  destruct u as [|b u']; [exact Ha|]. apply IH. discriminate.
Qed.

Lemma last_alphabetic l : alphabetic l -> is_word (List.last l 0%N) = true.
Proof.
  intros [Hne H]. apply alpha_word.
  apply (@Forall_last (fun c => is_alpha c = true)); assumption.
Qed.

(** ** Whole words under a replacement *)

Lemma word_at_strip l pw s s' : word_at l pw s = Some s' -> strip_i l s = Some s'.
Proof.
  unfold word_at. destruct (xorb pw (next_is_word s)); [|discriminate].
  destruct (strip_i l s) as [r0|]; [|discriminate].
  destruct (xorb _ _); [|discriminate]. intro H. exact H.
Qed.

(** A key does not begin at a code unit that is not a letter. *)
Lemma word_at_head l pw x t :
  alphabetic l -> is_alpha x = false -> word_at l pw (x :: t) = None.
Proof.
  intros [Hne Hl] Hx. unfold word_at.
  destruct (xorb pw (next_is_word (x :: t))); [|reflexivity].
  destruct Hl as [|a l Ha _]; [contradiction|].
  cbn [strip_i]. destruct (ci_eq a x) eqn:E; [|reflexivity].
  apply (@ci_eq_alpha _ _ Ha) in E. congruence.
Qed.

Lemma word_at_nil l pw : l <> [] -> word_at l pw [] = None.
Proof.
  intro Hne. unfold word_at. destruct (xorb pw (next_is_word [])); [|reflexivity].
  destruct l; [contradiction|reflexivity].
Qed.

(** A key does not begin inside a word. *)
Lemma word_at_inside l s : alphabetic l -> word_at l true s = None.
Proof.
  intros Hl. destruct s as [|x t]; [apply word_at_nil; apply Hl|].
  destruct (is_alpha x) eqn:E; [|apply word_at_head; assumption].
  unfold word_at. cbn [next_is_word]. rewrite (@alpha_word _ E). reflexivity.
Qed.

Lemma absent_app_r l : forall u pw s,
  u <> [] -> absent l pw (u ++ s) -> absent l (is_word (List.last u 0%N)) s.
Proof.
  induction u as [|a u IH]; intros pw s Hne H; [contradiction|].
  destruct H as [_ H]. destruct u as [|b u']; [exact H|].
  apply (IH (is_word a)); [discriminate | exact H].
Qed.

(** Text that holds no letter, in front of text without the key. *)
Lemma absent_plain_app l d : alphabetic l -> plain d ->
  forall pw s,
    absent l (is_word (List.last d 0%N)) s -> absent l pw (d ++ s).
Proof.
  intros Hl [Hne Hd]. induction Hd as [|x d Hx Hd IH]; intros pw s H;
    [contradiction|].
  split; [apply word_at_head; assumption|].
  destruct d as [|y d']; [exact H|].
  apply IH; [discriminate | exact H].
Qed.

Section Tokens.

Variables (r : regex) (rep : jstr).

(** Inside a word the expression has no match, and a word that ends in the
    text ends in the result. *)
Hypothesis inside_copy : forall c x t,
  is_word c = true -> is_word x = true -> match_here r (Some c) (x :: t) = None.
Hypothesis inside_end : forall fuel c t,
  is_word c = true -> next_is_word t = false ->
  next_is_word (replace_loop fuel r rep (Some c) t) = false.

Lemma strip_i_through l :
  Forall (fun c => is_alpha c = true) l ->
  forall fuel c t r0,
    is_word c = true ->
    strip_i l (replace_loop fuel r rep (Some c) t) = Some r0 ->
    next_is_word r0 = false ->
    exists r', strip_i l t = Some r' /\ next_is_word r' = false.
Proof.
  induction 1 as [|a l Ha _ IH]; intros fuel c t r0 Hc Hs Hn.
  - simpl in Hs. injection Hs as <-. exists t. split; [reflexivity|].
    destruct t as [|x t']; [reflexivity|]. simpl.
    destruct (is_word x) eqn:Ex; [|reflexivity].
    destruct fuel as [|fuel]; [simpl in Hn; congruence|].
    simpl in Hn. rewrite (@inside_copy _ _ t' Hc Ex) in Hn. simpl in Hn. congruence.
  - destruct (next_is_word t) eqn:Et.
    + destruct t as [|x t']; [discriminate|]. simpl in Et.
      assert (Hout : exists f', replace_loop fuel r rep (Some c) (x :: t')
                                = x :: replace_loop f' r rep (Some x) t').
      { destruct fuel as [|fuel]; [exists 0%nat; reflexivity|].
        exists fuel. simpl. rewrite (@inside_copy _ _ t' Hc Et). reflexivity. }
      destruct Hout as [f' Hout]. rewrite Hout in Hs. cbn [strip_i] in *.
      destruct (ci_eq a x); [|discriminate].
      apply (IH f' x t' r0 Et Hs Hn).
    + pose proof (@inside_end fuel _ t Hc Et) as Ho.
      destruct (replace_loop fuel r rep (Some c) t) as [|x' out]; [discriminate|].
      cbn [strip_i] in Hs. destruct (ci_eq a x') eqn:E; [|discriminate].
      apply (@ci_eq_alpha _ _ Ha), alpha_word in E. simpl in Ho. congruence.
Qed.

Lemma word_at_through l pw c t fuel :
  alphabetic l ->
  word_at l pw (c :: t) = None ->
  word_at l pw (c :: replace_loop fuel r rep (Some c) t) = None.
Proof.
  intros Hl H. pose proof (@last_alphabetic _ Hl) as Hlast.
  destruct Hl as [Hne Hl]. unfold word_at in *. cbn [next_is_word] in *.
  destruct (xorb pw (is_word c)); [|reflexivity].
  rewrite Hlast in *.
  destruct Hl as [|a l Ha Hl]; [contradiction|]. cbn [strip_i] in *.
  destruct (ci_eq a c) eqn:E; [|reflexivity].
  apply (@ci_eq_alpha _ _ Ha), alpha_word in E.
  destruct (strip_i l (replace_loop fuel r rep (Some c) t)) as [r0|] eqn:Es;
    [|reflexivity].
  destruct (next_is_word r0) eqn:En; [reflexivity|].
  destruct (@strip_i_through _ Hl fuel _ t _ E Es En) as [r' [Hr' Hn']].
  rewrite Hr', Hn' in H. discriminate H.
Qed.

(** A match is replaced by text without letters that ends as the match does:
    in a word character or not. *)
Hypothesis rep_plain : plain rep.
Hypothesis match_shape : forall prev s prev' s',
  match_here r prev s = Some (prev', s') ->
  exists u, s = u ++ s' /\ u <> []
            /\ prev_is_word prev' = is_word (List.last u 0%N)
            /\ is_word (List.last u 0%N) = is_word (List.last rep 0%N).

(** The keys the replacement does not bring into the text: those it looks
    for, and those the text did not hold. *)
Lemma absent_replace l :
  alphabetic l ->
  forall fuel prev s,
    (List.length s < fuel)%nat ->
    (forall p t, match_here r p t = None -> word_at l (prev_is_word p) t = None)
    \/ absent l (prev_is_word prev) s ->
    absent l (prev_is_word prev) (replace_loop fuel r rep prev s).
Proof.
  intros Hl. induction fuel as [|fuel IH]; intros prev s Hlen H; [lia|].
  cbn [replace_loop]. destruct (match_here r prev s) as [[p' s']|] eqn:E.
  - destruct (@match_shape _ _ _ _ E) as [u [Hu [Hne [Hp Hw]]]].
    assert (Hlt : (List.length s' < List.length s)%nat).
    { subst s. rewrite length_app. destruct u; [contradiction|simpl; lia]. }
    apply Nat.ltb_lt in Hlt. rewrite Hlt. apply Nat.ltb_lt in Hlt.
    apply absent_plain_app; [assumption|assumption|].
    rewrite <- Hw, <- Hp. apply IH; [lia|].
    destruct H as [H|H]; [left; exact H|right].
    rewrite Hp. subst s. apply (@absent_app_r _ _ _ _ Hne H).
  - assert (Hhere : word_at l (prev_is_word prev) s = None).
    { destruct H as [H|H]; [apply H; exact E|].
      destruct s; apply H. }
    destruct s as [|c t]; [split; [exact Hhere|exact I]|].
    split; [apply word_at_through; assumption|].
    apply (IH (Some c) t); [simpl in Hlen; lia|].
    destruct H as [H|H]; [left; exact H|right; apply H].
Qed.

End Tokens.

(** ** The tables of stage 3 *)

Definition numeral (d : jstr) : Prop :=
  d <> [] /\ Forall (fun c => is_digit c = true) d.

Lemma digit_word c : is_digit c = true -> is_word c = true.
Proof. unfold is_digit. code_units. Qed.

Lemma numeral_plain d : numeral d -> plain d.
Proof.
  intros [Hne H]. split; [exact Hne|].
  eapply Forall_impl; [|exact H]. apply digit_not_alpha.
Qed.

Lemma last_numeral d : numeral d -> is_word (List.last d 0%N) = true.
Proof.
  intros [Hne H]. apply digit_word.
  apply (@Forall_last (fun c => is_digit c = true)); assumption.
Qed.

Lemma word_inside_copy l c x t :
  alphabetic l -> is_word c = true -> is_word x = true ->
  match_here (re_word_of l) (Some c) (x :: t) = None.
Proof.
  intros Hl Hc Hx. unfold re_word_of. rewrite match_here_word by apply Hl.
  cbn [prev_is_word]. rewrite Hc, word_at_inside by exact Hl. reflexivity.
Qed.

Lemma word_inside_end l d fuel c t :
  alphabetic l -> is_word c = true -> next_is_word t = false ->
  next_is_word (replace_loop fuel (re_word_of l) d (Some c) t) = false.
Proof.
  intros Hl Hc Ht. destruct fuel as [|fuel]; [exact Ht|].
  cbn [replace_loop]. unfold re_word_of. rewrite match_here_word by apply Hl.
  cbn [prev_is_word]. rewrite Hc, word_at_inside by exact Hl.
  destruct t; [reflexivity | exact Ht].
Qed.

Lemma word_match_shape l d :
  alphabetic l -> numeral d ->
  forall prev s prev' s',
    match_here (re_word_of l) prev s = Some (prev', s') ->
    exists u, s = u ++ s' /\ u <> []
              /\ prev_is_word prev' = is_word (List.last u 0%N)
              /\ is_word (List.last u 0%N) = is_word (List.last d 0%N).
Proof.
  intros Hl Hd prev s prev' s' H. unfold re_word_of in H.
  rewrite match_here_word in H by apply Hl.
  destruct (word_at l (prev_is_word prev) s) as [r0|] eqn:E; [|discriminate].
  injection H as <- <-. apply word_at_strip in E.
  destruct (@strip_i_word l s r0 (proj1 Hl) E) as [u [Hu [Hne [Hw Hlen]]]].
  exists u. repeat split; try assumption.
  - rewrite (@firstn_strip l s r0 u Hu Hlen). apply after_last. exact Hne.
  - rewrite Hw, (@last_alphabetic _ Hl), (@last_numeral _ Hd). reflexivity.
Qed.

(** The replacement of the key [l] by a numeral leaves no [l], and brings in
    no other key. *)
Lemma number_absent l d l' s :
  alphabetic l -> numeral d -> alphabetic l' ->
  l' = l \/ absent l' false s ->
  absent l' false (replace_all (re_word_of l) d s).
Proof.
  intros Hl Hd Hl' H. unfold replace_all.
  apply (@absent_replace (re_word_of l) d
           (fun c x t => @word_inside_copy l c x t Hl)
           (fun f c t => @word_inside_end l d f c t Hl)
           (@numeral_plain _ Hd) (@word_match_shape _ _ Hl Hd) l' Hl'
           (S (List.length s)) None s); [lia|].
  destruct H as [->|H]; [left|right; exact H].
  intros p t E. unfold re_word_of in E. rewrite match_here_word in E by apply Hl.
  destruct (word_at l (prev_is_word p) t); [discriminate|reflexivity].
Qed.

Definition keys_absent (table : list (string * string)) (s : jstr) : Prop :=
  Forall (fun e => absent (js (fst e)) false s) table.

Definition number_table (table : list (string * string)) : Prop :=
  Forall (fun e => alphabetic (js (fst e)) /\ numeral (js (snd e))) table.

Lemma replace_words_absent table :
  number_table table ->
  forall done s,
    number_table done -> keys_absent done s ->
    keys_absent (done ++ table) (replace_words table s).
Proof.
  induction 1 as [|e table [He1 He2] Ht IH]; intros done s Hd Hs.
  - rewrite app_nil_r. exact Hs.
  - change (replace_words (e :: table) s)
      with (replace_words table
              (replace_all (re_word (fst e)) (js (snd e)) s)).
    replace (done ++ e :: table) with ((done ++ [e]) ++ table)
      by (rewrite <- app_assoc; reflexivity).
    apply IH.
    + apply Forall_app. split; [exact Hd|]. constructor; [tauto|constructor].
    + apply Forall_app. split.
      * unfold keys_absent, number_table in *. rewrite Forall_forall in *.
        intros e' Hin. rewrite re_word_shape.
        apply number_absent; try assumption; [apply (Hd e' Hin)|].
        right. apply Hs. exact Hin.
      * constructor; [|constructor]. rewrite re_word_shape.
        apply number_absent; try assumption. left. reflexivity.
Qed.

Lemma replace_words_id table s :
  Forall (fun e => js (fst e) <> []) table -> keys_absent table s ->
  replace_words table s = s.
Proof.
  intros Hne. induction Hne as [|e table He _ IH]; intro H; [reflexivity|].
  change (replace_words (e :: table) s)
    with (replace_words table (replace_all (re_word (fst e)) (js (snd e)) s)).
  inversion H as [|? ? H1 H2]; subst.
  rewrite replace_all_no_match.
  - apply IH. exact H2.
  - rewrite re_word_shape. apply no_match_absent; assumption.
Qed.

(** A key with an apostrophe is not in text without one. *)
Lemma ci_eq_apostrophe x : ci_eq 39 x = true -> x = 39%N.
Proof. code_units. Qed.

Lemma strip_i_In l : forall s s' c,
  strip_i l s = Some s' -> In c l -> exists x, In x s /\ ci_eq c x = true.
Proof.
  induction l as [|a l IH]; intros s s' c H Hin; [contradiction|].
  destruct s as [|x t]; [discriminate|]. cbn [strip_i] in H.
  destruct (ci_eq a x) eqn:E; [|discriminate].
  destruct Hin as [->|Hin].
  - exists x. split; [left; reflexivity | exact E].
  - destruct (IH t s' c H Hin) as [y [Hy1 Hy2]].
    exists y. split; [right; exact Hy1 | exact Hy2].
Qed.

Lemma apostrophe_absent l : In 39%N l ->
  forall s pw, ~ In 39%N s -> absent l pw s.
Proof.
  intros Hl. induction s as [|c t IH]; intros pw Hs.
  - split; [|exact I]. apply word_at_nil. intros ->. contradiction.
  - split.
    + destruct (word_at l pw (c :: t)) as [r0|] eqn:E; [|reflexivity].
      apply word_at_strip in E.
      destruct (@strip_i_In l (c :: t) r0 39%N E Hl) as [x [Hx1 Hx2]].
      apply ci_eq_apostrophe in Hx2. subst x. contradiction.
    + apply IH. intro H. apply Hs. right. exact H.
Qed.

(** Lower case *)
Lemma next_is_word_lower s : next_is_word (map lower_ascii s) = next_is_word s.
Proof. destruct s; [reflexivity|]. apply is_word_lower. Qed.

Lemma strip_i_lower l : forall s,
  strip_i l (map lower_ascii s) = option_map (map lower_ascii) (strip_i l s).
Proof.
  induction l as [|a l IH]; intro s; [reflexivity|].
  destruct s as [|x t]; [reflexivity|]. cbn [map strip_i].
  rewrite ci_eq_lower. destruct (ci_eq a x); [apply IH | reflexivity].
Qed.

Lemma word_at_lower l pw s :
  word_at l pw s = None -> word_at l pw (map lower_ascii s) = None.
Proof.
  unfold word_at. rewrite next_is_word_lower, strip_i_lower.
  destruct (xorb pw (next_is_word s)); [|reflexivity].
  destruct (strip_i l s) as [r0|]; [|reflexivity]. cbn [option_map].
  rewrite next_is_word_lower. destruct (xorb _ _); [discriminate|reflexivity].
Qed.

Lemma absent_lower l : forall s pw,
  absent l pw s -> absent l pw (map lower_ascii s).
Proof.
  induction s as [|c t IH]; intros pw [H1 H2].
  - split; [exact H1 | exact I].
  - split; [apply (@word_at_lower l pw (c :: t) H1)|].
    cbn [map]. rewrite is_word_lower. apply IH. exact H2.
Qed.

(** White space *)
Lemma space_not_word c : is_space c = true -> is_word c = false.
Proof.
  intro H. destruct (is_word c) eqn:E; [|reflexivity].
  apply word_not_space in E. congruence.
Qed.

Lemma spaces_inside_copy c x t :
  is_word c = true -> is_word x = true ->
  match_here (Plus space) (Some c) (x :: t) = None.
Proof.
  intros _ Hx. rewrite match_here_spaces. rewrite (@word_not_space x Hx).
  reflexivity.
Qed.

Lemma spaces_inside_end fuel c t :
  is_word c = true -> next_is_word t = false ->
  next_is_word (replace_loop fuel (Plus space) (js " ") (Some c) t) = false.
Proof.
  intros _ Ht. destruct fuel as [|fuel]; [exact Ht|].
  cbn [replace_loop]. rewrite match_here_spaces.
  destruct t as [|x t']; [reflexivity|].
  destruct (is_space x).
  - destruct (run_end is_space (Some x) t') as [p' s'].
    destruct (List.length s' <? List.length (x :: t'))%nat; reflexivity.
  - exact Ht.
Qed.

Lemma spaces_match_shape prev s prev' s' :
  match_here (Plus space) prev s = Some (prev', s') ->
  exists u, s = u ++ s' /\ u <> []
            /\ prev_is_word prev' = is_word (List.last u 0%N)
            /\ is_word (List.last u 0%N) = is_word (List.last (js " ") 0%N).
Proof.
  rewrite match_here_spaces. destruct s as [|c t]; [discriminate|].
  destruct (is_space c) eqn:Ec; [|discriminate]. intro H.
  destruct (run_end_consumes is_space (Some c) t) as [u [Hu [Hall Hfst]]].
  destruct (run_end is_space (Some c) t) as [p0 s0]. cbn [fst snd] in *.
  injection H as <- <-.
  exists (c :: u). repeat split.
  - cbn [app]. f_equal. exact Hu.
  - discriminate.
  - rewrite Hfst. change (after (Some c) u) with (after prev (c :: u)).
    apply after_last. discriminate.
  - apply space_not_word.
    apply (@Forall_last (fun x => is_space x = true));
      [discriminate | constructor; assumption].
Qed.

Lemma spaces_absent l s :
  alphabetic l -> absent l false s ->
  absent l false (replace_all (Plus space) (js " ") s).
Proof.
  intros Hl H. unfold replace_all.
  apply (@absent_replace (Plus space) (js " ")
           spaces_inside_copy spaces_inside_end) with (prev := None);
    try assumption.
  - split; [discriminate|]. constructor; [reflexivity|constructor].
  - apply spaces_match_shape.
  - lia.
  - right. exact H.
Qed.

(** Trimming *)
Lemma strip_i_app l b : forall s r0,
  strip_i l s = Some r0 -> strip_i l (s ++ b) = Some (r0 ++ b).
Proof.
  induction l as [|a l IH]; intros s r0 H.
  - simpl in H. injection H as <-. reflexivity.
  - destruct s as [|x t]; [discriminate|]. cbn [strip_i app] in *.
    destruct (ci_eq a x); [apply IH; exact H | discriminate].
Qed.

Lemma next_is_word_app r0 b :
  Forall (fun c => is_space c = true) b ->
  next_is_word (r0 ++ b) = next_is_word r0.
Proof.
  intro Hb. destruct r0 as [|x t]; [|reflexivity].
  destruct Hb as [|c b Hc _]; [reflexivity|]. apply space_not_word. exact Hc.
Qed.

Lemma absent_app_l l b :
  l <> [] -> Forall (fun c => is_space c = true) b ->
  forall s pw, absent l pw (s ++ b) -> absent l pw s.
Proof.
  intros Hl Hb. induction s as [|x t IH]; intros pw H.
  - split; [apply word_at_nil; exact Hl | exact I].
  - destruct H as [H1 H2]. split; [|apply IH; exact H2].
    destruct (word_at l pw (x :: t)) as [r0|] eqn:E; [|reflexivity].
    exfalso. unfold word_at in *. cbn [app next_is_word] in *.
    destruct (xorb pw (is_word x)); [|discriminate].
    destruct (strip_i l (x :: t)) as [r1|] eqn:Es; [|discriminate].
    change (x :: t ++ b) with ((x :: t) ++ b) in H1.
    rewrite (@strip_i_app l b (x :: t) r1 Es) in H1.
    rewrite (next_is_word_app r1 Hb) in H1.
    destruct (xorb _ _); discriminate.
Qed.

Lemma trim_absent l s :
  alphabetic l -> absent l false s -> absent l false (trim s).
Proof.
  intros Hl H. destruct (trim_split s) as [a [b [Hs [Ha Hb]]]].
  rewrite Hs in H. apply (@absent_app_l l b (proj1 Hl) Hb).
  destruct a as [|c a']; [exact H|].
  replace false with (is_word (List.last (c :: a') 0%N)).
  - apply (@absent_app_r l (c :: a') false); [discriminate | exact H].
  - apply space_not_word.
    apply (@Forall_last (fun x => is_space x = true));
      [discriminate | exact Ha].
Qed.

Lemma structure_absent l s :
  alphabetic l -> absent l false s -> absent l false (normalizeStructure s).
Proof.
  intros Hl H. unfold normalizeStructure. apply trim_absent; [exact Hl|].
  apply spaces_absent; assumption.
Qed.

(** ** Stage 1 on text of 7-bit code units *)

Lemma ascii_bound c : is_ascii c = true -> (c < 128)%N.
Proof. unfold is_ascii. apply N.ltb_lt. Qed.

Lemma characters_id B s :
  ascii_faithful B -> ascii_text s -> normalizeCharacters B s = s.
Proof.
  intros [Hn _] Hs. unfold normalizeCharacters, replace_class.
  rewrite (Hn s Hs).
  repeat (rewrite (@replace_all_Chr_none _ _ s);
          [|eapply Forall_impl; [|exact Hs]; intros c Hc;
            apply ascii_bound in Hc;
            unfold mem_class, existsb, in_range; settle]).
  reflexivity.
Qed.

(** ** Stage 2 on text it has cleaned *)

(** The code units that stage 2 replaces or removes everywhere. *)
Definition removed (options : Options) (c : N) : bool :=
  mem_class [46; 44; 59; 58]%N c
  || (negb (preserveQuestionMarks options) && mem_class [63; 33]%N c)
  || mem_class [34; 39; 96]%N c
  || mem_class [40; 41; 123; 125; 91; 93]%N c
  || mem_class [60; 62; 124; 92; 47; 126; 94; 42; 43; 61; 95]%N c.

Definition clean (options : Options) (s : jstr) : Prop :=
  Forall (fun c => removed options c = false) s.

Lemma edges_no_match : forall s prev,
  (s <> [] -> is_word (List.last s 0%N) = true) ->
  (prev = None -> s <> [] -> next_is_word s = true) ->
  no_match re_edges prev s.
Proof.
  assert (Hplus : forall prev s,
             (prev = None -> s <> [] -> next_is_word s = true) ->
             match_here (Seq Bol (Plus (Chr not_word_space))) prev s = None).
  { intros prev s H. rewrite match_here_Bol_Seq.
    destruct prev; [reflexivity|]. rewrite match_here_Plus_Chr.
    destruct s as [|c t]; [reflexivity|].
    specialize (H eq_refl ltac:(discriminate)). simpl in H.
    unfold not_word_space. rewrite H. reflexivity. }
  induction s as [|c t IH]; intros prev Hlast Hfirst.
  - split; [|exact I]. unfold re_edges.
    rewrite match_here_Alt, Hplus by exact Hfirst.
    rewrite match_here_Plus_Chr_Eol. reflexivity.
  - split.
    + unfold re_edges. rewrite match_here_Alt, Hplus by exact Hfirst.
      rewrite match_here_Plus_Chr_Eol.
      destruct (not_word_space c) eqn:Ec; [|reflexivity].
      destruct (run_end_consumes not_word_space (Some c) t) as [u [Hu [Hall _]]].
      destruct (snd (run_end not_word_space (Some c) t)) as [|x rest];
        [|reflexivity].
      exfalso. rewrite app_nil_r in Hu. subst u.
      specialize (Hlast ltac:(discriminate)).
      assert (Hn : not_word_space (List.last (c :: t) 0%N) = true).
      { apply (@Forall_last (fun x => not_word_space x = true));
          [discriminate | constructor; assumption]. }
      unfold not_word_space in Hn. rewrite Hlast in Hn. discriminate Hn.
    + apply IH; [|discriminate].
      intro Hne. destruct t as [|x t']; [contradiction|].
      apply Hlast. discriminate.
Qed.

Lemma edges_id s : word_edges s -> replace_all re_edges [] s = s.
Proof.
  intro H. apply replace_all_no_match. apply edges_no_match.
  - intro Hne. destruct s; [contradiction|]. apply H.
  - intros _ Hne. destruct s; [contradiction|]. apply H.
Qed.

Lemma between_id s :
  no_adj ws_hy s -> replace_all re_hyphen_between (js " ") s = s.
Proof.
  intro H. apply replace_all_no_match.
  apply (@no_match_intro re_hyphen_between (no_adj ws_hy));
    [apply no_adj_tail | | exact H].
  clear. intros prev s H. unfold re_hyphen_between, seqs, space.
  rewrite match_here_Chr_Seq.
  destruct s as [|w t]; [reflexivity|].
  destruct (is_space w) eqn:Ew; [|reflexivity].
  change (Seq (Plus hyphen) (Chr is_space)) with re_hyphen_trailing.
  rewrite match_here_trailing.
  destruct t as [|h t']; [reflexivity|].
  destruct H as [H _]. unfold ws_hy in H. rewrite Ew in H. simpl in H.
  rewrite H. reflexivity.
Qed.

Lemma leading_id s :
  no_adj ws_hy s -> replace_all re_hyphen_leading (js " ") s = s.
Proof.
  intro H. apply replace_all_no_match.
  apply (@no_match_intro re_hyphen_leading (no_adj ws_hy));
    [apply no_adj_tail | | exact H].
  clear. intros prev s H. unfold re_hyphen_leading, seqs, space, hyphen, chr.
  rewrite match_here_Chr_Plus.
  destruct s as [|w [|h t]]; try reflexivity.
  destruct H as [H _]. unfold ws_hy, is_hyphen in H. rewrite H. reflexivity.
Qed.

Lemma trailing_id s :
  no_adj hy_ws s -> replace_all re_hyphen_trailing (js " ") s = s.
Proof.
  intro H. apply replace_all_no_match.
  apply (@no_match_intro re_hyphen_trailing (no_adj hy_ws));
    [apply no_adj_tail | | exact H].
  clear. intros prev s H. rewrite match_here_trailing.
  destruct s as [|c t]; [reflexivity|].
  destruct (is_hyphen c) eqn:Ec; [|reflexivity].
  destruct (run_end_consumes is_hyphen (Some c) t) as [u [Hu [Hall _]]].
  destruct (snd (run_end is_hyphen (Some c) t)) as [|w rest]; [reflexivity|].
  destruct (is_space w) eqn:Ew; [|reflexivity]. exfalso.
  destruct (@run_last is_hyphen c u) as [u' [a [Hsplit Ha]]];
    [constructor; assumption|].
  assert (Hpair : hy_ws a w = false).
  { apply (@no_adj_pair hy_ws u' a w rest).
    replace (u' ++ a :: w :: rest) with ((u' ++ [a]) ++ w :: rest)
      by (rewrite <- app_assoc; reflexivity).
    rewrite <- Hsplit. cbn [app]. rewrite <- Hu. exact H. }
  unfold hy_ws in Hpair. rewrite Ha, Ew in Hpair. discriminate Hpair.
Qed.

Lemma clean_class (options : Options) (p : N -> bool) s :
  (forall c, removed options c = false -> p c = false) ->
  clean options s -> Forall (fun c => p c = false) s.
Proof. intros Hp H. eapply Forall_impl; [|exact H]. exact Hp. Qed.

Ltac removed_class :=
  let c := fresh "c" in
  let H := fresh "H" in
  intros c H; unfold removed in H; cbn [negb andb] in H;
  repeat match type of H with
         | (_ || _)%bool = false =>
             let H' := fresh "H" in
             apply orb_false_elim in H; destruct H as [H H']
         end;
  assumption.

Lemma punctuation_id s options :
  word_edges s -> clean options s -> no_adj ws_hy s -> no_adj hy_ws s ->
  normalizePunctuation s options = s.
Proof.
  intros He Hc H1 H2. unfold normalizePunctuation, replace_class.
  rewrite (@edges_id s He).
  rewrite (@replace_all_Chr_none _ _ s)
    by (apply (@clean_class options); [removed_class | exact Hc]).
  assert (Hq : (if negb (preserveQuestionMarks options)
                then replace_all (Chr (mem_class [63; 33]%N)) (js " ") s
                else s) = s).
  { destruct (preserveQuestionMarks options) eqn:Eq; [reflexivity|].
    cbn [negb]. apply replace_all_Chr_none.
    apply (@clean_class options); [|exact Hc].
    intros c H. unfold removed in H. rewrite Eq in H. cbn [negb andb] in H.
    repeat match type of H with
           | (_ || _)%bool = false =>
               let H' := fresh "H" in
               apply orb_false_elim in H; destruct H as [H H']
           end.
    assumption. }
  rewrite Hq.
  do 3 (rewrite (@replace_all_Chr_none _ _ s)
          by (apply (@clean_class options); [removed_class | exact Hc])).
  rewrite (@between_id s H1), (@leading_id s H1), (@trailing_id s H2). reflexivity.
Qed.

(** ** What stage 2 leaves *)

Lemma Forall_orb (p q : N -> bool) s :
  Forall (fun c => p c = false) s -> Forall (fun c => q c = false) s ->
  Forall (fun c => (p c || q c)%bool = false) s.
Proof.
  intros Hp Hq. rewrite Forall_forall in *. intros c Hin.
  rewrite (Hp c Hin), (Hq c Hin). reflexivity.
Qed.

(** A class once replaced stays out of the text, as the later replacements
    bring in nothing but spaces. *)
Ltac class_gone :=
  unfold replace_class;
  repeat first
    [ apply replace_all_Chr_clean; repeat constructor
    | apply replace_all_Forall; [repeat constructor|] ].

Lemma punctuation_Forall (P : N -> Prop) s options :
  P 32%N -> Forall P s -> Forall P (normalizePunctuation s options).
Proof.
  intros H32 H. unfold normalizePunctuation, replace_class.
  destruct (negb (preserveQuestionMarks options));
    repeat (apply replace_all_Forall;
            [first [ constructor; [exact H32 | constructor] | constructor ]|]);
    exact H.
Qed.

Lemma punctuation_clean s options : clean options (normalizePunctuation s options).
Proof.
  unfold clean, removed, normalizePunctuation.
  destruct (preserveQuestionMarks options); cbn [negb andb];
    (apply Forall_orb;
       [apply Forall_orb; [apply Forall_orb; [apply Forall_orb|]|]|]);
    class_gone.
  apply Forall_forall. intros; reflexivity.
Qed.

Lemma punctuation_post s options :
  no_adj ws_hy (normalizePunctuation s options)
  /\ no_adj hy_ws (normalizePunctuation s options).
Proof.
  unfold normalizePunctuation, replace_all. split.
  - apply trailing_keeps; [lia|]. apply leading_post. lia.
  - apply trailing_post. lia.
Qed.

(** ** What stage 3 keeps *)

(** A code unit that [R] relates to nothing. *)
Definition neutral (R : N -> N -> bool) (n : N) : Prop :=
  forall a, R a n = false /\ R n a = false.

Lemma no_adj_neutral_app R d s :
  Forall (neutral R) d -> no_adj R s -> no_adj R (d ++ s).
Proof.
  intros Hd Hs. induction Hd as [|n d Hn _ IH]; [exact Hs|].
  cbn [app]. apply no_adj_cons; [|exact IH].
  intros b _. apply Hn.
Qed.

Lemma replace_loop_neutral R r rep :
  rep <> [] -> Forall (neutral R) rep ->
  forall fuel prev s, no_adj R s -> no_adj R (replace_loop fuel r rep prev s).
Proof.
  intros Hne Hrep. induction fuel as [|fuel IH]; intros prev s Hs; [exact Hs|].
  assert (Hcopy : forall c t, no_adj R (c :: t) ->
                              no_adj R (c :: replace_loop fuel r rep (Some c) t)).
  { intros c t Hct. apply no_adj_cons.
    - intros b Hb. destruct fuel as [|fuel'].
      + destruct t as [|x t']; [discriminate|]. injection Hb as ->. apply Hct.
      + apply replace_loop_head in Hb; [|exact Hne].
        destruct Hb as [[_ Hb]|[_ Hb]].
        * destruct Hrep as [|n d Hn _]; [discriminate|].
          injection Hb as ->. apply Hn.
        * destruct t as [|x t']; [discriminate|]. injection Hb as ->. apply Hct.
    - apply IH. apply (@no_adj_tail R c t Hct). }
  cbn [replace_loop]. destruct (match_here r prev s) as [[p' s']|] eqn:E.
  - destruct (List.length s' <? List.length s)%nat.
    + apply no_adj_neutral_app; [exact Hrep|]. apply IH.
      destruct (@match_here_consumes r prev s p' s' E) as [u [Hu _]].
      subst s. apply (@no_adj_app_r R u s' Hs).
    + destruct s as [|c t].
      * rewrite <- (app_nil_r rep). apply no_adj_neutral_app; [exact Hrep|exact I].
      * apply no_adj_neutral_app; [exact Hrep|]. apply Hcopy. exact Hs.
  - destruct s as [|c t]; [exact I|]. apply Hcopy. exact Hs.
Qed.

Lemma replace_words_keeps (Q : jstr -> Prop) table :
  (forall e t, In e table ->
     Q t -> Q (replace_all (re_word (fst e)) (js (snd e)) t)) ->
  forall s, Q s -> Q (replace_words table s).
Proof.
  induction table as [|e table IH]; intros Hstep s Hs; [exact Hs|].
  change (replace_words (e :: table) s)
    with (replace_words table (replace_all (re_word (fst e)) (js (snd e)) s)).
  apply IH.
  - intros e' t Hin. apply Hstep. right. exact Hin.
  - apply Hstep; [left; reflexivity | exact Hs].
Qed.

Lemma digit_bounds c : is_digit c = true -> (48 <= c <= 57)%N.
Proof. unfold is_digit. code_units. Qed.

Lemma digit_neutral_ws_hy c : is_digit c = true -> neutral ws_hy c.
Proof.
  intros H a. apply digit_bounds in H. unfold ws_hy, is_hyphen.
  replace (c =? 45)%N with false by (symmetry; apply N.eqb_neq; lia).
  replace (is_space c) with false
    by (symmetry; unfold is_space, in_range; settle).
  split; [apply andb_false_r | reflexivity].
Qed.

Lemma digit_neutral_hy_ws c : is_digit c = true -> neutral hy_ws c.
Proof.
  intros H a. apply digit_bounds in H. unfold hy_ws, is_hyphen.
  replace (c =? 45)%N with false by (symmetry; apply N.eqb_neq; lia).
  replace (is_space c) with false
    by (symmetry; unfold is_space, in_range; settle).
  split; [apply andb_false_r | reflexivity].
Qed.

Lemma digit_ascii c : is_digit c = true -> is_ascii c = true.
Proof. intro H. apply digit_bounds in H. unfold is_ascii. settle. Qed.

Lemma digit_kept options c : is_digit c = true -> removed options c = false.
Proof.
  intro H. apply digit_bounds in H. unfold removed, mem_class, existsb.
  settle. destruct (negb (preserveQuestionMarks options)); reflexivity.
Qed.

(** The tables of the source. *)
Lemma contractions_keys :
  Forall (fun e => In 39%N (js (fst e)) /\ js (fst e) <> []) contractions.
Proof.
  apply Forall_forall. intros e He.
  assert (H : forallb (fun e => existsb (N.eqb 39) (js (fst e))) contractions
              = true) by (vm_compute; reflexivity).
  rewrite forallb_forall in H. specialize (H e He).
  apply existsb_exists in H. destruct H as [x [Hx1 Hx2]].
  apply N.eqb_eq in Hx2. subst x. split; [exact Hx1|].
  intro Heq. rewrite Heq in Hx1. contradiction.
Qed.

Lemma forallb_Forall (p : N -> bool) l :
  forallb p l = true -> Forall (fun c => p c = true) l.
Proof. intro H. apply Forall_forall. apply forallb_forall. exact H. Qed.

Lemma numberWords_table : number_table numberWords.
Proof.
  apply Forall_forall. intros e He.
  assert (H : forallb (fun e => negb (Nat.eqb (List.length (js (fst e))) 0)
                                && forallb is_alpha (js (fst e))
                                && (negb (Nat.eqb (List.length (js (snd e))) 0)
                                    && forallb is_digit (js (snd e))))
                      numberWords = true) by (vm_compute; reflexivity).
  rewrite forallb_forall in H. specialize (H e He).
  apply andb_true_iff in H. destruct H as [H1 H2].
  apply andb_true_iff in H1, H2. destruct H1 as [H1 H1'], H2 as [H2 H2'].
  split; (split; [|apply forallb_Forall; assumption]).
  - intro Heq. rewrite Heq in H1. discriminate H1.
  - intro Heq. rewrite Heq in H2. discriminate H2.
Qed.

Lemma clean_no_apostrophe options s : clean options s -> ~ In 39%N s.
Proof.
  intros H Hin. unfold clean in H. rewrite Forall_forall in H.
  specialize (H _ Hin). unfold removed in H.
  destruct (negb (preserveQuestionMarks options)); discriminate H.
Qed.

Lemma contractions_id options s :
  clean options s -> replace_words contractions s = s.
Proof.
  intro H. apply clean_no_apostrophe in H. apply replace_words_id.
  - eapply Forall_impl; [|exact contractions_keys]. intros e He. apply He.
  - eapply Forall_impl; [|exact contractions_keys]. intros e [He _].
    apply apostrophe_absent; assumption.
Qed.

Lemma upper_bounds c : in_range 65 90 c = true -> (65 <= c <= 90)%N.
Proof.
  unfold in_range. intro H. apply andb_true_iff in H. destruct H as [H1 H2].
  apply N.leb_le in H1, H2. lia.
Qed.

Lemma lower_ascii_ascii c : is_ascii c = true -> is_ascii (lower_ascii c) = true.
Proof.
  unfold lower_ascii. destruct (in_range 65 90 c) eqn:E; [|auto].
  intros _. apply upper_bounds in E. unfold is_ascii. settle.
Qed.

Lemma lower_kept options c :
  removed options c = false -> removed options (lower_ascii c) = false.
Proof.
  unfold lower_ascii. destruct (in_range 65 90 c) eqn:E; [|auto].
  intros _. apply upper_bounds in E. unfold removed, mem_class, existsb.
  settle. destruct (negb (preserveQuestionMarks options)); reflexivity.
Qed.

Lemma lower_space c : is_space (lower_ascii c) = is_space c.
Proof.
  unfold lower_ascii. destruct (in_range 65 90 c) eqn:E; [|reflexivity].
  apply upper_bounds in E. unfold is_space, in_range. settle.
Qed.

Lemma lower_hyphen c : is_hyphen (lower_ascii c) = is_hyphen c.
Proof.
  unfold lower_ascii. destruct (in_range 65 90 c) eqn:E; [|reflexivity].
  apply upper_bounds in E. unfold is_hyphen. settle.
Qed.

Lemma lower_lower c : lower_ascii (lower_ascii c) = lower_ascii c.
Proof.
  unfold lower_ascii at 2 3. destruct (in_range 65 90 c) eqn:E.
  - apply upper_bounds in E. unfold lower_ascii, in_range. settle.
  - unfold lower_ascii. rewrite E. reflexivity.
Qed.

Lemma Forall_map_lower (P : N -> Prop) s :
  (forall c, P c -> P (lower_ascii c)) -> Forall P s ->
  Forall P (map lower_ascii s).
Proof.
  intros HP H. induction H as [|c t Hc _ IH]; constructor; auto.
Qed.

Lemma map_lower_fixed s :
  Forall (fun c => lower_ascii c = c) s -> map lower_ascii s = s.
Proof.
  intro H. induction H as [|c t Hc _ IH]; [reflexivity|].
  cbn [map]. rewrite Hc, IH. reflexivity.
Qed.

(** The shape stage 2 gives the text and the later stages keep, and what
    stage 3 settles. *)
Definition shaped (options : Options) (s : jstr) : Prop :=
  ascii_text s /\ clean options s /\ no_adj ws_hy s /\ no_adj hy_ws s.

Definition settled (options : Options) (s : jstr) : Prop :=
  (lowercase options = true -> Forall (fun c => lower_ascii c = c) s)
  /\ (normalizeNumbers options = true -> keys_absent numberWords s).

Lemma punctuation_shaped s options :
  ascii_text s -> shaped options (normalizePunctuation s options).
Proof.
  intro H. split; [|split; [|apply punctuation_post]].
  - apply punctuation_Forall; [reflexivity | exact H].
  - apply punctuation_clean.
Qed.

Lemma numbers_shaped s options :
  shaped options s ->
  shaped options (replace_words numberWords s)
  /\ keys_absent numberWords (replace_words numberWords s).
Proof.
  pose proof numberWords_table as Ht. unfold number_table in Ht.
  rewrite Forall_forall in Ht.
  intros [H1 [H2 [H3 H4]]]. split; [split; [|split; [|split]]|].
  - apply replace_words_keeps; [|exact H1]. intros e t He Hq.
    apply replace_all_Forall; [|exact Hq].
    eapply Forall_impl; [|apply (Ht e He)]. apply digit_ascii.
  - apply replace_words_keeps; [|exact H2]. intros e t He Hq.
    apply replace_all_Forall; [|exact Hq].
    eapply Forall_impl; [|apply (Ht e He)]. apply digit_kept.
  - apply replace_words_keeps; [|exact H3]. intros e t He Hq.
    apply replace_loop_neutral; [apply (Ht e He) | | exact Hq].
    eapply Forall_impl; [|apply (Ht e He)]. apply digit_neutral_ws_hy.
  - apply replace_words_keeps; [|exact H4]. intros e t He Hq.
    apply replace_loop_neutral; [apply (Ht e He) | | exact Hq].
    eapply Forall_impl; [|apply (Ht e He)]. apply digit_neutral_hy_ws.
  - apply (@replace_words_absent numberWords numberWords_table [] s);
      constructor.
Qed.

Lemma lower_shaped s options :
  shaped options s -> shaped options (map lower_ascii s).
Proof.
  intros [H1 [H2 [H3 H4]]]. split; [|split; [|split]].
  - apply Forall_map_lower; [apply lower_ascii_ascii | exact H1].
  - apply Forall_map_lower; [apply lower_kept | exact H2].
  - apply no_adj_map; [|exact H3]. intros a b. unfold ws_hy.
    rewrite lower_space, lower_hyphen. reflexivity.
  - apply no_adj_map; [|exact H4]. intros a b. unfold hy_ws.
    rewrite lower_space, lower_hyphen. reflexivity.
Qed.

Lemma transform_post B s options :
  ascii_faithful B -> shaped options s ->
  shaped options (transformText B s options)
  /\ settled options (transformText B s options).
Proof.
  intros [_ Hlow] Hs. unfold transformText.
  assert (Hc : (if expandContractions options
                then replace_words contractions s else s) = s).
  { destruct (expandContractions options); [|reflexivity].
    apply (@contractions_id options). apply Hs. }
  rewrite Hc. clear Hc.
  set (s2 := if normalizeNumbers options
             then replace_words numberWords s else s).
  assert (H2 : shaped options s2
               /\ (normalizeNumbers options = true ->
                   keys_absent numberWords s2)).
  { unfold s2. destruct (normalizeNumbers options).
    - destruct (@numbers_shaped s options Hs) as [Ha Hb]. split; auto.
    - split; [exact Hs | discriminate]. }
  clearbody s2. destruct H2 as [H2 H2'].
  destruct (lowercase options) eqn:El.
  - rewrite (Hlow s2) by apply H2. split; [apply lower_shaped; exact H2|].
    split.
    + intros _. apply Forall_forall. intros c Hin.
      apply in_map_iff in Hin. destruct Hin as [x [<- _]]. apply lower_lower.
    + intro Hn. eapply Forall_impl; [|apply (H2' Hn)].
      intros e He. apply absent_lower. exact He.
  - split; [exact H2|]. split; [|exact H2'].
    intro Hx. rewrite El in Hx. discriminate Hx.
Qed.

Lemma structure_shaped s options :
  shaped options s -> settled options s ->
  shaped options (normalizeStructure s)
  /\ settled options (normalizeStructure s).
Proof.
  intros [H1 [H2 [H3 H4]]] [H5 H6].
  split; [split; [|split; [|split]]|split].
  - apply structure_Forall; [reflexivity | exact H1].
  - apply structure_Forall; [|exact H2].
    unfold removed. destruct (negb (preserveQuestionMarks options)); reflexivity.
  - apply structure_keeps_ws_hy. exact H3.
  - apply structure_keeps_hy_ws. exact H4.
  - intro Hl. apply structure_Forall; [reflexivity | apply H5; exact Hl].
  - intro Hn. specialize (H6 Hn). unfold keys_absent in *.
    pose proof numberWords_table as Ht. unfold number_table in Ht.
    rewrite Forall_forall in *. intros e He.
    apply structure_absent; [apply (Ht e He) | apply (H6 e He)].
Qed.

Lemma transform_id B s options :
  ascii_faithful B -> shaped options s -> settled options s ->
  transformText B s options = s.
Proof.
  intros [_ Hlow] Hs [H5 H6]. unfold transformText.
  assert (Hc : (if expandContractions options
                then replace_words contractions s else s) = s).
  { destruct (expandContractions options); [|reflexivity].
    apply (@contractions_id options). apply Hs. }
  rewrite Hc. clear Hc.
  assert (Hn : (if normalizeNumbers options
                then replace_words numberWords s else s) = s).
  { destruct (normalizeNumbers options); [|reflexivity].
    apply replace_words_id; [|apply H6; reflexivity].
    eapply Forall_impl; [|exact numberWords_table].
    intros e [[He _] _]. exact He. }
  rewrite Hn. clear Hn.
  destruct (lowercase options); [|reflexivity].
  rewrite (Hlow s) by apply Hs. apply map_lower_fixed. apply H5. reflexivity.
Qed.

(** Text in the shape the four stages give, that begins and ends with a word
    character, is a fixed point of the pipeline. *)
Lemma normalize_fixed B s options :
  ascii_faithful B ->
  shaped options s -> settled options s ->
  no_adj ws_ws s -> Forall plain_space s -> starts_solid s -> ends_solid s ->
  word_edges s ->
  normalize B s options = s.
Proof.
  intros HB Hs Ht H1 H2 H3 H4 He.
  destruct s as [|c t]; [reflexivity|]. unfold normalize.
  rewrite (@characters_id B (c :: t) HB (proj1 Hs)).
  rewrite (@punctuation_id (c :: t) options He (proj1 (proj2 Hs))
             (proj1 (proj2 (proj2 Hs))) (proj2 (proj2 (proj2 Hs)))).
  rewrite (@transform_id B (c :: t) options HB Hs Ht).
  apply structure_id; assumption.
Qed.

Lemma normalize_shape B x options :
  ascii_faithful B -> ascii_text x ->
  let y := normalize B x options in
  shaped options y /\ settled options y
  /\ no_adj ws_ws y /\ Forall plain_space y /\ starts_solid y /\ ends_solid y.
Proof.
  intros HB Hx. destruct x as [|c t].
  - cbn. split; [split; [|split; [|split]]; constructor|].
    split; [split|split; [|split; [|split]]; constructor].
    + intros _. constructor.
    + intros _. unfold keys_absent. apply Forall_forall. intros e He.
      split; [|exact I]. apply word_at_nil.
      pose proof numberWords_table as Ht. unfold number_table in Ht.
      rewrite Forall_forall in Ht. apply (Ht e He).
  - cbv zeta. unfold normalize.
    rewrite (@characters_id B (c :: t) HB Hx).
    pose proof (@punctuation_shaped (c :: t) options Hx) as H2.
    destruct (@transform_post B _ options HB H2) as [H3 H3'].
    destruct (@structure_shaped _ options H3 H3') as [H4 H4'].
    split; [exact H4|]. split; [exact H4'|]. apply structure_post.
Qed.

(** ** White space of normalized text *)

(** X2. Stage 4 is idempotent, on every text. *)
Theorem normalizeStructure_idempotent s :
  normalizeStructure (normalizeStructure s) = normalizeStructure s.
Proof.
  destruct (structure_post s) as [H1 [H2 [H3 H4]]].
  apply structure_id; assumption.
Qed.

(** X3. Whatever the text, the built-ins and the options: the normalized text
    holds no white space but single spaces, and none at either end. *)
Theorem normalize_whitespace B x options :
  no_adj ws_ws (normalize B x options)
  /\ Forall plain_space (normalize B x options)
  /\ starts_solid (normalize B x options)
  /\ ends_solid (normalize B x options).
Proof.
  destruct x as [|c t]; [|apply structure_post].
  cbn. repeat split; constructor.
Qed.

(** ** Idempotence *)

(** C4 (amended). For text of 7-bit code units and any one option set: when
    the normalized text is empty or begins and ends with a word character
    (a letter or a digit, as stage 2 leaves no underscore), normalizing it
    again gives the same text. *)
Theorem normalize_idempotent_on_word_edges B x options :
  ascii_faithful B -> ascii_text x ->
  word_edges (normalize B x options) ->
  normalize B (normalize B x options) options = normalize B x options.
Proof.
  intros HB Hx He.
  destruct (@normalize_shape B x options HB Hx) as [H1 [H2 [H3 [H4 [H5 H6]]]]].
  apply normalize_fixed; assumption.
Qed.

Lemma normalize_idempotent_on_word_edges_witness :
  normalize ascii_builtins
    (normalize ascii_builtins (js "Is it - one, or Twenty-two?")
       (mkOptions true true true false))
    (mkOptions true true true false)
  = normalize ascii_builtins (js "Is it - one, or Twenty-two?")
      (mkOptions true true true false).
Proof.
  apply normalize_idempotent_on_word_edges.
  - exact ascii_builtins_faithful.
  - repeat constructor.
  - vm_compute. split; reflexivity.
Defined.

(** ** The options *)

(** X10. The option [expandContractions] changes nothing, whatever the text and
    the built-ins: stage 2 has removed every apostrophe before stage 3 looks
    for a contraction.  The two presets are therefore the same function. *)
Theorem expandContractions_no_effect B x :
  (forall lc ec nn pq,
     normalize B x (mkOptions lc ec nn pq)
     = normalize B x (mkOptions lc false nn pq))
  /\ normalizeForMatching B x = normalizeForKeywords B x.
Proof.
  assert (H : forall lc ec nn pq,
             normalize B x (mkOptions lc ec nn pq)
             = normalize B x (mkOptions lc false nn pq)).
  { intros lc ec nn pq. destruct x as [|c t]; [reflexivity|].
    unfold normalize. f_equal.
    change (normalizePunctuation (normalizeCharacters B (c :: t))
              (mkOptions lc ec nn pq))
      with (normalizePunctuation (normalizeCharacters B (c :: t))
              (mkOptions lc false nn pq)).
    set (s2 := normalizePunctuation _ _).
    assert (Hc : clean (mkOptions lc false nn pq) s2)
      by apply punctuation_clean.
    clearbody s2. unfold transformText.
    cbn [expandContractions normalizeNumbers lowercase].
    destruct ec; [|reflexivity].
    rewrite (@contractions_id _ s2 Hc). reflexivity. }
  split; [exact H|]. apply H.
Qed.

(** ** The alphabet of normalized text *)

Lemma lower_fixed_not_upper c : lower_ascii c = c -> in_range 65 90 c = false.
Proof.
  unfold lower_ascii. destruct (in_range 65 90 c); [|reflexivity].
  intro H. exfalso. lia.
Qed.

(** X11. Of text of 7-bit code units, the normalized text holds only 7-bit code
    units, none that stage 2 replaces or removes, no upper-case letter when
    [lowercase] is set, and no number word when [normalizeNumbers] is set. *)
Theorem normalize_alphabet B x options :
  ascii_faithful B -> ascii_text x ->
  Forall (fun c => is_ascii c = true /\ removed options c = false)
         (normalize B x options)
  /\ (lowercase options = true ->
      Forall (fun c => in_range 65 90 c = false) (normalize B x options))
  /\ (normalizeNumbers options = true ->
      Forall (fun e => no_match (re_word (fst e)) None (normalize B x options))
             numberWords).
Proof.
  intros HB Hx.
  destruct (@normalize_shape B x options HB Hx)
    as [[H1 [H2 _]] [[H3 H4] _]].
  split; [|split].
  - unfold ascii_text, clean in *. rewrite Forall_forall in *.
    intros c Hc. split; [apply H1 | apply H2]; exact Hc.
  - intro Hl. eapply Forall_impl; [|apply (H3 Hl)].
    apply lower_fixed_not_upper.
  - intro Hn. specialize (H4 Hn). unfold keys_absent in H4.
    pose proof numberWords_table as Ht. unfold number_table in Ht.
    rewrite Forall_forall in *. intros e He.
    rewrite re_word_shape. apply no_match_absent; [apply (Ht e He)|].
    apply (H4 e He).
Qed.

Lemma normalize_alphabet_witness :
  Forall (fun c => in_range 65 90 c = false)
         (normalize ascii_builtins (js "Is it (A) or [B]?") default_options).
Proof.
  apply (@normalize_alphabet ascii_builtins (js "Is it (A) or [B]?")
           default_options).
  - exact ascii_builtins_faithful.
  - repeat constructor.
  - reflexivity.
Defined.

(** ** The pipeline on concrete text *)

(** C5 (the code breaks the claim). The matching preset does not expand the
    contraction of "I don't know": stage 2 removes the apostrophe before stage
    3 looks for [don't], so the result holds "dont", not "do not". *)
Theorem contraction_not_expanded :
  normalizeForMatching ascii_builtins (js "I don't know") = js "i dont know"
  /\ normalizeForMatching ascii_builtins (js "I don't know") <> js "i do not know".
Proof. split; [vm_compute; reflexivity | vm_compute; discriminate]. Qed.

(** C4, as stated, fails: a symbol that stage 2 keeps ([#] here) and that
    only white space separates from the edge of the text is left at the edge
    by the first pass and stripped by the second. *)
Lemma normalize_not_idempotent :
  ~ (forall B, ascii_faithful B ->
     forall x options,
       normalize B (normalize B x options) options = normalize B x options).
Proof.
  intro H.
  specialize (H ascii_builtins ascii_builtins_faithful (js " #a") default_options).
  vm_compute in H. discriminate H.
Qed.

End Normalizer.

Import Normalizer.

(* ================================================================== *)
(** * Stop words (lib/normalization/stopwords.js) *)
(* ================================================================== *)

Module Stopwords.

Definition english_stopwords : list string :=
  ["a"; "an"; "the"; "i"; "you"; "he"; "she"; "it"; "we"; "they"; "them";
    "their"; "theirs"; "me"; "him"; "her"; "us"; "my"; "your"; "his"; "its";
    "our"; "myself"; "yourself"; "himself"; "herself"; "itself"; "ourselves";
    "themselves"; "this"; "that"; "these"; "those"; "in"; "on"; "at"; "to";
    "for"; "with"; "from"; "by"; "about"; "as"; "into"; "through"; "during";
    "before"; "after"; "above"; "below"; "between"; "under"; "over"; "of";
    "off"; "up"; "down"; "out"; "and"; "or"; "but"; "nor"; "so"; "yet"; "if";
    "because"; "while"; "although"; "though"; "unless"; "since"; "until";
    "when"; "where"; "is"; "am"; "are"; "was"; "were"; "be"; "been"; "being";
    "have"; "has"; "had"; "having"; "do"; "does"; "did"; "doing"; "will";
    "would"; "shall"; "should"; "may"; "might"; "must"; "can"; "could";
    "get"; "got"; "getting"; "make"; "made"; "making"; "go"; "went"; "going";
    "gone"; "come"; "came"; "coming"; "take"; "took"; "taken"; "taking";
    "see"; "saw"; "seen"; "seeing"; "know"; "knew"; "known"; "knowing";
    "think"; "thought"; "thinking"; "say"; "said"; "saying"; "tell"; "told";
    "telling"; "give"; "gave"; "given"; "giving"; "find"; "found"; "finding";
    "use"; "used"; "using"; "want"; "wanted"; "wanting"; "work"; "worked";
    "working"; "call"; "called"; "calling"; "try"; "tried"; "trying"; "ask";
    "asked"; "asking"; "need"; "needed"; "needing"; "feel"; "felt";
    "feeling"; "become"; "became"; "becoming"; "leave"; "left"; "leaving";
    "put"; "putting"; "not"; "no"; "yes"; "all"; "any"; "some"; "many";
    "much"; "more"; "most"; "few"; "less"; "least"; "each"; "every"; "both";
    "either"; "neither"; "other"; "another"; "such"; "same"; "different";
    "very"; "too"; "quite"; "rather"; "just"; "only"; "even"; "also";
    "still"; "here"; "there"; "now"; "then"; "today"; "tomorrow";
    "yesterday"; "always"; "never"; "sometimes"; "often"; "usually";
    "seldom"; "again"; "back"; "away"; "around"; "than"; "then"; "once";
    "twice"; "one"; "two"; "first"; "second"; "last"; "next"; "new"; "old";
    "good"; "bad"; "big"; "small"; "long"; "short"; "high"; "low"; "right";
    "left"; "near"; "far"; "well"; "better"; "best"; "worse"; "worst"; "own";
    "same"; "sure"; "certain"; "however"; "therefore"; "thus"; "hence";
    "moreover"; "furthermore"; "etc"; "ie"; "eg"; "vs"; "via" ]%string.

Definition question_words : list string :=
  ["what"; "when"; "where"; "which"; "who"; "whom"; "whose"; "why";
    "how" ]%string.

Definition important_qualifiers : list string :=
  ["not"; "never"; "always"; "only"; "must"; "should"; "can"; "cannot";
    "true"; "false"; "correct"; "incorrect"; "right"; "wrong" ]%string.

Definition ENGLISH_STOPWORDS : list jstr := map js english_stopwords.
Definition QUESTION_WORDS : list jstr := map js question_words.
Definition IMPORTANT_QUALIFIERS : list jstr := map js important_qualifiers.

Definition isStopword (word : jstr) : bool :=
  if mem word QUESTION_WORDS || mem word IMPORTANT_QUALIFIERS then false
  else mem word ENGLISH_STOPWORDS.

End Stopwords.

Import Stopwords.

(* ================================================================== *)
(** * Keyword extractor (lib/normalization/keyword-extractor.js) *)
(* ================================================================== *)

Module KeywordExtractor.

(** ** The [wordFrequency] object

    [wordFrequency] is a plain object ([{}]), so it inherits from
    [Object.prototype]: reading a key that is not an own property yields the
    inherited member when the key names one.  An own value is a count, or the
    text that [+ 1] makes of a value that is not a number. *)

Inductive fval : Type :=
| FCount (n : nat)
| FText.

Definition object : Type := list (jstr * fval).

Definition proto_key : jstr := js "__proto__".

(** The members every object inherits, [__proto__] apart. *)
Definition object_prototype_keys : list jstr :=
  map js [ "constructor"; "hasOwnProperty"; "isPrototypeOf";
           "propertyIsEnumerable"; "toLocaleString"; "toString"; "valueOf";
           "__defineGetter__"; "__defineSetter__"; "__lookupGetter__";
           "__lookupSetter__" ]%string.

(** What [obj[key]] reads: a count, a value that is truthy and not a number
    (a text, an inherited function, the prototype object), or [undefined]. *)
Inductive read : Type :=
| RCount (n : nat)
| RObject
| RUndefined.

Definition own (o : object) (key : jstr) : option fval :=
  match find (fun kv => jstr_eqb key (fst kv)) o with
  | Some kv => Some (snd kv)
  | None => None
  end.

Definition obj_get (o : object) (key : jstr) : read :=
  if jstr_eqb key proto_key then RObject
  else match own o key with
       | Some (FCount n) => RCount n
       | Some FText => RObject
       | None => if mem key object_prototype_keys then RObject else RUndefined
       end.

(** [obj[key] = v]: the setter of [__proto__] ignores a value that is not an
    object. *)
Definition obj_set (o : object) (key : jstr) (v : fval) : object :=
  if jstr_eqb key proto_key then o else map_set o key v.

(** [wordFrequency[word] = (wordFrequency[word] || 0) + 1] *)
Definition count_word (o : object) (word : jstr) : object :=
  obj_set o word
          match obj_get o word with
          | RCount n => FCount (n + 1)
          | RObject => FText
          | RUndefined => FCount 1
          end.

(** [Math.max(...Object.values(wordFrequency))]: [NaN] as soon as a value is
    not a number, and -Infinity for no value at all. *)
Inductive maxval : Type :=
| MaxNum (n : nat)
| MaxNaN
| MaxNegInfinity.

Definition max_step (acc : maxval) (v : fval) : maxval :=
  match acc, v with
  | MaxNaN, _ => MaxNaN
  | _, FText => MaxNaN
  | MaxNegInfinity, FCount n => MaxNum n
  | MaxNum m, FCount n => MaxNum (Nat.max m n)
  end.

Definition max_value (o : object) : maxval :=
  fold_left max_step (map snd o) MaxNegInfinity.

Definition Qnat (n : nat) : Q := inject_Z (Z.of_nat n).

Definition jmin1 (a : jsnum) : jsnum :=
  match a with
  | Num x => Num (Qmin x 1)
  | NaN => NaN
  end.

(** [a < q] and [a >= q]: both false for [NaN]. *)
Definition jlt (a : jsnum) (q : Q) : bool :=
  match a with
  | Num x => Qlt_bool x q
  | NaN => false
  end.

Definition jge (a : jsnum) (q : Q) : bool :=
  match a with
  | Num x => Qle_bool q x
  | NaN => false
  end.

Record ExtractOptions : Type := mkExtractOptions {
  maxKeywords : nat;
  includePhrases : bool
}.

Definition default_extract_options : ExtractOptions :=
  mkExtractOptions MAX_KEYWORDS true.

Section Extractor.

Variable B : Builtins.

(** [Math.log], on the positive rationals it is applied to. *)
Variable ln : Q -> Q.

(** classifyKeywordType(word, originalText, originalWord): the tag of a
    keyword, which no property below depends on. *)
Variable classifyKeywordType : jstr -> jstr -> jstr -> KeywordType.

(** calculateWordImportance.  The term frequency is a number only when the
    word's entry is a count; the rarity is a logarithm of a number only when
    every value of the object is a count (the quotient of -Infinity or [NaN]
    has logarithm [NaN]). *)
Definition calculateWordImportance (word : jstr) (allWords : list jstr)
           (wordFrequency : object) : jsnum :=
  match obj_get wordFrequency word with
  | RCount f =>
      let tf := Qnat f / Qnat (List.length allWords) in
      match max_value wordFrequency with
      | MaxNum maxFreq =>
          let idf := ln (Qnat maxFreq / (Qnat f + 1)) in
          let tfidf := tf * idf in
          jmin1 (Num (tfidf * 10))
      | MaxNaN | MaxNegInfinity => NaN
      end
  | RObject | RUndefined => NaN
  end.

(** extractNGrams(words, n), for n = 2 and n = 3. *)
Fixpoint extractNGrams (words : list jstr) (n : nat) : list jstr :=
  match words with
  | [] => []
  | _ :: rest =>
      (if (n <=? List.length words)%nat
       then let ngramWords := firstn n words in
            if existsb (fun w => negb (isStopword w)) ngramWords
            then [join_space ngramWords] else []
       else [])
      ++ extractNGrams rest n
  end.

(** The body of [words.forEach((word, index) => ...)]: the keyword pushed for
    one word, if any. *)
Definition single_keyword (words : list jstr) (wordFrequency : object)
           (originalText : jstr) (originalWords : list jstr)
           (index : nat) (word : jstr) : option Keyword :=
  if isStopword word && negb (mem word QUESTION_WORDS) then None
  else if (List.length word <? MIN_KEYWORD_LENGTH)%nat
          || (MAX_KEYWORD_LENGTH <? List.length word)%nat then None
  else
    let originalWord :=
      match nth_error originalWords index with
      | Some (c :: w) => c :: w
      | Some [] | None => word
      end in
    let importance := calculateWordImportance word words wordFrequency in
    if jlt importance IMPORTANCE_THRESHOLD then None
    else Some (mkKeyword word importance
                         (classifyKeywordType word originalText originalWord)).

Fixpoint single_keywords_from (words : list jstr) (wordFrequency : object)
         (originalText : jstr) (originalWords : list jstr)
         (index : nat) (rest : list jstr) : list Keyword :=
  match rest with
  | [] => []
  | word :: rest' =>
      match single_keyword words wordFrequency originalText originalWords
                           index word with
      | Some kw => [kw]
      | None => []
      end
      ++ single_keywords_from words wordFrequency originalText originalWords
                              (S index) rest'
  end.

(** The body of the loop over the phrases. *)
Definition phrase_keyword (words : list jstr) (wordFrequency : object)
           (phrase : jstr) : option Keyword :=
  let phraseWords := split_space phrase in
  let sum :=
    fold_left (fun sum word =>
                 jadd sum (calculateWordImportance word words wordFrequency))
              phraseWords (Num 0) in
  let boostedImportance :=
    match sum with
    | Num s => Num (Qmin (s / Qnat (List.length phraseWords) * 1.5) 1)
    | NaN => NaN
    end in
  if jge boostedImportance IMPORTANCE_THRESHOLD
  then Some (mkKeyword phrase boostedImportance COMMON)
  else None.

(** [keywords.sort((a, b) => b.importance - a.importance)]: the sort is
    stable, and a comparison that yields [NaN] counts as a tie. *)
Definition before (a b : Keyword) : bool :=
  match importance a, importance b with
  | Num x, Num y => Qlt_bool y x
  | _, _ => false
  end.

Fixpoint insert_sorted (x : Keyword) (l : list Keyword) : list Keyword :=
  match l with
  | [] => [x]
  | y :: t => if before y x then y :: insert_sorted x t else x :: y :: t
  end.

Definition sort_by_importance (l : list Keyword) : list Keyword :=
  fold_right insert_sorted [] l.

(** The filter on the [seen] set. *)
Fixpoint dedupe (seen : list jstr) (l : list Keyword) : list Keyword :=
  match l with
  | [] => []
  | kw :: t =>
      if mem (word kw) seen then dedupe seen t
      else kw :: dedupe (word kw :: seen) t
  end.

Definition extractKeywords (text : jstr) (options : ExtractOptions)
  : list Keyword :=
  match text with
  | [] => []
  | _ :: _ =>
      let originalText := text in
      let normalizedText := normalizeForKeywords B text in
      let words :=
        filter (fun w => (MIN_KEYWORD_LENGTH <=? List.length w)%nat)
               (split_ws normalizedText) in
      match words with
      | [] => []
      | _ :: _ =>
          let wordFrequency := fold_left count_word words [] in
          let originalWords := split_ws originalText in
          let singles :=
            single_keywords_from words wordFrequency originalText
                                 originalWords 0 words in
          let phrases :=
            if includePhrases options
            then let bigrams := extractNGrams words 2 in
                 let trigrams := extractNGrams words 3 in
                 flat_map (fun phrase =>
                             match phrase_keyword words wordFrequency phrase with
                             | Some kw => [kw]
                             | None => []
                             end)
                          (bigrams ++ trigrams)
            else [] in
          let keywords := sort_by_importance (singles ++ phrases) in
          let uniqueKeywords := dedupe [] keywords in
          firstn (maxKeywords options) uniqueKeywords
      end
  end.

(** ** What is emitted *)

Lemma In_insert_sorted k x l : In k (insert_sorted x l) -> k = x \/ In k l.
Proof.
  induction l as [|y t IH]; simpl.
  - intros [H|[]]. left. symmetry. exact H.
  - destruct (before y x); simpl.
    + intros [H|H]; [right; left; exact H|].
      destruct (IH H) as [H'|H']; [left; exact H' | right; right; exact H'].
    + intros [H|H]; [left; symmetry; exact H | right; exact H].
Qed.

Lemma In_sort_by_importance k l : In k (sort_by_importance l) -> In k l.
Proof.
  induction l as [|x t IH]; simpl; [auto|]. intro H.
  apply In_insert_sorted in H. destruct H as [->|H]; [left; reflexivity|].
  right. apply IH. exact H.
Qed.

Lemma In_dedupe k : forall l seen, In k (dedupe seen l) -> In k l.
Proof.
  induction l as [|x t IH]; intros seen; simpl; [auto|].
  destruct (mem (word x) seen); simpl.
  - intro H. right. apply (IH seen H).
  - intros [H|H]; [left; exact H | right; apply (IH _ H)].
Qed.

Lemma In_firstn_inv (k : Keyword) n : forall l, In k (firstn n l) -> In k l.
Proof.
  induction n as [|n IH]; intros l; simpl; [contradiction|].
  destruct l as [|x t]; simpl; [contradiction|].
  intros [H|H]; [left; exact H | right; apply IH; exact H].
Qed.

(** An importance that is a number is at most 1. *)
Lemma calculateWordImportance_le word allWords wordFrequency x :
  calculateWordImportance word allWords wordFrequency = Num x -> x <= 1.
Proof.
  unfold calculateWordImportance.
  destruct (obj_get wordFrequency word); try discriminate.
  destruct (max_value wordFrequency); try discriminate.
  simpl. intro H. injection H as <-. apply Q.le_min_r.
Qed.

(** The keyword of a word: the word is no stop word, and its importance is
    no number below the threshold. *)
Lemma single_keyword_spec words wordFrequency originalText originalWords
      index w kw :
  single_keyword words wordFrequency originalText originalWords index w
  = Some kw ->
  word kw = w /\ isStopword w = false
  /\ match importance kw with
     | Num x => IMPORTANCE_THRESHOLD <= x <= 1
     | NaN => True
     end.
Proof.
  unfold single_keyword.
  destruct (isStopword w && negb (mem w QUESTION_WORDS)) eqn:Es;
    [discriminate|].
  destruct ((List.length w <? MIN_KEYWORD_LENGTH)%nat
            || (MAX_KEYWORD_LENGTH <? List.length w)%nat); [discriminate|].
  destruct (jlt (calculateWordImportance w words wordFrequency)
                IMPORTANCE_THRESHOLD) eqn:El; [discriminate|].
  intro H. injection H as <-. cbn [word importance].
  split; [reflexivity|]. split.
  - unfold isStopword in *.
    destruct (mem w QUESTION_WORDS); [reflexivity|].
    cbn [orb negb] in *. rewrite andb_true_r in Es. exact Es.
  - destruct (calculateWordImportance w words wordFrequency) as [x|] eqn:Ei;
      [|exact I].
    split; [apply Qlt_bool_false; exact El|].
    apply (calculateWordImportance_le _ _ _ Ei).
Qed.

Lemma In_single_keywords_from words wordFrequency originalText originalWords
      kw : forall rest index,
  In kw (single_keywords_from words wordFrequency originalText originalWords
                              index rest) ->
  exists i w,
    single_keyword words wordFrequency originalText originalWords i w = Some kw.
Proof.
  induction rest as [|w rest IH]; intros index; simpl; [contradiction|].
  intro H. apply in_app_or in H. destruct H as [H|H].
  - destruct (single_keyword words wordFrequency originalText originalWords
                             index w) as [kw'|] eqn:E; [|contradiction].
    destruct H as [->|[]]. exists index, w. exact E.
  - apply (IH _ H).
Qed.

(** The keyword of a phrase: its importance is a number of the range. *)
Lemma phrase_keyword_spec words wordFrequency phrase kw :
  phrase_keyword words wordFrequency phrase = Some kw ->
  word kw = phrase
  /\ exists x, importance kw = Num x /\ IMPORTANCE_THRESHOLD <= x <= 1.
Proof.
  unfold phrase_keyword.
  destruct (fold_left _ (split_space phrase) (Num 0)) as [s|];
    [|discriminate].
  cbn [jge].
  destruct (Qle_bool IMPORTANCE_THRESHOLD
              (Qmin (s / Qnat (List.length (split_space phrase)) * 1.5) 1))
    eqn:E; [|discriminate].
  intro H. injection H as <-. cbn [word importance].
  split; [reflexivity|]. eexists. split; [reflexivity|].
  split; [apply Qle_bool_iff; exact E | apply Q.le_min_r].
Qed.

(** A phrase holds a space. *)
Lemma join_space_space l : (2 <= List.length l)%nat -> In 32%N (join_space l).
Proof.
  destruct l as [|a [|b t]]; simpl; try lia. intros _.
  apply in_or_app. right. left. reflexivity.
Qed.

Lemma In_extractNGrams p n : (2 <= n)%nat ->
  forall words, In p (extractNGrams words n) -> In 32%N p.
Proof.
  intro Hn. induction words as [|w rest IH]; [contradiction|].
  cbn [extractNGrams]. intro H. apply in_app_or in H.
  destruct H as [H|H]; [|apply IH; exact H].
  destruct (n <=? List.length (w :: rest))%nat eqn:E; [|contradiction].
  destruct (existsb _ _); [|contradiction].
  destruct H as [<-|[]]. apply join_space_space.
  apply Nat.leb_le in E. rewrite length_firstn. lia.
Qed.

(** ** At most [maxKeywords] keywords, each word once *)

Lemma dedupe_spec : forall l seen,
  NoDup (map word (dedupe seen l))
  /\ (forall kw, In kw (dedupe seen l) -> ~ In (word kw) seen).
Proof.
  induction l as [|x t IH]; intros seen; simpl.
  - split; [constructor | intros kw []].
  - destruct (mem (word x) seen) eqn:E; [apply IH|].
    apply mem_false in E.
    destruct (IH (word x :: seen)) as [Hn Hs]. split.
    + simpl. constructor; [|exact Hn].
      intro Hin. apply in_map_iff in Hin. destruct Hin as [kw [Hw Hkw]].
      apply (Hs kw Hkw). left. symmetry. exact Hw.
    + intros kw [<-|Hkw]; [exact E|].
      intro Hin. apply (Hs kw Hkw). right. exact Hin.
Qed.

Lemma NoDup_firstn {A : Type} n (l : list A) : NoDup l -> NoDup (firstn n l).
Proof.
  intro H. rewrite <- (firstn_skipn n l) in H.
  apply NoDup_app_remove_r in H. exact H.
Qed.

(** X12. extractKeywords returns at most [maxKeywords] keywords, and no two of
    them with the same word. *)
Theorem extractKeywords_distinct text options :
  (List.length (extractKeywords text options) <= maxKeywords options)%nat
  /\ NoDup (map word (extractKeywords text options)).
Proof.
  unfold extractKeywords. destruct text as [|c t]; [split; [simpl; lia|constructor]|].
  destruct (filter _ _) as [|w0 ws]; [split; [simpl; lia|constructor]|].
  cbv zeta. split.
  - rewrite length_firstn. lia.
  - rewrite <- firstn_map. apply NoDup_firstn. apply dedupe_spec.
Qed.

(** ** Text without a repeated word *)

(** A word that names no member of [Object.prototype]. *)
Definition plain_word (w : jstr) : Prop :=
  jstr_eqb w proto_key = false /\ mem w object_prototype_keys = false.

Definition once (ws : list jstr) : object := map (fun w => (w, FCount 1)) ws.

Lemma own_once_absent ws w : ~ In w ws -> own (once ws) w = None.
Proof.
  unfold own, once. induction ws as [|a ws IH]; intro H; [reflexivity|].
  cbn [map find fst].
  destruct (jstr_eqb w a) eqn:E.
  - apply jstr_eqb_eq in E. subst a. exfalso. apply H. left. reflexivity.
  - apply IH. intro Hin. apply H. right. exact Hin.
Qed.

Lemma own_once ws w f : own (once ws) w = Some f -> f = FCount 1.
Proof.
  unfold own, once. induction ws as [|a ws IH]; [discriminate|].
  cbn [map find fst]. destruct (jstr_eqb w a); [|exact IH].
  intro H. injection H as <-. reflexivity.
Qed.

Lemma own_once_present ws w : In w ws -> own (once ws) w = Some (FCount 1).
Proof.
  unfold own, once. induction ws as [|a ws IH]; [contradiction|].
  cbn [map find fst]. destruct (jstr_eqb w a) eqn:E; [reflexivity|].
  intros [->|H]; [rewrite jstr_eqb_refl in E; discriminate|]. apply IH, H.
Qed.

Lemma map_set_once ws w :
  ~ In w ws -> map_set (once ws) w (FCount 1) = once (ws ++ [w]).
Proof.
  unfold once. induction ws as [|a ws IH]; intro H; [reflexivity|].
  cbn [map map_set app].
  destruct (jstr_eqb w a) eqn:E.
  - apply jstr_eqb_eq in E. subst a. exfalso. apply H. left. reflexivity.
  - f_equal. apply IH. intro Hin. apply H. right. exact Hin.
Qed.

(** The frequency object of words that are all different: each once. *)
Lemma count_words_once : forall ws done,
  NoDup (done ++ ws) -> Forall plain_word ws ->
  fold_left count_word ws (once done) = once (done ++ ws).
Proof.
  induction ws as [|w ws IH]; intros done Hnd Hp; simpl.
  - rewrite app_nil_r. reflexivity.
  - inversion Hp as [|? ? [Hw1 Hw2] Hp']; subst.
    assert (Hnin : ~ In w done).
    { apply NoDup_remove_2 in Hnd. intro H. apply Hnd.
      apply in_or_app. left. exact H. }
    unfold count_word at 2, obj_get, obj_set.
    rewrite Hw1, (@own_once_absent done w Hnin), Hw2, (@map_set_once done w Hnin).
    rewrite IH; [|rewrite <- app_assoc; exact Hnd | exact Hp'].
    rewrite <- app_assoc. reflexivity.
Qed.

Lemma max_value_once w ws : max_value (once (w :: ws)) = MaxNum 1.
Proof.
  unfold max_value, once. cbn [map snd fold_left max_step].
  induction ws as [|a ws IH]; [reflexivity|].
  cbn [map snd fold_left max_step]. exact IH.
Qed.

Section Logarithm.

(** [Math.log] is negative below 1. *)
Hypothesis ln_negative : forall q, 0 < q -> q < 1 -> ln q < 0.

(** With every frequency 1, an importance is [NaN] or a negative number. *)
Lemma importance_once w0 ws w :
  match calculateWordImportance w (w0 :: ws) (once (w0 :: ws)) with
  | Num x => x < 0
  | NaN => True
  end.
Proof.
  unfold calculateWordImportance.
  destruct (obj_get (once (w0 :: ws)) w) as [f| |] eqn:Eg; try exact I.
  assert (Hf : f = 1%nat).
  { unfold obj_get in Eg. destruct (jstr_eqb w proto_key); [discriminate|].
    destruct (own (once (w0 :: ws)) w) as [v|] eqn:Eo.
    - apply own_once in Eo. subst v. injection Eg as <-. reflexivity.
    - destruct (mem w object_prototype_keys); discriminate. }
  subst f. rewrite max_value_once. cbn [jmin1].
  assert (Hidf : ln (Qnat 1 / (Qnat 1 + 1)) < 0).
  { apply ln_negative; reflexivity. }
  set (idf := ln (Qnat 1 / (Qnat 1 + 1))) in *. clearbody idf.
  assert (Htf : 0 < Qnat 1 / Qnat (List.length (w0 :: ws))).
  { apply Qlt_shift_div_l.
    - unfold Qnat. change 0 with (inject_Z 0). rewrite <- Zlt_Qlt.
      simpl List.length. lia.
    - rewrite Qmult_0_l. reflexivity. }
  set (tf := Qnat 1 / Qnat (List.length (w0 :: ws))) in *. clearbody tf.
  assert (Hx : tf * idf * 10 < 0) by nra.
  apply Q.min_lt_iff. left. exact Hx.
Qed.

Lemma importance_once_word w0 ws w :
  In w (w0 :: ws) -> plain_word w ->
  exists x, calculateWordImportance w (w0 :: ws) (once (w0 :: ws)) = Num x
            /\ x < 0.
Proof.
  intros Hin [Hp _]. pose proof (importance_once w0 ws w) as H.
  unfold calculateWordImportance in *.
  assert (Hg : obj_get (once (w0 :: ws)) w = RCount 1).
  { unfold obj_get. rewrite Hp, (@own_once_present (w0 :: ws) w Hin). reflexivity. }
  rewrite Hg in *. rewrite max_value_once in *. cbn [jmin1] in *.
  eexists. split; [reflexivity | exact H].
Qed.

Lemma single_keyword_once w0 ws originalText originalWords index w :
  In w (w0 :: ws) -> plain_word w ->
  single_keyword (w0 :: ws) (once (w0 :: ws)) originalText originalWords
                 index w = None.
Proof.
  intros Hin Hp. unfold single_keyword.
  destruct (isStopword w && negb (mem w QUESTION_WORDS)); [reflexivity|].
  destruct ((List.length w <? MIN_KEYWORD_LENGTH)%nat
            || (MAX_KEYWORD_LENGTH <? List.length w)%nat); [reflexivity|].
  destruct (@importance_once_word w0 ws w Hin Hp) as [x [Hx Hneg]].
  rewrite Hx. cbn [jlt].
  replace (Qlt_bool x IMPORTANCE_THRESHOLD) with true; [reflexivity|].
  symmetry. apply Qlt_bool_iff. unfold IMPORTANCE_THRESHOLD. lra.
Qed.

Lemma single_keywords_once w0 ws originalText originalWords :
  forall rest index,
    Forall (fun w => In w (w0 :: ws) /\ plain_word w) rest ->
    single_keywords_from (w0 :: ws) (once (w0 :: ws)) originalText
                         originalWords index rest = [].
Proof.
  induction rest as [|w rest IH]; intros index H; [reflexivity|].
  inversion H as [|? ? [Hin Hp] H']; subst. cbn [single_keywords_from].
  rewrite (@single_keyword_once w0 ws originalText originalWords index w Hin Hp).
  apply IH. exact H'.
Qed.

Lemma phrase_sum_once w0 ws : forall phraseWords acc,
  match acc with Num s => s <= 0 | NaN => True end ->
  match fold_left
          (fun sum word =>
             jadd sum (calculateWordImportance word (w0 :: ws)
                                               (once (w0 :: ws))))
          phraseWords acc with
  | Num s => s <= 0
  | NaN => True
  end.
Proof.
  induction phraseWords as [|w pw IH]; intros acc Hacc; [exact Hacc|].
  cbn [fold_left]. apply IH.
  pose proof (importance_once w0 ws w) as Hw.
  destruct acc as [s|]; [|exact I].
  destruct (calculateWordImportance w (w0 :: ws) (once (w0 :: ws)));
    cbn [jadd]; [lra | exact I].
Qed.

Lemma phrase_keyword_once w0 ws phrase :
  phrase_keyword (w0 :: ws) (once (w0 :: ws)) phrase = None.
Proof.
  unfold phrase_keyword.
  pose proof (@phrase_sum_once w0 ws (split_space phrase) (Num 0)
                ltac:(simpl; lra)) as Hs.
  destruct (fold_left _ (split_space phrase) (Num 0)) as [s|];
    [|reflexivity].
  cbn [jge].
  replace (Qle_bool IMPORTANCE_THRESHOLD _) with false; [reflexivity|].
  symmetry. destruct (Qle_bool IMPORTANCE_THRESHOLD _) eqn:E; [|reflexivity].
  exfalso. apply Qle_bool_iff in E. unfold IMPORTANCE_THRESHOLD in E.
  set (n := Qnat (List.length (split_space phrase))) in *.
  assert (Hn : 0 <= / n).
  { apply Qinv_le_0_compat. unfold n, Qnat. change 0 with (inject_Z 0).
    rewrite <- Zle_Qle. lia. }
  assert (Hq : s / n * 1.5 <= 0).
  { unfold Qdiv. set (i := / n) in *. clearbody i. nra. }
  pose proof (Q.le_min_l (s / n * 1.5) 1). lra.
Qed.

End Logarithm.

(** The words extractKeywords counts: all those of the normalized text that
    have the minimum length, whether stop words or not. *)
Definition counted_words (text : jstr) : list jstr :=
  filter (fun w => (MIN_KEYWORD_LENGTH <=? List.length w)%nat)
         (split_ws (normalizeForKeywords B text)).

(** X13. The counted words are all the words of the normalized text that
    have the minimum length, stop words included.  When no counted word
    occurs twice (and none names a member of [Object.prototype]),
    extractKeywords returns no keyword at all: every frequency equals the
    greatest, the rarity [log(1 / 2)] is negative, and so is every
    importance. *)
Theorem extractKeywords_no_repeated_word text options :
  (forall q, 0 < q -> q < 1 -> ln q < 0) ->
  NoDup (counted_words text) ->
  Forall plain_word (counted_words text) ->
  extractKeywords text options = [].
Proof.
  intros Hln Hnd Hp. unfold extractKeywords.
  destruct text as [|c t]; [reflexivity|].
  fold (counted_words (c :: t)).
  destruct (counted_words (c :: t)) as [|w0 ws] eqn:Ew; [reflexivity|].
  cbv zeta.
  change (@nil (jstr * fval)) with (once []).
  rewrite (@count_words_once (w0 :: ws) [] Hnd Hp). cbn [app].
  rewrite (@single_keywords_once Hln w0 ws).
  2: { rewrite Forall_forall in *. intros w Hw. split; [exact Hw | apply Hp, Hw]. }
  assert (Hph : forall l,
             flat_map (fun phrase =>
                         match phrase_keyword (w0 :: ws) (once (w0 :: ws))
                                              phrase with
                         | Some kw => [kw]
                         | None => []
                         end) l = []).
  { induction l as [|p l IH]; [reflexivity|]. cbn [flat_map].
    rewrite (@phrase_keyword_once Hln w0 ws p). exact IH. }
  destruct (includePhrases options); [rewrite Hph|];
    cbn [app sort_by_importance fold_right dedupe]; apply firstn_nil.
Qed.

End Extractor.

(** C6 (the code breaks the claim). For the text "What is a constructor in
    Java?" the word "constructor" reads the inherited
    [Object.prototype.constructor] from the frequency object; its entry
    becomes a text, the maximum of the frequencies is [NaN], and so is the
    importance of every word.  [NaN < 0.1] is false, so the three words are
    emitted, each with an importance that is not a number of [0,1]. *)
Theorem constructor_importance_not_a_number :
  forall (ln : Q -> Q) (classify : jstr -> jstr -> jstr -> KeywordType),
    map (fun kw => (word kw, importance kw))
        (extractKeywords ascii_builtins ln classify
           (js "What is a constructor in Java?") default_extract_options)
    = [(js "what", NaN); (js "constructor", NaN); (js "java", NaN)].
Proof. intros ln classify. vm_compute. reflexivity. Qed.

(** X1. What the extractor keeps of the bound on the importance, and of the
    stop words: the importance of an emitted keyword is a number from the
    threshold 0.1 to 1 whenever it is a number at all, and an emitted keyword
    of one word (one that holds no space) is not a stop word. *)
Theorem extractKeywords_emitted :
  forall B (ln : Q -> Q) (classify : jstr -> jstr -> jstr -> KeywordType)
         text options kw,
    In kw (extractKeywords B ln classify text options) ->
    match importance kw with
    | Num x => IMPORTANCE_THRESHOLD <= x <= 1
    | NaN => True
    end
    /\ (~ In 32%N (word kw) -> isStopword (word kw) = false).
Proof.
  intros B ln classify text options kw. unfold extractKeywords.
  destruct text as [|c t]; [contradiction|].
  match goal with
  | |- context [filter ?f ?l] => set (words := filter f l)
  end.
  destruct words as [|w0 ws] eqn:Ew; [contradiction|]. rewrite <- Ew.
  cbv zeta. intro H.
  apply In_firstn_inv, In_dedupe, In_sort_by_importance, in_app_or in H.
  destruct H as [H|H].
  - apply In_single_keywords_from in H. destruct H as [i [w H]].
    apply single_keyword_spec in H. destruct H as [Hw [Hs Hi]].
    split; [exact Hi|]. intros _. rewrite Hw. exact Hs.
  - destruct (includePhrases options); [|contradiction].
    apply in_flat_map in H. destruct H as [p [Hp H]].
    destruct (phrase_keyword ln words (fold_left count_word words []) p)
      as [kw'|] eqn:E; [|contradiction].
    destruct H as [->|[]].
    apply phrase_keyword_spec in E. destruct E as [Hw [x [Hx Hr]]].
    split; [rewrite Hx; exact Hr|].
    intro Hno. exfalso. apply Hno. rewrite Hw.
    apply in_app_or in Hp.
    destruct Hp as [Hp|Hp];
      apply (fun Hn => @In_extractNGrams p _ Hn words Hp); lia.
Qed.

Lemma extractKeywords_emitted_witness :
  let kw := mkKeyword (js "london") (Num 1) COMMON in
  match importance kw with
  | Num x => IMPORTANCE_THRESHOLD <= x <= 1
  | NaN => True
  end
  /\ (~ In 32%N (word kw) -> isStopword (word kw) = false).
Proof.
  apply (@extractKeywords_emitted ascii_builtins (fun q => q)
           (fun _ _ _ => COMMON) (js "Paris, Paris or London?")
           default_extract_options).
  vm_compute. right. left. reflexivity.
Defined.

Lemma extractKeywords_no_repeated_word_witness :
  extractKeywords ascii_builtins (fun q => q - 1) (fun _ _ _ => COMMON)
                  (js "What is the capital of France?")
                  default_extract_options = [].
Proof.
  apply extractKeywords_no_repeated_word.
  - intros q _ H. lra.
  - vm_compute. repeat constructor; simpl; intuition discriminate.
  - vm_compute. repeat constructor.
Defined.

End KeywordExtractor.

(* ================================================================== *)
(** * Question classifier (lib/normalization/question-classifier.js) *)
(* ================================================================== *)

Module Classifier.

Import PrimFloat FloatOps SpecFloat.
Local Set Warnings "-inexact-float".

(** Words joined by [\s+], under the [i] flag. *)
Fixpoint phrase_i (ws : list string) : regex :=
  match ws with
  | [] => Eps
  | [w] => lit_i w
  | w :: rest => Seq (lit_i w) (Seq (Plus space) (phrase_i rest))
  end.

(** [[a-d]] under the [i] flag *)
Definition a_to_d : regex := range_i 97 100.

Definition MCQ_PATTERNS : list regex :=
  [ phrase_i ["which"; "of"; "the"; "following"];
    phrase_i ["select"; "the"; "correct"];
    phrase_i ["choose"; "the"; "correct"];
    phrase_i ["pick"; "the"; "correct"];
    phrase_i ["identify"; "the"; "correct"];
    phrase_i ["what"; "is"; "the"; "correct"];
    phrase_i ["multiple"; "choice"];
    (* /\b[a-d]\)|^\s*[a-d][\.\)]/im *)
    Alt (seqs [WordB; a_to_d; chr 41])
        (seqs [BolM; Star space; a_to_d; class ".)"]);
    (* /option\s*[a-d]/i *)
    seqs [lit_i "option"; Star space; a_to_d] ]%string.

Definition MCQ_KEYWORDS : list string :=
  [ "following"; "options"; "choices"; "alternatives"; "select"; "choose";
    "pick" ]%string.

Definition TRUE_FALSE_PATTERNS : list regex :=
  [ phrase_i ["true"; "or"; "false"];
    phrase_i ["is"; "it"; "true"; "that"];
    phrase_i ["is"; "this"; "statement"; "true"];
    (* /state\s+whether.*true\s+or\s+false/i *)
    seqs [phrase_i ["state"; "whether"]; Star dot; phrase_i ["true"; "or"; "false"]];
    (* /determine\s+if.*true\s+or\s+false/i *)
    seqs [phrase_i ["determine"; "if"]; Star dot; phrase_i ["true"; "or"; "false"]]
  ]%string.

Definition TRUE_FALSE_KEYWORDS : list string :=
  [ "true"; "false"; "correct"; "incorrect"; "right"; "wrong" ]%string.

Definition FILL_BLANK_PATTERNS : list regex :=
  [ Plus (chr 95);                       (* /_+/ *)
    lit_i "[blank]";                     (* /\[blank\]/i *)
    lit "[___]";                         (* /\[___\]/ *)
    phrase_i ["fill"; "in"; "the"; "blank"];
    phrase_i ["complete"; "the"; "sentence"];
    phrase_i ["complete"; "the"; "following"] ]%string.

Definition FILL_BLANK_KEYWORDS : list string :=
  [ "fill"; "blank"; "complete"; "missing" ]%string.

(** [/^.../i] *)
Definition starts_i (ws : list string) : regex := Seq Bol (phrase_i ws).

Definition SHORT_ANSWER_PATTERNS : list regex :=
  [ starts_i ["what"; "is"]; starts_i ["what"; "are"]; starts_i ["define"];
    starts_i ["list"]; starts_i ["name"]; starts_i ["identify"];
    starts_i ["state"]; starts_i ["give"]; starts_i ["mention"];
    starts_i ["write"; "the"; "name"];
    phrase_i ["in"; "one"; "word"]; phrase_i ["in"; "brief"];
    phrase_i ["briefly"] ]%string.

Definition SHORT_ANSWER_KEYWORDS : list string :=
  [ "what"; "define"; "list"; "name"; "identify"; "state"; "mention";
    "briefly" ]%string.

Definition ESSAY_PATTERNS : list regex :=
  [ starts_i ["explain"]; starts_i ["describe"]; starts_i ["discuss"];
    starts_i ["analyze"]; starts_i ["analyse"];
    starts_i ["compare"; "and"; "contrast"]; starts_i ["evaluate"];
    starts_i ["justify"]; starts_i ["elaborate"]; starts_i ["illustrate"];
    phrase_i ["in"; "detail"]; phrase_i ["with"; "examples"];
    phrase_i ["write"; "an"; "essay"]; phrase_i ["write"; "a"; "note"]
  ]%string.

Definition ESSAY_KEYWORDS : list string :=
  [ "explain"; "describe"; "discuss"; "analyze"; "analyse"; "compare";
    "contrast"; "evaluate"; "justify"; "elaborate"; "illustrate"; "detail";
    "essay" ]%string.

Definition countPatternMatches (text : jstr) (patterns : list regex) : nat :=
  fold_left (fun count pattern => (count + if test pattern text then 1 else 0)%nat)
            patterns 0%nat.

Definition countKeywordMatches (B : Builtins) (text : jstr)
           (keywords : list string) : nat :=
  let lowerText := toLowerCase B text in
  fold_left (fun count keyword =>
               (count + if includes lowerText (js keyword) then 1 else 0)%nat)
            keywords 0%nat.

(** ** Numbers

    The scores of the classifier are compared with each other and with the
    floor 0.1, so they are the engine's own Numbers here: binary64, with a
    decimal literal denoting the nearest Number, as in the source. *)

(** A count, or the length of an array, as a Number. *)
Definition of_count (n : nat) : float :=
  PrimFloat.of_uint63 (Uint63.of_Z (Z.of_nat n)).

(** [Math.min(a, b)] *)
Definition Math_min (a b : float) : float :=
  if (is_nan a || is_nan b)%bool then nan
  else if (a <? b)%float then a
  else if (b <? a)%float then b
  else if get_sign a then a else b.

(** calculateTypeConfidence *)
Definition calculateTypeConfidence
           (patternMatches keywordMatches totalPatterns totalKeywords : nat)
  : float :=
  let patternScore :=
    if (0 <? totalPatterns)%nat
    then (of_count patternMatches / of_count totalPatterns)%float
    else 0%float in
  let keywordScore :=
    if (0 <? totalKeywords)%nat
    then (of_count keywordMatches / of_count totalKeywords)%float
    else 0%float in
  let confidence := ((patternScore * 0.7) + (keywordScore * 0.3))%float in
  Math_min confidence 1.0%float.

(** The entries of [scores], in the order the object literal lists them,
    which is the order [Object.entries] visits them in. *)
Definition type_order : list QuestionType :=
  [MCQ; TRUE_FALSE; FILL_BLANK; SHORT_ANSWER; ESSAY].

Definition patterns_of (t : QuestionType) : list regex :=
  match t with
  | MCQ => MCQ_PATTERNS
  | TRUE_FALSE => TRUE_FALSE_PATTERNS
  | FILL_BLANK => FILL_BLANK_PATTERNS
  | SHORT_ANSWER => SHORT_ANSWER_PATTERNS
  | ESSAY => ESSAY_PATTERNS
  | UNKNOWN => []
  end.

Definition keywords_of (t : QuestionType) : list string :=
  match t with
  | MCQ => MCQ_KEYWORDS
  | TRUE_FALSE => TRUE_FALSE_KEYWORDS
  | FILL_BLANK => FILL_BLANK_KEYWORDS
  | SHORT_ANSWER => SHORT_ANSWER_KEYWORDS
  | ESSAY => ESSAY_KEYWORDS
  | UNKNOWN => []
  end.

(** [confidences[type]] for the trimmed text. *)
Definition type_confidence (B : Builtins) (text : jstr) (t : QuestionType)
  : float :=
  calculateTypeConfidence
    (countPatternMatches text (patterns_of t))
    (countKeywordMatches B text (keywords_of t))
    (List.length (patterns_of t))
    (List.length (keywords_of t)).

(** The loop that keeps the highest confidence and its type:
    [if (confidence > maxConfidence)]. *)
Definition pick (acc : float * QuestionType) (entry : QuestionType * float)
  : float * QuestionType :=
  if (fst acc <? snd entry)%float then (snd entry, fst entry) else acc.

(** classifyQuestion, on a string argument *)
Definition classifyQuestion (B : Builtins) (questionText : jstr)
  : QuestionType * float :=
  match questionText with
  | [] => (UNKNOWN, 0%float)
  | _ :: _ =>
      let text := trim questionText in
      let confidences :=
        map (fun t => (t, type_confidence B text t)) type_order in
      let '(maxConfidence, bestType) :=
        fold_left pick confidences (0%float, UNKNOWN) in
      if (maxConfidence <? 0.1)%float then (UNKNOWN, 0%float)
      else (bestType, maxConfidence)
  end.

(** ** The classification rule in the words of the specification *)

(** 0.7 x (matched patterns / total patterns)
    + 0.3 x (matched keywords / total keywords), in binary64 *)
Definition spec_confidence (B : Builtins) (questionText : jstr)
           (t : QuestionType) : float :=
  (0.7 * (of_count (countPatternMatches (trim questionText) (patterns_of t))
          / of_count (List.length (patterns_of t)))
   + 0.3 * (of_count (countKeywordMatches B (trim questionText) (keywords_of t))
            / of_count (List.length (keywords_of t))))%float.


(** ** The Numbers the classifier can produce *)








(** ** Counting *)






(** ** The order of the scores *)









(** ** The selection loop *)




(** The floor is met in binary64: two of the six true/false keywords score
    0.3 x (2/6), which is 0.09999999999999999 and below 0.1, and the answer
    is unknown. *)
Lemma floor_in_binary64 :
  spec_confidence ascii_builtins (js "right wrong") TRUE_FALSE
  = 0x1.9999999999999p-4%float
  /\ (0x1.9999999999999p-4 <? 0.1)%float = true
  /\ classifyQuestion ascii_builtins (js "right wrong") = (UNKNOWN, 0%float).
Proof. repeat split; vm_compute; reflexivity. Qed.

End Classifier.

(* ================================================================== *)
(** * String similarity (lib/utils/string-utils.js) *)
(* ================================================================== *)

Module StringUtils.

Definition Qnat (n : nat) : Q := inject_Z (Z.of_nat n).

(** One row of the matrix of levenshteinDistance from the row above:
    [prev] is the row above from column j-1 on, [left] the cell at the left. *)
Fixpoint lev_row (c1 : N) (str2 : jstr) (prev : list nat) (left : nat)
  : list nat :=
  match str2, prev with
  | c2 :: str2', diag :: ((up :: _) as prev') =>
      let cost := if (c1 =? c2)%N then 0%nat else 1%nat in
      let cell := Nat.min (Nat.min (up + 1) (left + 1)) (diag + cost) in
      cell :: lev_row c1 str2' prev' cell
  | _, _ => []
  end.

Definition levenshteinDistance (str1 str2 : jstr) : nat :=
  let first_row := seq 0 (S (List.length str2)) in
  let last_row :=
    snd (fold_left (fun acc c1 =>
                      let i := S (fst acc) in
                      (i, i :: lev_row c1 str2 (snd acc) i))
                   str1 (0%nat, first_row)) in
  List.last last_row 0%nat.

Definition levenshteinSimilarity (str1 str2 : jstr) : Q :=
  if jstr_eqb str1 str2 then 1
  else if (List.length str1 =? 0)%nat || (List.length str2 =? 0)%nat then 0
  else
    let distance := levenshteinDistance str1 str2 in
    let maxLength := Nat.max (List.length str1) (List.length str2) in
    1 - Qnat distance / Qnat maxLength.

(** The first loop of jaroWinklerSimilarity, for one index [i] of [str1]: the
    first index j of the window with [str2[j]] unmatched and equal to [c1] is
    marked.  [flags] are the [str2Matches] from index [j] on. *)
Fixpoint mark_first (c1 : N) (str2 : jstr) (flags : list bool)
         (j start stop : Z) : option (list bool) :=
  match str2, flags with
  | c2 :: str2', f :: flags' =>
      if (start <=? j)%Z && (j <? stop)%Z && negb f && (c1 =? c2)%N
      then Some (true :: flags')
      else match mark_first c1 str2' flags' (j + 1) start stop with
           | Some fl => Some (f :: fl)
           | None => None
           end
  | _, _ => None
  end.

(** The loop over [str1]: the flags of [str1] and the final flags of [str2]. *)
Fixpoint find_matches (str1 str2 : jstr) (matchWindow : Z) (i : Z)
         (str2Matches : list bool) : list bool * list bool :=
  match str1 with
  | [] => ([], str2Matches)
  | c1 :: str1' =>
      let start := Z.max 0 (i - matchWindow) in
      let stop := Z.min (i + matchWindow + 1) (Z.of_nat (List.length str2)) in
      match mark_first c1 str2 str2Matches 0 start stop with
      | Some fl =>
          let r := find_matches str1' str2 matchWindow (i + 1) fl in
          (true :: fst r, snd r)
      | None =>
          let r := find_matches str1' str2 matchWindow (i + 1) str2Matches in
          (false :: fst r, snd r)
      end
  end.

Definition marked (str : jstr) (flags : list bool) : jstr :=
  map fst (filter snd (combine str flags)).

(** The second loop pairs the matched characters of the two strings in order
    and counts the pairs that differ. *)
Definition count_transpositions (m1 m2 : jstr) : nat :=
  List.length (filter (fun p => negb (fst p =? snd p)%N) (combine m1 m2)).

Fixpoint common_prefix (str1 str2 : jstr) (limit : nat) : nat :=
  match limit, str1, str2 with
  | S limit', c1 :: str1', c2 :: str2' =>
      if (c1 =? c2)%N then S (common_prefix str1' str2' limit') else 0%nat
  | _, _, _ => 0%nat
  end.

Definition jaroWinklerSimilarity (str1 str2 : jstr) : Q :=
  if jstr_eqb str1 str2 then 1
  else if (List.length str1 =? 0)%nat || (List.length str2 =? 0)%nat then 0
  else
    let len1 := List.length str1 in
    let len2 := List.length str2 in
    let matchWindow := (Z.of_nat (Nat.max len1 len2) / 2 - 1)%Z in
    let '(str1Matches, str2Matches) :=
      find_matches str1 str2 matchWindow 0 (repeat false len2) in
    let matches := List.length (filter (fun b : bool => b) str1Matches) in
    if (matches =? 0)%nat then 0
    else
      let transpositions :=
        count_transpositions (marked str1 str1Matches) (marked str2 str2Matches) in
      let jaro :=
        (Qnat matches / Qnat len1 + Qnat matches / Qnat len2
         + (Qnat matches - Qnat transpositions / 2) / Qnat matches) / 3 in
      let prefixLength := common_prefix str1 str2 4 in
      jaro + Qnat prefixLength * 0.1 * (1 - jaro).

(** substringScore *)
Definition substringScore (str1 str2 : jstr) : Q :=
  if jstr_eqb str1 str2 then 1
  else if (List.length str1 =? 0)%nat || (List.length str2 =? 0)%nat then 0
  else
    let shorter := if (List.length str1 <? List.length str2)%nat then str1 else str2 in
    let longer := if (List.length str1 <? List.length str2)%nat then str2 else str1 in
    if includes longer shorter
    then Qnat (List.length shorter) / Qnat (List.length longer)
    else 0.

(** tokenize *)
Definition tokenize (B : Builtins) (text : jstr) : list jstr :=
  filter (fun w => (0 <? List.length w)%nat) (split_ws (toLowerCase B text)).

(** wordPositionSimilarity *)
Definition wordPositionSimilarity (B : Builtins) (str1 str2 : jstr) : Q :=
  let words1 := tokenize B str1 in
  let words2 := tokenize B str2 in
  if (List.length words1 =? 0)%nat || (List.length words2 =? 0)%nat then 0
  else
    let maxLength := Nat.max (List.length words1) (List.length words2) in
    let positionScore :=
      List.length (filter (fun p => jstr_eqb (fst p) (snd p))
                          (combine words1 words2)) in
    Qnat positionScore / Qnat maxLength.

(** ** Edit distance *)

(** The edit distance by its recurrence, on the last code units of two
    texts given back to front: the reference the matrix of
    levenshteinDistance is compared with. *)
Fixpoint lev (s t : jstr) : nat :=
  match s with
  | [] => List.length t
  | a :: s' =>
      (fix lev_t (t : jstr) : nat :=
         match t with
         | [] => List.length s
         | b :: t' =>
             Nat.min (Nat.min (lev s' t + 1) (lev_t t' + 1))
                     (lev s' t' + if (a =? b)%N then 0 else 1)
         end) t
  end.

Lemma lev_nil_r s : lev s [] = List.length s.
Proof. destruct s; reflexivity. Qed.

Lemma lev_cons a s b t :
  lev (a :: s) (b :: t)
  = Nat.min (Nat.min (lev s (b :: t) + 1) (lev (a :: s) t + 1))
            (lev s t + if (a =? b)%N then 0 else 1).
Proof. reflexivity. Qed.

(** The cells of the row of [u] right of the column of [racc], the part of
    the second text already passed, back to front. *)
Fixpoint cells (u racc rest : jstr) : list nat :=
  match rest with
  | [] => []
  | c2 :: rest' => lev u (c2 :: racc) :: cells u (c2 :: racc) rest'
  end.

Lemma lev_row_cells c1 u : forall rest racc,
  lev_row c1 rest (lev u racc :: cells u racc rest) (lev (c1 :: u) racc)
  = cells (c1 :: u) racc rest.
Proof.
  induction rest as [|c2 rest IH]; intro racc; [reflexivity|].
  cbn [cells lev_row]. rewrite lev_cons.
  f_equal. rewrite <- IH. rewrite lev_cons. reflexivity.
Qed.

Lemma cells_first_row : forall rest racc,
  cells [] racc rest = seq (S (List.length racc)) (List.length rest).
Proof.
  induction rest as [|c2 rest IH]; intro racc; [reflexivity|].
  cbn [cells lev List.length seq]. f_equal. apply IH.
Qed.

Lemma last_cells u : forall rest racc d,
  List.last (lev u racc :: cells u racc rest) d = lev u (rev rest ++ racc).
Proof.
  induction rest as [|c2 rest IH]; intros racc d; [reflexivity|].
  cbn [cells rev]. rewrite <- app_assoc. cbn [app].
  rewrite <- (IH (c2 :: racc) d). reflexivity.
Qed.

Lemma lev_rows str2 : forall str1 u,
  fold_left (fun acc c1 =>
               let i := S (fst acc) in
               (i, i :: lev_row c1 str2 (snd acc) i))
            str1 (List.length u, lev u [] :: cells u [] str2)
  = (List.length (rev str1 ++ u),
     lev (rev str1 ++ u) [] :: cells (rev str1 ++ u) [] str2).
Proof.
  induction str1 as [|c1 str1 IH]; intro u; [reflexivity|].
  cbn [fold_left fst snd rev]. rewrite <- app_assoc. cbn [app].
  rewrite <- (IH (c1 :: u)). f_equal. f_equal.
  rewrite !lev_nil_r.
  change (S (List.length u)) with (List.length (c1 :: u)).
  rewrite <- (lev_nil_r (c1 :: u)), <- (lev_nil_r u).
  rewrite lev_row_cells. rewrite lev_nil_r. reflexivity.
Qed.

Lemma levenshteinDistance_recurrence_eq str1 str2 :
  levenshteinDistance str1 str2 = lev (rev str1) (rev str2).
Proof.
  unfold levenshteinDistance.
  replace (seq 0 (S (List.length str2)))
    with (lev [] [] :: cells [] [] str2)
    by (rewrite cells_first_row; reflexivity).
  pose proof (lev_rows str2 str1 []) as H. cbn [List.length] in H.
  rewrite H. cbn [snd].
  rewrite last_cells, !app_nil_r. reflexivity.
Qed.

(** X14. levenshteinDistance fills its matrix with the edit distances of the
    prefixes: its result is the distance the recurrence defines. *)
Theorem levenshteinDistance_recurrence str1 str2 :
  levenshteinDistance str1 str2 = lev (rev str1) (rev str2).
Proof. apply levenshteinDistance_recurrence_eq. Qed.

Lemma lev_refl s : lev s s = 0%nat.
Proof.
  induction s as [|a s IH]; [reflexivity|].
  rewrite lev_cons, IH, N.eqb_refl. lia.
Qed.

Lemma lev_le_max : forall s t,
  (lev s t <= Nat.max (List.length s) (List.length t))%nat.
Proof.
  induction s as [|a s IHs]; intro t; [simpl; lia|].
  induction t as [|b t IHt]; [rewrite lev_nil_r; lia|].
  rewrite lev_cons. specialize (IHs t). simpl List.length.
  destruct (a =? b)%N; lia.
Qed.

Lemma lev_ge_diff : forall s t,
  (List.length s - List.length t <= lev s t)%nat
  /\ (List.length t - List.length s <= lev s t)%nat.
Proof.
  induction s as [|a s IHs]; intro t; [simpl; lia|].
  induction t as [|b t IHt]; [rewrite lev_nil_r; simpl; lia|].
  rewrite lev_cons.
  pose proof (IHs t). pose proof (IHs (b :: t)). simpl List.length in *.
  destruct (a =? b)%N; lia.
Qed.

Lemma lev_zero : forall s t, lev s t = 0%nat -> s = t.
Proof.
  induction s as [|a s IHs]; intro t.
  - destruct t; [reflexivity | discriminate].
  - destruct t as [|b t]; [discriminate|].
    rewrite lev_cons. intro H.
    destruct (a =? b)%N eqn:E; [|lia].
    apply N.eqb_eq in E. subst b. f_equal. apply IHs. lia.
Qed.

Lemma lev_sym : forall s t, lev s t = lev t s.
Proof.
  induction s as [|a s IHs]; intro t; [symmetry; apply lev_nil_r|].
  induction t as [|b t IHt]; [reflexivity|].
  rewrite !lev_cons, IHt, (IHs t), (IHs (b :: t)), (N.eqb_sym b a). lia.
Qed.

Lemma levenshteinDistance_zero str1 str2 :
  levenshteinDistance str1 str2 = 0%nat <-> str1 = str2.
Proof.
  rewrite levenshteinDistance_recurrence_eq. split.
  - intro H. apply lev_zero in H.
    rewrite <- (rev_involutive str1), H. apply rev_involutive.
  - intros ->. apply lev_refl.
Qed.

Lemma levenshteinDistance_le_max str1 str2 :
  (levenshteinDistance str1 str2
   <= Nat.max (List.length str1) (List.length str2))%nat.
Proof.
  rewrite levenshteinDistance_recurrence_eq.
  pose proof (lev_le_max (rev str1) (rev str2)) as H.
  rewrite !length_rev in H. exact H.
Qed.

(** X15. levenshteinDistance is 0 exactly for equal texts, is symmetric, and lies
    between the difference of the two lengths and the greater length; against
    the empty text it is the length of the other. *)
Theorem levenshteinDistance_facts str1 str2 :
  (levenshteinDistance str1 str2 = 0%nat <-> str1 = str2)
  /\ levenshteinDistance str1 str2 = levenshteinDistance str2 str1
  /\ (levenshteinDistance str1 str2
      <= Nat.max (List.length str1) (List.length str2))%nat
  /\ (Nat.max (List.length str1) (List.length str2)
      - Nat.min (List.length str1) (List.length str2)
      <= levenshteinDistance str1 str2)%nat
  /\ levenshteinDistance str1 [] = List.length str1.
Proof.
  split; [apply levenshteinDistance_zero|].
  split; [|split; [apply levenshteinDistance_le_max|]].
  all: rewrite !levenshteinDistance_recurrence_eq.
  - apply lev_sym.
  - split; [|cbn [rev]; rewrite lev_nil_r; apply length_rev].
    pose proof (lev_ge_diff (rev str1) (rev str2)) as H.
    rewrite !length_rev in H. lia.
Qed.

Lemma levenshteinDistance_facts_witness :
  levenshteinDistance (js "kitten") (js "sitting") = 3%nat
  /\ (levenshteinDistance (js "kitten") (js "sitting") <= 7)%nat.
Proof.
  split; [reflexivity|].
  apply (proj1 (proj2 (proj2 (levenshteinDistance_facts (js "kitten")
                                                         (js "sitting"))))).
Defined.

(** ** The similarities *)

Lemma Qnat_ratio a b :
  (a <= b)%nat -> (0 < b)%nat -> 0 <= Qnat a / Qnat b <= 1.
Proof. apply count_ratio_range. Qed.

Lemma Qnat_pos n : (0 < n)%nat -> 0 < Qnat n.
Proof.
  intro H. unfold Qnat. change 0 with (inject_Z 0). rewrite <- Zlt_Qlt. lia.
Qed.

Lemma Qnat_le a b : (a <= b)%nat -> Qnat a <= Qnat b.
Proof. intro H. unfold Qnat. rewrite <- Zle_Qle. lia. Qed.

Lemma jstr_eqb_false a b : jstr_eqb a b = false <-> a <> b.
Proof.
  rewrite <- jstr_eqb_eq. destruct (jstr_eqb a b); split; congruence.
Qed.

Lemma levenshteinSimilarity_spec str1 str2 :
  0 <= levenshteinSimilarity str1 str2 <= 1
  /\ (levenshteinSimilarity str1 str2 == 1 <-> str1 = str2).
Proof.
  unfold levenshteinSimilarity.
  destruct (jstr_eqb str1 str2) eqn:E.
  - apply jstr_eqb_eq in E. split; [lra|]. split; [auto | reflexivity].
  - apply jstr_eqb_false in E.
    destruct ((List.length str1 =? 0)%nat || (List.length str2 =? 0)%nat)
      eqn:El.
    + split; [lra|]. split; [intro H; exfalso; lra | contradiction].
    + apply orb_false_iff in El. destruct El as [E1 E2].
      apply Nat.eqb_neq in E1, E2.
      pose proof (levenshteinDistance_zero str1 str2) as Hz.
      pose proof (levenshteinDistance_le_max str1 str2) as Hmax.
      assert (Hd : (1 <= levenshteinDistance str1 str2)%nat).
      { destruct (levenshteinDistance str1 str2) eqn:Ed; [|lia].
        exfalso. apply E, Hz. reflexivity. }
      set (d := levenshteinDistance str1 str2) in *.
      set (n := Nat.max (List.length str1) (List.length str2)) in *.
      assert (Hn : (0 < n)%nat) by (unfold n; lia).
      pose proof (Qnat_ratio Hmax Hn) as Hr.
      assert (Hpos : 0 < Qnat d / Qnat n).
      { apply Qlt_shift_div_l; [apply Qnat_pos; exact Hn|].
        rewrite Qmult_0_l. apply Qnat_pos. lia. }
      split; [lra|]. split; [intro H; exfalso; lra | contradiction].
Qed.

(** X16. levenshteinSimilarity is a number of [0,1], and 1 only for equal
    texts. *)
Theorem levenshteinSimilarity_range str1 str2 :
  0 <= levenshteinSimilarity str1 str2 <= 1
  /\ (levenshteinSimilarity str1 str2 == 1 <-> str1 = str2).
Proof. apply levenshteinSimilarity_spec. Qed.

Lemma substringScore_bounds str1 str2 : 0 <= substringScore str1 str2 <= 1.
Proof.
  unfold substringScore.
  destruct (jstr_eqb str1 str2); [lra|].
  destruct ((List.length str1 =? 0)%nat || (List.length str2 =? 0)%nat)
    eqn:El; [lra|].
  apply orb_false_iff in El. destruct El as [E1 E2].
  apply Nat.eqb_neq in E1, E2.
  destruct (List.length str1 <? List.length str2)%nat eqn:E.
  - apply Nat.ltb_lt in E. destruct (includes str2 str1); [|lra].
    apply Qnat_ratio; lia.
  - apply Nat.ltb_ge in E. destruct (includes str1 str2); [|lra].
    apply Qnat_ratio; lia.
Qed.

Lemma wordPositionSimilarity_bounds B str1 str2 :
  0 <= wordPositionSimilarity B str1 str2 <= 1.
Proof.
  unfold wordPositionSimilarity.
  destruct ((List.length (tokenize B str1) =? 0)%nat
            || (List.length (tokenize B str2) =? 0)%nat) eqn:El; [lra|].
  apply orb_false_iff in El. destruct El as [E1 E2].
  apply Nat.eqb_neq in E1, E2.
  apply Qnat_ratio; [|lia].
  pose proof (filter_length_le
                (fun p : jstr * jstr => jstr_eqb (fst p) (snd p))
                (combine (tokenize B str1) (tokenize B str2))) as H.
  rewrite length_combine in H. lia.
Qed.

Lemma prefixb_refl s : prefixb s s = true.
Proof.
  induction s as [|c s IH]; simpl; [reflexivity|].
  rewrite N.eqb_refl. exact IH.
Qed.

(** X17. substringScore and wordPositionSimilarity are numbers of [0,1], and
    substringScore is 0 when neither text holds the other. *)
Theorem partial_scores str1 str2 B :
  0 <= substringScore str1 str2 <= 1
  /\ 0 <= wordPositionSimilarity B str1 str2 <= 1
  /\ (includes str1 str2 = false -> includes str2 str1 = false ->
      substringScore str1 str2 == 0).
Proof.
  split; [apply substringScore_bounds|].
  split; [apply wordPositionSimilarity_bounds|].
  intros H1 H2. unfold substringScore.
  destruct (jstr_eqb str1 str2) eqn:E.
  { apply jstr_eqb_eq in E. subst str2. exfalso.
    destruct str1; simpl in H1; [discriminate|].
    rewrite N.eqb_refl, prefixb_refl in H1. discriminate H1. }
  destruct (_ || _); [reflexivity|].
  destruct (List.length str1 <? List.length str2)%nat;
    [rewrite H2 | rewrite H1]; reflexivity.
Qed.

Lemma partial_scores_witness :
  substringScore (js "abc") (js "xyz") == 0.
Proof.
  apply (proj2 (proj2 (partial_scores (js "abc") (js "xyz") ascii_builtins)));
    reflexivity.
Defined.

(** ** Jaro-Winkler *)

Definition count_true (flags : list bool) : nat :=
  List.length (filter (fun b : bool => b) flags).

Lemma count_true_le flags : (count_true flags <= List.length flags)%nat.
Proof. apply filter_length_le. Qed.

Lemma mark_first_count c1 : forall str2 flags j start stop fl,
  mark_first c1 str2 flags j start stop = Some fl ->
  List.length fl = List.length flags
  /\ count_true fl = S (count_true flags).
Proof.
  induction str2 as [|c2 str2 IH]; intros flags j start stop fl;
    [discriminate|].
  destruct flags as [|f flags]; [discriminate|]. cbn [mark_first].
  destruct ((start <=? j)%Z && (j <? stop)%Z && negb f && (c1 =? c2)%N)
    eqn:E.
  - intro H. injection H as <-.
    apply andb_true_iff in E. destruct E as [E _].
    apply andb_true_iff in E. destruct E as [_ E].
    destruct f; [discriminate|]. split; reflexivity.
  - destruct (mark_first c1 str2 flags (j + 1) start stop) as [fl'|] eqn:Em;
      [|discriminate].
    intro H. injection H as <-.
    destruct (IH _ _ _ _ _ Em) as [H1 H2]. split.
    + simpl. f_equal. exact H1.
    + unfold count_true in *. simpl. destruct f; simpl; lia.
Qed.

Lemma find_matches_count str2 w : forall str1 i flags,
  let r := find_matches str1 str2 w i flags in
  List.length (fst r) = List.length str1
  /\ List.length (snd r) = List.length flags
  /\ count_true (snd r) = (count_true flags + count_true (fst r))%nat.
Proof.
  induction str1 as [|c1 str1 IH]; intros i flags; cbn zeta.
  - simpl. repeat split. unfold count_true. simpl. lia.
  - cbn [find_matches].
    destruct (mark_first c1 str2 flags 0
                (Z.max 0 (i - w))
                (Z.min (i + w + 1) (Z.of_nat (List.length str2))))
      as [fl|] eqn:Em.
    + destruct (mark_first_count _ _ _ _ _ _ Em) as [H1 H2].
      destruct (IH (i + 1)%Z fl) as [H3 [H4 H5]]. cbn zeta in *.
      cbn [fst snd]. split; [simpl; f_equal; exact H3|].
      split; [congruence|].
      rewrite H5, H2. unfold count_true. simpl. lia.
    + destruct (IH (i + 1)%Z flags) as [H3 [H4 H5]]. cbn zeta in *.
      cbn [fst snd]. split; [simpl; f_equal; exact H3|].
      split; [exact H4|].
      rewrite H5. unfold count_true. simpl. lia.
Qed.

Lemma count_true_repeat n : count_true (repeat false n) = 0%nat.
Proof. induction n as [|n IH]; [reflexivity | exact IH]. Qed.

Lemma length_marked : forall str flags,
  (List.length (marked str flags) <= count_true flags)%nat.
Proof.
  unfold marked, count_true.
  induction str as [|c str IH]; intros flags; [simpl; lia|].
  destruct flags as [|f flags]; [simpl; lia|].
  cbn [combine filter snd]. specialize (IH flags).
  destruct f; simpl in *; lia.
Qed.

Lemma common_prefix_le : forall limit str1 str2,
  (common_prefix str1 str2 limit <= limit)%nat.
Proof.
  induction limit as [|limit IH]; intros str1 str2;
    destruct str1 as [|c1 str1]; destruct str2 as [|c2 str2];
    try (simpl; lia).
  cbn [common_prefix]. destruct (c1 =? c2)%N; [|lia].
  specialize (IH str1 str2). lia.
Qed.

(** The arithmetic of the Jaro and the Winkler formula. *)
Lemma jaro_winkler_arith (m t l1 l2 p : Q) :
  0 < m -> m <= l1 -> m <= l2 -> 0 <= t <= m -> 0 <= p <= 4 ->
  let jaro := (m / l1 + m / l2 + (m - t / 2) / m) / 3 in
  0 <= jaro + p * 0.1 * (1 - jaro) <= 1.
Proof.
  intros Hm H1 H2 Ht Hp.
  change (t / 2) with (t * (1 # 2)).
  assert (Ha : 0 <= m / l1 <= 1).
  { split; [apply Qle_shift_div_l | apply Qle_shift_div_r]; lra. }
  assert (Hb : 0 <= m / l2 <= 1).
  { split; [apply Qle_shift_div_l | apply Qle_shift_div_r]; lra. }
  assert (Hc : 0 <= (m - t * (1 # 2)) / m <= 1).
  { split; [apply Qle_shift_div_l | apply Qle_shift_div_r]; lra. }
  set (a := m / l1) in *. set (b := m / l2) in *.
  set (c := (m - t * (1 # 2)) / m) in *. clearbody a b c. cbv zeta.
  assert (Hj : 0 <= (a + b + c) / 3 <= 1).
  { split; [apply Qle_shift_div_l | apply Qle_shift_div_r]; lra. }
  set (j := (a + b + c) / 3) in *. clearbody j. nra.
Qed.

Lemma jaroWinklerSimilarity_bounds str1 str2 :
  0 <= jaroWinklerSimilarity str1 str2 <= 1.
Proof.
  unfold jaroWinklerSimilarity.
  destruct (jstr_eqb str1 str2); [lra|].
  destruct ((List.length str1 =? 0)%nat || (List.length str2 =? 0)%nat);
    [lra|].
  set (w := (Z.of_nat (Nat.max (List.length str1) (List.length str2)) / 2
             - 1)%Z).
  pose proof (find_matches_count str2 w str1 0
                (repeat false (List.length str2))) as H.
  cbn zeta in H.
  destruct (find_matches str1 str2 w 0 (repeat false (List.length str2)))
    as [m1 m2].
  cbn [fst snd] in H. destruct H as [H1 [H2 H3]].
  rewrite repeat_length in H2. rewrite count_true_repeat in H3.
  fold (count_true m1).
  destruct (count_true m1 =? 0)%nat eqn:E; [lra|].
  apply Nat.eqb_neq in E.
  pose proof (count_true_le m1) as Hle1.
  pose proof (count_true_le m2) as Hle2.
  assert (Ht : (count_transpositions (marked str1 m1) (marked str2 m2)
                <= count_true m1)%nat).
  { unfold count_transpositions.
    pose proof (filter_length_le
                  (fun p : N * N => negb (fst p =? snd p)%N)
                  (combine (marked str1 m1) (marked str2 m2))) as Hf.
    rewrite length_combine in Hf.
    pose proof (length_marked str1 m1). lia. }
  pose proof (common_prefix_le 4 str1 str2) as Hp.
  apply jaro_winkler_arith.
  - apply Qnat_pos. lia.
  - apply Qnat_le. lia.
  - apply Qnat_le. lia.
  - split; [|apply Qnat_le; exact Ht].
    unfold Qnat. change 0 with (inject_Z 0). rewrite <- Zle_Qle. lia.
  - split.
    + unfold Qnat. change 0 with (inject_Z 0). rewrite <- Zle_Qle. lia.
    + change 4 with (Qnat 4). apply Qnat_le. exact Hp.
Qed.

(** X18. jaroWinklerSimilarity is a number of [0,1]. *)
Theorem jaroWinklerSimilarity_range str1 str2 :
  0 <= jaroWinklerSimilarity str1 str2 <= 1.
Proof. apply jaroWinklerSimilarity_bounds. Qed.

(** ** truncate *)

(** truncate(text, maxLength, suffix), for an integer [maxLength]:
    [substring(0, n)] takes a negative [n] for 0. *)
Definition truncate (text : jstr) (maxLength : Z) (suffix : jstr) : jstr :=
  if (Z.of_nat (List.length text) <=? maxLength)%Z then text
  else firstn (Z.to_nat (maxLength - Z.of_nat (List.length suffix))) text
       ++ suffix.

(** X19. Text within [maxLength] is returned as it is.  Longer text is cut to a
    prefix followed by the suffix, of [maxLength] code units in all when the
    suffix fits in [maxLength]; when the suffix is longer than [maxLength],
    the result is the suffix alone, and longer than [maxLength]. *)
Theorem truncate_cases text maxLength suffix :
  ((Z.of_nat (List.length text) <= maxLength)%Z ->
   truncate text maxLength suffix = text)
  /\ ((maxLength < Z.of_nat (List.length text))%Z ->
      (Z.of_nat (List.length suffix) <= maxLength)%Z ->
      Z.of_nat (List.length (truncate text maxLength suffix)) = maxLength
      /\ exists n, truncate text maxLength suffix = firstn n text ++ suffix)
  /\ ((maxLength < Z.of_nat (List.length text))%Z ->
      (maxLength < Z.of_nat (List.length suffix))%Z ->
      truncate text maxLength suffix = suffix).
Proof.
  unfold truncate. split; [|split].
  - intro H. apply Z.leb_le in H. rewrite H. reflexivity.
  - intros H Hs. apply Z.leb_gt in H. rewrite H. apply Z.leb_gt in H.
    split; [|eexists; reflexivity].
    rewrite length_app, length_firstn. lia.
  - intros H Hs. apply Z.leb_gt in H. rewrite H.
    replace (Z.to_nat (maxLength - Z.of_nat (List.length suffix))) with 0%nat
      by lia.
    reflexivity.
Qed.

Lemma truncate_cases_witness :
  truncate (js "abcdefgh") 5 (js "...") = js "ab..."
  /\ truncate (js "abcdefgh") 2 (js "...") = js "...".
Proof.
  split.
  - reflexivity.
  - apply (proj2 (proj2 (truncate_cases (js "abcdefgh") 2 (js "..."))));
      simpl; lia.
Defined.

End StringUtils.

Import StringUtils.

(* ================================================================== *)
(** * The fast hash (lib/utils/hash.js) *)
(* ================================================================== *)

Module Hash.

Local Open Scope Z_scope.

(** ToInt32: the operand of a bit operator, as a signed integer of 32 bits. *)
Definition toInt32 (x : Z) : Z :=
  let m := x mod 2 ^ 32 in
  if m <? 2 ^ 31 then m else m - 2 ^ 32.

(** [x << n] *)
Definition shl (x n : Z) : Z := toInt32 (Z.shiftl (toInt32 x) (n mod 32)).

(** [x & y] *)
Definition band (x y : Z) : Z := toInt32 (Z.land (toInt32 x) (toInt32 y)).

(** fastHash *)
Definition fastHash (str : jstr) : Z :=
  let hash :=
    fold_left (fun hash c =>
                 let hash := (shl hash 5 + hash) + Z.of_N c in
                 band hash hash)
              str 5381 in
  Z.abs hash.

(** DJB2 over the integers: hash * 33 + c, from 5381. *)
Definition djb2 (str : jstr) : Z :=
  fold_left (fun hash c => hash * 33 + Z.of_N c) str 5381.

Ltac powers :=
  change (2 ^ 32) with 4294967296 in *;
  change (2 ^ 31) with 2147483648 in *;
  change (2 ^ 5) with 32 in *.

Lemma toInt32_range x : - 2 ^ 31 <= toInt32 x < 2 ^ 31.
Proof.
  unfold toInt32. pose proof (Z.mod_pos_bound x (2 ^ 32) eq_refl) as H.
  destruct (x mod 2 ^ 32 <? 2 ^ 31) eqn:E;
    [apply Z.ltb_lt in E | apply Z.ltb_ge in E]; powers; lia.
Qed.

Lemma toInt32_wraps x : exists k, toInt32 x = x + k * 2 ^ 32.
Proof.
  unfold toInt32. pose proof (Z.div_mod x (2 ^ 32)) as H.
  destruct (x mod 2 ^ 32 <? 2 ^ 31).
  - exists (- (x / 2 ^ 32)). powers. lia.
  - exists (- (x / 2 ^ 32) - 1). powers. lia.
Qed.

Lemma toInt32_plus x k : toInt32 (x + k * 2 ^ 32) = toInt32 x.
Proof. unfold toInt32. rewrite Z_mod_plus_full. reflexivity. Qed.

Lemma toInt32_small x : - 2 ^ 31 <= x < 2 ^ 31 -> toInt32 x = x.
Proof.
  intro H. unfold toInt32. powers.
  destruct (Z_lt_le_dec x 0) as [Hn|Hp].
  - assert (E : x mod 4294967296 = x + 4294967296)
      by (symmetry; apply (Z.mod_unique x 4294967296 (-1)); lia).
    rewrite E.
    replace (x + 4294967296 <? 2147483648) with false
      by (symmetry; apply Z.ltb_ge; lia).
    lia.
  - rewrite Z.mod_small by lia.
    replace (x <? 2147483648) with true by (symmetry; apply Z.ltb_lt; lia).
    reflexivity.
Qed.

Lemma toInt32_idem x : toInt32 (toInt32 x) = toInt32 x.
Proof. apply toInt32_small, toInt32_range. Qed.

(** One turn of the loop is hash * 33 + c, wrapped to 32 bits, and the
    wrapping may as well be done once, on the exact value. *)
Lemma step_wraps h d c :
  h = toInt32 d ->
  band (shl h 5 + h + Z.of_N c) (shl h 5 + h + Z.of_N c)
  = toInt32 (d * 33 + Z.of_N c).
Proof.
  intros ->. unfold band, shl.
  rewrite Z.land_diag, !toInt32_idem.
  change (5 mod 32) with 5. rewrite Z.shiftl_mul_pow2 by lia.
  destruct (toInt32_wraps d) as [k1 H1].
  destruct (toInt32_wraps (toInt32 d * 2 ^ 5)) as [k2 H2].
  rewrite H2, H1.
  replace ((d + k1 * 2 ^ 32) * 2 ^ 5 + k2 * 2 ^ 32 + (d + k1 * 2 ^ 32)
           + Z.of_N c)
    with (d * 33 + Z.of_N c + (33 * k1 + k2) * 2 ^ 32) by (powers; lia).
  apply toInt32_plus.
Qed.

Lemma loop_wraps str : forall h d,
  h = toInt32 d ->
  fold_left (fun hash c =>
               let hash := (shl hash 5 + hash) + Z.of_N c in
               band hash hash) str h
  = toInt32 (fold_left (fun hash c => hash * 33 + Z.of_N c) str d).
Proof.
  induction str as [|c str IH]; intros h d Hh; cbn [fold_left].
  - exact Hh.
  - apply IH. cbv zeta. apply step_wraps. exact Hh.
Qed.

(** X20. fastHash is DJB2: the absolute value of hash * 33 + c, taken over the
    code units from 5381, wrapped once to a signed integer of 32 bits.  It is
    never negative and never above 2^31 (the absolute value of the least
    integer of 32 bits is 2^31 itself, one more than the greatest). *)
Theorem fastHash_djb2 str :
  fastHash str = Z.abs (toInt32 (djb2 str))
  /\ 0 <= fastHash str <= 2 ^ 31.
Proof.
  assert (H : fastHash str = Z.abs (toInt32 (djb2 str))).
  { unfold fastHash, djb2. f_equal. apply loop_wraps.
    symmetry. apply toInt32_small. powers. lia. }
  split; [exact H|]. rewrite H.
  pose proof (toInt32_range (djb2 str)). powers. lia.
Qed.

End Hash.

(* ================================================================== *)
(** * Tiers 1, 3 and 4 (lib/matching) *)
(* ================================================================== *)

Module Matchers.

(** exactMatch *)
Definition exactMatch (normalizedQuery : jstr) (db : DB) : option MatchResult :=
  match getQuestionByNormalizedText db normalizedQuery with
  | None => None
  | Some q =>
      let confidence :=
        calculateConfidence EXACT 1
          (mkContext (List.length normalizedQuery)
                     (List.length (normalizedQuestion q))) in
      Some (mkMatch q EXACT confidence 1 1 None)
  end.

(** The scoring loop shared by the fuzzy and the partial matcher: the first
    candidate of strictly greatest score, from a best score of 0. *)
Definition best_by (score : Question -> Q) (candidates : list Question)
  : option Question * Q :=
  fold_left (fun best candidate =>
               let s := score candidate in
               if Qlt_bool (snd best) s then (Some candidate, s) else best)
            candidates (None, 0).

(** fuzzyMatch *)
Definition fuzzyMatch (normalizedQuery : jstr) (candidates : list Question)
  : option MatchResult :=
  match candidates with
  | [] => None
  | _ :: _ =>
      let limitedCandidates := firstn FUZZY_MAX_CANDIDATES candidates in
      let similarity (candidate : Question) :=
        let candidateText := normalizedQuestion candidate in
        levenshteinSimilarity normalizedQuery candidateText * 0.6
        + jaroWinklerSimilarity normalizedQuery candidateText * 0.4 in
      let '(bestMatch, bestScore) := best_by similarity limitedCandidates in
      if Qlt_bool bestScore FUZZY_MIN_SIMILARITY then None
      else
        match bestMatch with
        | None => None (* not reached: the score is above the initial 0 *)
        | Some q =>
            let confidence :=
              calculateConfidence FUZZY bestScore
                (mkContext (List.length normalizedQuery)
                           (List.length (normalizedQuestion q))) in
            Some (mkMatch q FUZZY confidence bestScore 3
                          (Some (List.length limitedCandidates)))
        end
  end.

(** partialMatch *)
Definition partialMatch (B : Builtins) (normalizedQuery : jstr)
           (candidates : list Question) : option MatchResult :=
  match candidates with
  | [] => None
  | _ :: _ =>
      let combinedScore (candidate : Question) :=
        let candidateText := normalizedQuestion candidate in
        substringScore normalizedQuery candidateText * 0.7
        + wordPositionSimilarity B normalizedQuery candidateText * 0.3 in
      let '(bestMatch, bestScore) := best_by combinedScore candidates in
      if Qlt_bool bestScore PARTIAL_MIN_SCORE then None
      else
        match bestMatch with
        | None => None (* not reached: the score is above the initial 0 *)
        | Some q =>
            let confidence :=
              calculateConfidence PARTIAL bestScore
                (mkContext (List.length normalizedQuery)
                           (List.length (normalizedQuestion q))) in
            Some (mkMatch q PARTIAL confidence bestScore 4
                          (Some (List.length candidates)))
        end
  end.

(** ** What the matchers return *)

(** The scoring loop keeps the first candidate of greatest score above 0. *)
Lemma best_by_fold (score : Question -> Q) : forall cands b0 s0,
  let r := fold_left (fun best candidate =>
                        let s := score candidate in
                        if Qlt_bool (snd best) s then (Some candidate, s)
                        else best) cands (b0, s0) in
  s0 <= snd r
  /\ (r = (b0, s0)
      \/ exists q, fst r = Some q /\ In q cands /\ snd r = score q
                   /\ s0 < snd r)
  /\ (forall c, In c cands -> score c <= snd r).
Proof.
  induction cands as [|c cands IH]; intros b0 s0; cbn zeta.
  - simpl. split; [lra|]. split; [left; reflexivity|]. intros c [].
  - cbn [fold_left snd]. destruct (Qlt_bool s0 (score c)) eqn:El.
    + apply Qlt_bool_iff in El.
      destruct (IH (Some c) (score c)) as [H1 [H2 H3]]. cbn zeta in *.
      split; [lra|]. split.
      * right. destruct H2 as [H2|[q [Hq1 [Hq2 [Hq3 Hq4]]]]].
        -- rewrite H2. exists c. cbn [fst snd].
           split; [reflexivity|]. split; [left; reflexivity|].
           split; [reflexivity | exact El].
        -- exists q. split; [exact Hq1|]. split; [right; exact Hq2|].
           split; [exact Hq3 | lra].
      * intros c' [<-|Hin]; [exact H1 | apply (H3 c' Hin)].
    + apply Qlt_bool_false in El.
      destruct (IH b0 s0) as [H1 [H2 H3]]. cbn zeta in *.
      split; [exact H1|]. split.
      * destruct H2 as [H2|[q [Hq1 [Hq2 [Hq3 Hq4]]]]]; [left; exact H2|].
        right. exists q. split; [exact Hq1|]. split; [right; exact Hq2|].
        split; [exact Hq3 | exact Hq4].
      * intros c' [<-|Hin]; [lra | apply (H3 c' Hin)].
Qed.

(** The similarity of the fuzzy tier and the score of the partial tier. *)
Definition fuzzy_similarity (normalizedQuery : jstr) (candidate : Question) : Q :=
  levenshteinSimilarity normalizedQuery (normalizedQuestion candidate) * 0.6
  + jaroWinklerSimilarity normalizedQuery (normalizedQuestion candidate) * 0.4.

Definition partial_score (B : Builtins) (normalizedQuery : jstr)
           (candidate : Question) : Q :=
  substringScore normalizedQuery (normalizedQuestion candidate) * 0.7
  + wordPositionSimilarity B normalizedQuery (normalizedQuestion candidate)
    * 0.3.

Lemma fuzzyMatch_some nq cands m :
  fuzzyMatch nq cands = Some m ->
  In (matched m) (firstn FUZZY_MAX_CANDIDATES cands)
  /\ rawScore m = fuzzy_similarity nq (matched m)
  /\ FUZZY_MIN_SIMILARITY <= rawScore m <= 1
  /\ (forall c, In c (firstn FUZZY_MAX_CANDIDATES cands) ->
                fuzzy_similarity nq c <= rawScore m)
  /\ 0.693 <= confidence m <= 0.8
  /\ matchType m = FUZZY /\ tierOf m = 3%nat.
Proof.
  unfold fuzzyMatch. destruct cands as [|c0 cs]; [discriminate|].
  set (cands := c0 :: cs). unfold best_by.
  pose proof (best_by_fold (fuzzy_similarity nq)
                (firstn FUZZY_MAX_CANDIDATES cands) None 0) as Hfold.
  cbn zeta in Hfold. unfold fuzzy_similarity in Hfold at 1.
  destruct (fold_left _ (firstn FUZZY_MAX_CANDIDATES cands) (None, 0))
    as [b s].
  cbn [fst snd] in Hfold. destruct Hfold as [H1 [H2 H3]].
  destruct (Qlt_bool s FUZZY_MIN_SIMILARITY) eqn:El; [discriminate|].
  apply Qlt_bool_false in El.
  destruct H2 as [H2|[q [Hq1 [Hq2 [Hq3 Hq4]]]]].
  - injection H2 as -> ->. discriminate.
  - subst b. intro Hm. injection Hm as <-.
    cbn [matched rawScore matchType tierOf confidence].
    assert (Hs1 : s <= 1).
    { rewrite Hq3. unfold fuzzy_similarity.
      pose proof (proj1 (levenshteinSimilarity_spec nq (normalizedQuestion q))).
      pose proof (jaroWinklerSimilarity_bounds nq (normalizedQuestion q)).
      lra. }
    split; [exact Hq2|]. split; [exact Hq3|]. split; [split; assumption|].
    split; [exact H3|]. split; [|split; reflexivity].
    unfold FUZZY_MIN_SIMILARITY in El.
    pose proof (@fuzzy_band s
                  (mkContext (List.length nq)
                             (List.length (normalizedQuestion q)))
                  ltac:(lra)) as Hb.
    lra.
Qed.

Lemma partialMatch_some B nq cands m :
  partialMatch B nq cands = Some m ->
  In (matched m) cands
  /\ rawScore m = partial_score B nq (matched m)
  /\ PARTIAL_MIN_SCORE <= rawScore m <= 1
  /\ (forall c, In c cands -> partial_score B nq c <= rawScore m)
  /\ 0.36 <= confidence m <= 0.48
  /\ matchType m = PARTIAL /\ tierOf m = 4%nat.
Proof.
  unfold partialMatch. destruct cands as [|c0 cs]; [discriminate|].
  set (cands := c0 :: cs). unfold best_by.
  pose proof (best_by_fold (partial_score B nq) cands None 0) as Hfold.
  cbn zeta in Hfold. unfold partial_score in Hfold at 1.
  destruct (fold_left _ cands (None, 0)) as [b s].
  cbn [fst snd] in Hfold. destruct Hfold as [H1 [H2 H3]].
  destruct (Qlt_bool s PARTIAL_MIN_SCORE) eqn:El; [discriminate|].
  apply Qlt_bool_false in El.
  destruct H2 as [H2|[q [Hq1 [Hq2 [Hq3 Hq4]]]]].
  - injection H2 as -> ->. discriminate.
  - subst b. intro Hm. injection Hm as <-.
    cbn [matched rawScore matchType tierOf confidence].
    assert (Hs1 : s <= 1).
    { rewrite Hq3. unfold partial_score.
      pose proof (substringScore_bounds nq (normalizedQuestion q)).
      pose proof (wordPositionSimilarity_bounds B nq (normalizedQuestion q)).
      lra. }
    split; [exact Hq2|]. split; [exact Hq3|]. split; [split; assumption|].
    split; [exact H3|]. split; [|split; reflexivity].
    unfold PARTIAL_MIN_SCORE in El.
    pose proof (@partial_band s
                  (mkContext (List.length nq)
                             (List.length (normalizedQuestion q)))
                  ltac:(lra)) as Hb.
    rewrite Hb. lra.
Qed.

Lemma exactMatch_some nq db m :
  exactMatch nq db = Some m ->
  getQuestionByNormalizedText db nq = Some (matched m)
  /\ confidence m == 1 /\ rawScore m = 1
  /\ matchType m = EXACT /\ tierOf m = 1%nat.
Proof.
  unfold exactMatch.
  destruct (getQuestionByNormalizedText db nq) as [q|]; [|discriminate].
  intro H. injection H as <-.
  cbn [matched rawScore matchType tierOf confidence].
  split; [reflexivity|].
  split; [exact (calculateConfidence_exact _ _)|].
  repeat split.
Qed.

(** X21. What fuzzyMatch returns is the first of the first 50 candidates with the
    greatest similarity (0.6 Levenshtein + 0.4 Jaro-Winkler), when that
    similarity reaches 0.85; the raw score is at most 1 and the confidence
    lies in [0.693, 0.8]. *)
Theorem fuzzyMatch_result nq cands m :
  fuzzyMatch nq cands = Some m ->
  In (matched m) (firstn FUZZY_MAX_CANDIDATES cands)
  /\ rawScore m = fuzzy_similarity nq (matched m)
  /\ FUZZY_MIN_SIMILARITY <= rawScore m <= 1
  /\ (forall c, In c (firstn FUZZY_MAX_CANDIDATES cands) ->
                fuzzy_similarity nq c <= rawScore m)
  /\ 0.693 <= confidence m <= 0.8
  /\ matchType m = FUZZY /\ tierOf m = 3%nat.
Proof. apply fuzzyMatch_some. Qed.

(** X22. What partialMatch returns is the first candidate with the greatest
    score (0.7 substring + 0.3 word position), when that score reaches 0.5;
    the raw score is at most 1 and the confidence lies in [0.36, 0.48],
    below the default threshold 0.5. *)
Theorem partialMatch_result B nq cands m :
  partialMatch B nq cands = Some m ->
  In (matched m) cands
  /\ rawScore m = partial_score B nq (matched m)
  /\ PARTIAL_MIN_SCORE <= rawScore m <= 1
  /\ (forall c, In c cands -> partial_score B nq c <= rawScore m)
  /\ 0.36 <= confidence m <= 0.48
  /\ matchType m = PARTIAL /\ tierOf m = 4%nat.
Proof. apply partialMatch_some. Qed.

Lemma fuzzyMatch_result_witness :
  exists m, fuzzyMatch (js "pariss") [paris_doc] = Some m
            /\ 0.693 <= confidence m <= 0.8.
Proof.
  eexists. split; [vm_compute; reflexivity|].
  eapply (@fuzzyMatch_result (js "pariss") [paris_doc]).
  vm_compute. reflexivity.
Defined.

Lemma partialMatch_result_witness :
  exists m, partialMatch ascii_builtins (js "paris") [paris_doc] = Some m
            /\ 0.36 <= confidence m <= 0.48.
Proof.
  eexists. split; [vm_compute; reflexivity|].
  eapply (@partialMatch_result ascii_builtins (js "paris") [paris_doc]).
  vm_compute. reflexivity.
Defined.

(** X23. The label of an answer is fixed by its tier: what exactMatch and
    keywordMatch return is always of level HIGH, what fuzzyMatch returns of
    level MEDIUM, and what partialMatch returns of level LOW. *)
Theorem level_of_tier B nq qk cands db m :
  exactMatch nq db = Some m
  \/ keywordMatch qk db = Some m
  \/ fuzzyMatch nq cands = Some m
  \/ partialMatch B nq cands = Some m ->
  getConfidenceLevel (confidence m)
  = match tierOf m with
    | 1%nat | 2%nat => HIGH
    | 3%nat => MEDIUM
    | _ => LOW
    end.
Proof.
  pose proof (getConfidenceLevel_bands (confidence m)) as [Hh [Hm [Hl _]]].
  intros [H|[H|[H|H]]].
  - apply exactMatch_some in H. destruct H as [_ [Hc [_ [_ ->]]]].
    apply Hh. rewrite Hc. lra.
  - apply keywordMatch_tier in H. destruct H as [-> Hc].
    apply Hh. lra.
  - apply fuzzyMatch_some in H. destruct H as [_ [_ [_ [_ [Hc [_ ->]]]]]].
    apply Hm. lra.
  - apply partialMatch_some in H. destruct H as [_ [_ [_ [_ [Hc [_ ->]]]]]].
    apply Hl. lra.
Qed.

Lemma level_of_tier_witness :
  exists m, fuzzyMatch (js "pariss") [paris_doc] = Some m
            /\ getConfidenceLevel (confidence m) = MEDIUM.
Proof.
  eexists. split; [vm_compute; reflexivity|].
  apply (@level_of_tier ascii_builtins (js "pariss") [] [paris_doc] paris_db).
  right. right. left. vm_compute. reflexivity.
Defined.

End Matchers.

Import Matchers.

(* ================================================================== *)
(** * Matching engine (lib/matching/matching-engine.js) *)
(* ================================================================== *)

Module Engine.

Import KeywordExtractor.

(** The [query] argument: a string, or a value of another type. *)
Inductive QueryArg : Type :=
| QString (s : jstr)
| QOther.

(** The [options] argument: a field that is absent is [None]. *)
Record Options : Type := mkOptions {
  minConfidence : option Q;
  fuzzyEnabled : option bool;
  partialEnabled : option bool;
  useCache : option bool;
  aiEnabled : option bool;
  aiProxyUrl : option jstr
}.

(** [opts], the options after the defaults. *)
Record Opts : Type := mkOpts {
  o_minConfidence : Q;
  o_fuzzyEnabled : bool;
  o_partialEnabled : bool;
  o_useCache : bool;
  o_aiEnabled : option bool;
  o_aiProxyUrl : option jstr;
  o_query : jstr
}.

Inductive Message : Type :=
| MsgNoMatchEnableAI     (* No match found in your database. Enable AI ... *)
| MsgNoData              (* No Q&A file uploaded yet. ... *)
| MsgNoMatchAIDisabled.  (* No match found in your uploaded files. ... *)

(** The object [findAnswer] resolves to. *)
Record Response : Type := mkResponse {
  success : bool;
  match_ : option MatchResult;
  tier : option nat;
  source_ai : bool;
  message : option Message;
  error : option ErrorCode
}.

Definition found (m : MatchResult) (k : nat) : Response :=
  mkResponse true (Some m) (Some k) false None None.

Definition found_ai (m : MatchResult) : Response :=
  mkResponse true (Some m) (Some 5%nat) true None None.

Definition not_found (msg : Message) : Response :=
  mkResponse false None (Some 0%nat) false (Some msg) None.

(** handleError on an AppError *)
Definition handleError (code : ErrorCode) : Response :=
  mkResponse false None None false None (Some code).

(** What one call does to its collaborators, in order: the instrumentation
    the cascade is observed through.  [EvTier k r] is the call of the matcher
    of tier [k] (5 is the AI service) and what it returned. *)
Inductive Event : Type :=
| EvCacheGet
| EvCacheSet
| EvStats
| EvCandidatesByKeywords
| EvAllQuestions
| EvAIConfig
| EvTier (k : nat) (result : option MatchResult).

(** The collaborators of one call. *)
Record World : Type := mkWorld {
  db : DB;
  (** aiService.query(query, {keywords, candidates}): the match of a
      successful answer *)
  aiQuery : jstr -> list Keyword -> list Question -> option MatchResult;
  (** generateCacheKey *)
  cacheKey : jstr -> jstr;
  (** [Date.now()] at the cache lookup and at the cache insertion *)
  now_lookup : Z;
  now_insert : Z
}.

Record State : Type := mkState {
  st_cache : Cache.LRUCache Response;
  st_trace : list Event
}.

(** Computations that read and write the state and may throw an AppError. *)
Definition M (A : Type) : Type := State -> (A + ErrorCode) * State.

Definition ret {A : Type} (a : A) : M A := fun st => (inl a, st).

Definition bind {A B : Type} (m : M A) (f : A -> M B) : M B :=
  fun st =>
    match m st with
    | (inl a, st') => f a st'
    | (inr e, st') => (inr e, st')
    end.

Definition throw {A : Type} (e : ErrorCode) : M A := fun st => (inr e, st).

Definition catch {A : Type} (m : M A) (handler : ErrorCode -> M A) : M A :=
  fun st =>
    match m st with
    | (inl a, st') => (inl a, st')
    | (inr e, st') => handler e st'
    end.

Definition log (ev : Event) : M unit :=
  fun st => (inl tt, mkState (st_cache st) (st_trace st ++ [ev])).

Notation "x <- m ;; f" := (bind m (fun x => f))
  (at level 61, m at next level, right associativity).
Notation "m ;;; f" := (bind m (fun _ => f))
  (at level 61, right associativity).

Section WithCollaborators.

Variable B : Builtins.
Variable ln : Q -> Q.
Variable classifyKeywordType : jstr -> jstr -> jstr -> KeywordType.
Variable W : World.

(** validateQuery *)
Definition validateQuery (query : QueryArg) : M unit :=
  match query with
  | QOther => throw QUERY_EMPTY
  | QString [] => throw QUERY_EMPTY
  | QString s =>
      let trimmed := trim s in
      if (List.length trimmed <? MIN_QUERY_LENGTH)%nat then throw QUERY_EMPTY
      else if (MAX_QUERY_LENGTH <? List.length trimmed)%nat
           then throw QUERY_TOO_LONG
           else ret tt
  end.

(** checkCache *)
Definition checkCache (query : jstr) : M (option Response) :=
  fun st =>
    let '(r, c) := Cache.get (cacheKey W query) (now_lookup W) (st_cache st) in
    (inl r, mkState c (st_trace st ++ [EvCacheGet])).

(** cacheResult *)
Definition cacheResult (query : jstr) (result : Response) : M unit :=
  fun st =>
    (inl tt,
     mkState (Cache.set (cacheKey W query) result (now_insert W) (st_cache st))
             (st_trace st ++ [EvCacheSet])).

(** preprocessQuery *)
Definition preprocessQuery (query : jstr) : jstr * list Keyword :=
  (normalizeForMatching B query,
   extractKeywords B ln classifyKeywordType query default_extract_options).

(** [result && result.confidence >= options.minConfidence] *)
Definition accepted (options : Opts) (result : option MatchResult)
  : option MatchResult :=
  match result with
  | Some m => if Qle_bool (o_minConfidence options) (confidence m)
              then Some m else None
  | None => None
  end.

(** Tier 5 and the report of no match: the end of runMatchingPipeline. *)
Definition aiTier (hasData : bool) (keywords : list Keyword)
           (candidates : list Question) (options : Opts) : M Response :=
  let enabled := match o_aiEnabled options with
                 | Some false => false
                 | _ => true
                 end in
  aiResult <-
    (if enabled
     then match o_aiProxyUrl options with
          | Some (_ :: _) => log EvAIConfig
          | _ => ret tt
          end ;;;
          let r := aiQuery W (o_query options) keywords candidates in
          log (EvTier 5 r) ;;; ret r
     else ret None) ;;
  match aiResult with
  | Some m => ret (found_ai m)
  | None =>
      ret (not_found (if negb hasData then MsgNoData
                      else if negb enabled then MsgNoMatchAIDisabled
                           else MsgNoMatchEnableAI))
  end.

(** The candidates of tiers 3 and 4: the questions sharing a keyword with
    the query, or every question when there is none. *)
Definition gatherCandidates (keywords : list Keyword) : M (list Question) :=
  candidates <-
    match keywords with
    | _ :: _ =>
        log EvCandidatesByKeywords ;;;
        ret (getQuestionsByKeywords (db W) (map word keywords))
    | [] => ret []
    end ;;
  match candidates with
  | [] => log EvAllQuestions ;;; ret (getAllQuestions (db W))
  | _ :: _ => ret candidates
  end.

(** runMatchingPipeline *)
Definition runMatchingPipeline (normalizedQuery : jstr) (keywords : list Keyword)
           (options : Opts) : M Response :=
  log EvStats ;;;
  let hasData := (0 <? totalQuestions (db W))%nat in
  if negb hasData then aiTier hasData keywords [] options
  else
    (* Tier 1 *)
    let exactResult := exactMatch normalizedQuery (db W) in
    log (EvTier 1 exactResult) ;;;
    match accepted options exactResult with
    | Some m => ret (found m 1)
    | None =>
        (* Tier 2 *)
        let keywordResult := keywordMatch keywords (db W) in
        log (EvTier 2 keywordResult) ;;;
        match accepted options keywordResult with
        | Some m => ret (found m 2)
        | None =>
            candidates <- gatherCandidates keywords ;;
            (* Tier 3 *)
            fuzzyAccepted <-
              (if o_fuzzyEnabled options
               then let fuzzyResult := fuzzyMatch normalizedQuery candidates in
                    log (EvTier 3 fuzzyResult) ;;;
                    ret (accepted options fuzzyResult)
               else ret None) ;;
            match fuzzyAccepted with
            | Some m => ret (found m 3)
            | None =>
                (* Tier 4 *)
                partialAccepted <-
                  (if o_partialEnabled options
                   then let partialResult :=
                          partialMatch B normalizedQuery candidates in
                        log (EvTier 4 partialResult) ;;;
                        ret (accepted options partialResult)
                   else ret None) ;;
                match partialAccepted with
                | Some m => ret (found m 4)
                | None => aiTier hasData keywords candidates options
                end
            end
        end
    end.

(** [options.minConfidence || 0.5]: a threshold that is absent or zero is
    replaced by the default. *)
Definition effective_minConfidence (options : Options) : Q :=
  match minConfidence options with
  | Some q => if Qeq_bool q 0 then 0.5 else q
  | None => 0.5
  end.

(** [options.flag !== false] *)
Definition not_false (flag : option bool) : bool :=
  match flag with
  | Some false => false
  | _ => true
  end.

Definition defaults (query : jstr) (options : Options) : Opts :=
  mkOpts (effective_minConfidence options)
         (not_false (fuzzyEnabled options))
         (not_false (partialEnabled options))
         (not_false (useCache options))
         (aiEnabled options)
         (aiProxyUrl options)
         query.

(** The part of findAnswer after the cache lookup missed. *)
Definition answerUncached (query : jstr) (opts : Opts) : M Response :=
  let '(normalizedQuery, keywords) := preprocessQuery query in
  result <- runMatchingPipeline normalizedQuery keywords opts ;;
  (if success result
      && match match_ result with Some _ => true | None => false end
      && o_useCache opts
   then cacheResult query result
   else ret tt) ;;;
  ret result.

(** findAnswer: the body of the [try], and the [catch] that turns an AppError
    into the error response. *)
Definition findAnswer (query : QueryArg) (options : Options) : M Response :=
  catch
    (validateQuery query ;;;
     match query with
     | QOther => throw QUERY_EMPTY (* not reached: validateQuery threw *)
     | QString q =>
         let opts := defaults q options in
         if o_useCache opts
         then cachedResult <- checkCache q ;;
              match cachedResult with
              | Some r => ret r
              | None => answerUncached q opts
              end
         else answerUncached q opts
     end)
    (fun code => ret (handleError code)).
(** ** The cascade *)

Lemma accepted_Some opts r m :
  accepted opts r = Some m -> r = Some m /\ o_minConfidence opts <= confidence m.
Proof.
  unfold accepted. destruct r as [m'|]; [|discriminate].
  destruct (Qle_bool (o_minConfidence opts) (confidence m')) eqn:E; [|discriminate].
  intro H. injection H as ->. split; [reflexivity|]. apply Qle_bool_iff. exact E.
Qed.

Lemma accepted_None opts m :
  accepted opts (Some m) = None -> ~ (o_minConfidence opts <= confidence m).
Proof.
  unfold accepted.
  destruct (Qle_bool (o_minConfidence opts) (confidence m)) eqn:E; [discriminate|].
  intros _ H. apply Qle_bool_iff in H. congruence.
Qed.

(** An event the local tiers do not produce. *)
Definition ai_event (ev : Event) : Prop :=
  ev = EvAIConfig \/ exists r, ev = EvTier 5 r.

Lemma aiTier_run hasData kws cands opts c t :
  exists resp evs,
    aiTier hasData kws cands opts (mkState c t)
    = (inl resp, mkState c (t ++ evs))
    /\ Forall ai_event evs.
Proof.
  unfold aiTier. cbv [bind log ret st_cache st_trace].
  destruct (o_aiEnabled opts) as [[|]|].
  2: { eexists. exists []. rewrite app_nil_r. split; [reflexivity | constructor]. }
  all: destruct (o_aiProxyUrl opts) as [[|? ?]|];
    destruct (aiQuery W (o_query opts) kws cands) eqn:Eai;
    eexists; eexists;
    (split; [rewrite <- ?app_assoc; simpl; reflexivity
            | repeat apply Forall_cons; try apply Forall_nil;
              unfold ai_event; eauto]).
Qed.

Definition gather_event (ev : Event) : Prop :=
  ev = EvCandidatesByKeywords \/ ev = EvAllQuestions.

Lemma gatherCandidates_run kws c t :
  exists cands evs,
    gatherCandidates kws (mkState c t) = (inl cands, mkState c (t ++ evs))
    /\ Forall gather_event evs.
Proof.
  unfold gatherCandidates, gather_event. cbv [bind log ret st_cache st_trace].
  destruct kws as [|kw kws'].
  - exists (getAllQuestions (db W)), [EvAllQuestions]. split; [reflexivity|].
    repeat apply Forall_cons; auto.
  - destruct (getQuestionsByKeywords (db W) (map word (kw :: kws'))) as [|q qs] eqn:Eq.
    + exists (getAllQuestions (db W)), [EvCandidatesByKeywords; EvAllQuestions].
      rewrite <- app_assoc. split; [reflexivity|].
      repeat apply Forall_cons; auto.
    + exists (q :: qs), [EvCandidatesByKeywords]. split; [reflexivity|].
      repeat apply Forall_cons; auto.
Qed.

Lemma gather_no_tier k r evs :
  Forall gather_event evs -> ~ In (EvTier k r) evs.
Proof.
  intros Hall Hin. rewrite Forall_forall in Hall.
  destruct (Hall _ Hin) as [H|H]; discriminate H.
Qed.

Lemma ai_tier_five k r evs :
  Forall ai_event evs -> In (EvTier k r) evs -> k = 5%nat.
Proof.
  intros Hall Hin. rewrite Forall_forall in Hall.
  destruct (Hall _ Hin) as [H|[r' H]]; [discriminate H|].
  injection H as -> _. reflexivity.
Qed.

(** What the trace says about the cascade: a local tier that is in the trace
    with a match meeting the threshold is the tier of the response, and no
    later tier is in the trace. *)
Definition short_circuits (threshold : Q) (out : Response + ErrorCode)
           (evs : list Event) : Prop :=
  forall k m,
    In (EvTier k (Some m)) evs ->
    (1 <= k <= 4)%nat ->
    threshold <= confidence m ->
    out = inl (found m k)
    /\ forall j r, (k < j)%nat -> ~ In (EvTier j r) evs.

(** Split a membership in an explicit trace into its cases, and close the
    cases that name no tier, or tier 5, or a tier that did not accept. *)
Ltac trace_cases H :=
  repeat first [rewrite in_app_iff in H | progress simpl in H];
  repeat match type of H with
         | _ \/ _ => destruct H as [H|H]
         end;
  try contradiction; try discriminate H;
  try (exfalso; eapply gather_no_tier; [|exact H]; eassumption);
  try match goal with
      | Hai : Forall ai_event ?evs |- _ =>
          match type of H with
          | In _ evs =>
              apply (@ai_tier_five _ _ _ Hai) in H; subst; exfalso; lia
          end
      end;
  try (injection H as <- H; try (exfalso; lia)).

Ltac rejected H :=
  match goal with
  | E : accepted _ ?r = None |- _ =>
      rewrite H in E; apply accepted_None in E; contradiction
  end.

Lemma runMatchingPipeline_run nq kws opts c t :
  exists resp evs,
    runMatchingPipeline nq kws opts (mkState c t)
    = (inl resp, mkState c (t ++ evs))
    /\ short_circuits (o_minConfidence opts) (inl resp) evs.
Proof.
  unfold runMatchingPipeline. cbv [bind log ret st_cache st_trace].
  destruct (0 <? totalQuestions (db W))%nat; cbn [negb].
  2: { destruct (aiTier_run false kws [] opts c (t ++ [EvStats]))
      as [resp [evs [Hrun Hai]]].
    exists resp, (EvStats :: evs). rewrite Hrun, <- app_assoc. split; [reflexivity|].
    intros k m Hin Hk _. exfalso. destruct Hin as [Hin|Hin]; [discriminate|].
    rewrite Forall_forall in Hai. destruct (Hai _ Hin) as [H|[r H]];
      [discriminate | injection H as -> _; lia]. }
  destruct (accepted opts (exactMatch nq (db W))) as [m1|] eqn:E1.
  { apply accepted_Some in E1. destruct E1 as [E1 _].
    exists (found m1 1), [EvStats; EvTier 1 (exactMatch nq (db W))].
    rewrite <- app_assoc. split; [reflexivity|].
    intros k m Hin Hk Hthr. trace_cases Hin.
    rewrite E1 in Hin. injection Hin as ->.
    split; [reflexivity|]. intros j r Hj Hin. trace_cases Hin. }
  destruct (accepted opts (keywordMatch kws (db W))) as [m2|] eqn:E2.
  { apply accepted_Some in E2. destruct E2 as [E2 _].
    exists (found m2 2),
      [EvStats; EvTier 1 (exactMatch nq (db W)); EvTier 2 (keywordMatch kws (db W))].
    rewrite <- !app_assoc. split; [reflexivity|].
    intros k m Hin Hk Hthr. trace_cases Hin; try rejected Hin.
    rewrite E2 in Hin. injection Hin as ->.
    split; [reflexivity|]. intros j r Hj Hin. trace_cases Hin. }
  destruct (gatherCandidates_run kws c
              (((t ++ [EvStats]) ++ [EvTier 1 (exactMatch nq (db W))])
               ++ [EvTier 2 (keywordMatch kws (db W))]))
    as [cands [gather [Hg Hgather]]].
  rewrite Hg. clear Hg.
  destruct (o_fuzzyEnabled opts); cbv [st_cache st_trace];
    [destruct (accepted opts (fuzzyMatch nq cands)) as [m3|] eqn:E3|].
  { apply accepted_Some in E3. destruct E3 as [E3 _].
    eexists; eexists. split; [rewrite <- !app_assoc; simpl; reflexivity|].
    intros k m Hin Hk Hthr. trace_cases Hin; try rejected Hin.
    rewrite E3 in Hin. injection Hin as ->.
    split; [reflexivity|]. intros j r Hj Hin. trace_cases Hin. }
  all: destruct (o_partialEnabled opts); cbv [st_cache st_trace];
    [destruct (accepted opts (partialMatch B nq cands)) as [m4|] eqn:E4|].
  all: try match goal with
           | E : accepted _ _ = Some _ |- _ =>
               apply accepted_Some in E; destruct E as [E _];
               eexists; eexists;
               (split; [rewrite <- !app_assoc; simpl; reflexivity|]);
               intros k m Hin Hk Hthr; trace_cases Hin; try rejected Hin;
               rewrite E in Hin; injection Hin as ->;
               (split; [reflexivity|]); intros j r Hj Hin; trace_cases Hin
           end.
  all: match goal with
       | |- context [aiTier ?h ?ks ?cs ?o (mkState ?c' ?t')] =>
           destruct (aiTier_run h ks cs o c' t')
             as [resp [aievs [Hrun Hai]]];
           rewrite Hrun; clear Hrun
       end;
    eexists; eexists;
    (split; [rewrite <- !app_assoc; simpl; reflexivity|]);
    intros k m Hin Hk Hthr; trace_cases Hin; rejected Hin.
Qed.

Lemma short_circuits_frame thr out pre evs post :
  (forall k r, ~ In (EvTier k r) pre) ->
  (forall k r, ~ In (EvTier k r) post) ->
  short_circuits thr out evs ->
  short_circuits thr out (pre ++ evs ++ post).
Proof.
  intros Hpre Hpost Hsc k m Hin Hk Hthr.
  rewrite !in_app_iff in Hin.
  destruct Hin as [Hin|[Hin|Hin]];
    [exfalso; eapply Hpre; eassumption | | exfalso; eapply Hpost; eassumption].
  destruct (Hsc k m Hin Hk Hthr) as [Hout Hlater].
  split; [exact Hout|].
  intros j r Hj Hin'. rewrite !in_app_iff in Hin'.
  destruct Hin' as [Hin'|[Hin'|Hin']];
    [eapply Hpre; eassumption | eapply Hlater; eassumption
     | eapply Hpost; eassumption].
Qed.

Lemma answerUncached_run q opts c t :
  exists resp evs post c',
    answerUncached q opts (mkState c t)
    = (inl resp, mkState c' (t ++ evs ++ post))
    /\ short_circuits (o_minConfidence opts) (inl resp) evs
    /\ (forall k r, ~ In (EvTier k r) post).
Proof.
  unfold answerUncached, preprocessQuery. cbv [bind].
  destruct (runMatchingPipeline_run (normalizeForMatching B q)
              (extractKeywords B ln classifyKeywordType q default_extract_options)
              opts c t) as [resp [evs [Hrun Hsc]]].
  rewrite Hrun.
  destruct (success resp
            && match match_ resp with Some _ => true | None => false end
            && o_useCache opts).
  - unfold cacheResult, ret. cbv [st_cache st_trace].
    exists resp, evs, [EvCacheSet]. eexists.
    rewrite <- app_assoc. split; [reflexivity|]. split; [exact Hsc|].
    intros k r [H|[]]. discriminate H.
  - unfold ret. exists resp, evs, [], c. rewrite app_nil_r.
    split; [reflexivity|]. split; [exact Hsc|]. intros k r [].
Qed.

(** X28. In the cascade of findAnswer, for every query and options: if a
    local tier k (1 to 4) is evaluated and produces a match whose confidence
    is at least the threshold the engine computes,
    [options.minConfidence || 0.5], then the response is that match with
    tier k, and no tier greater than k (no later matcher, no AI fallback) is
    evaluated. *)
Theorem cascade_short_circuit (query : QueryArg) (options : Options)
        (c : Cache.LRUCache Response) (k : nat) (m : MatchResult) :
  let out := findAnswer query options (mkState c []) in
  In (EvTier k (Some m)) (st_trace (snd out)) ->
  (1 <= k <= 4)%nat ->
  effective_minConfidence options <= confidence m ->
  fst out = inl (found m k)
  /\ forall j r, (k < j)%nat -> ~ In (EvTier j r) (st_trace (snd out)).
Proof.
  intro out. unfold out, findAnswer. cbv [catch bind].
  destruct query as [s|]; simpl validateQuery.
  2: { cbv [throw ret]. simpl. contradiction. }
  destruct s as [|ch s']; [cbv [throw ret]; simpl; contradiction|].
  destruct (List.length (trim (ch :: s')) <? MIN_QUERY_LENGTH)%nat;
    [cbv [throw ret]; simpl; contradiction|].
  destruct (MAX_QUERY_LENGTH <? List.length (trim (ch :: s')))%nat;
    [cbv [throw ret]; simpl; contradiction|].
  cbv [ret].
  set (q := ch :: s').
  change (effective_minConfidence options)
    with (o_minConfidence (defaults q options)).
  destruct (o_useCache (defaults q options)).
  - unfold checkCache. cbv [st_cache st_trace]. simpl app.
    destruct (Cache.get (cacheKey W q) (now_lookup W) c) as [[r|] c1].
    + simpl. intros [H|[]]. discriminate H.
    + destruct (answerUncached_run q (defaults q options) c1 [EvCacheGet])
        as [resp [evs [post [c' [Hrun [Hsc Hpost]]]]]].
      rewrite Hrun. simpl fst. simpl snd. cbv [st_trace].
      assert (Hpre : forall k0 r0, ~ In (EvTier k0 r0) [EvCacheGet])
        by (intros k0 r0 [H|[]]; discriminate H).
      pose proof (@short_circuits_frame _ _ _ _ _ Hpre Hpost Hsc) as Hf.
      intros Hin Hk Hc. apply Hf; assumption.
  - destruct (answerUncached_run q (defaults q options) c [])
      as [resp [evs [post [c' [Hrun [Hsc Hpost]]]]]].
    rewrite Hrun. simpl fst. simpl snd. cbv [st_trace].
    assert (Hpre : forall k0 r0, ~ In (EvTier k0 r0) [])
      by (intros k0 r0 []).
    pose proof (@short_circuits_frame _ _ _ _ _ Hpre Hpost Hsc) as Hf.
    intros Hin Hk Hc. apply Hf; assumption.
Qed.

(** C9. A query whose trimmed length is below the minimum query length is
    answered with the QUERY_EMPTY error response (success false) and nothing
    else happens: the state after the call is the state before it, so no
    matcher ran (the trace is unchanged) and nothing was cached. *)
Theorem short_query_rejected (s : jstr) (options : Options) (st : State) :
  (List.length (trim s) < MIN_QUERY_LENGTH)%nat ->
  findAnswer (QString s) options st = (inl (handleError QUERY_EMPTY), st)
  /\ success (handleError QUERY_EMPTY) = false
  /\ match_ (handleError QUERY_EMPTY) = None
  /\ error (handleError QUERY_EMPTY) = Some QUERY_EMPTY.
Proof.
  intro Hlen. split; [|repeat split].
  unfold findAnswer, validateQuery. cbv [catch bind].
  destruct s as [|ch s']; [reflexivity|].
  apply Nat.ltb_lt in Hlen. rewrite Hlen. reflexivity.
Qed.

(** ** The responses *)

(** An answer of one of the four local tiers: the match carries the number
    of its tier, and its confidence reaches the threshold in force; the
    fuzzy tier answers within [0.693, 0.8] and the partial tier at most
    0.48. *)
Definition local_answer (opts : Opts) (resp : Response) : Prop :=
  exists m k,
    resp = found m k /\ tierOf m = k /\ (1 <= k <= 4)%nat
    /\ o_minConfidence opts <= confidence m /\ confidence m <= 1
    /\ (k = 3%nat -> 0.693 <= confidence m <= 0.8)
    /\ (k = 4%nat -> confidence m <= 0.48).

Definition pipeline_response (opts : Opts) (resp : Response) : Prop :=
  local_answer opts resp
  \/ (exists m, resp = found_ai m)
  \/ (exists msg, resp = not_found msg).

Lemma aiTier_cases hasData kws cands opts st :
  exists resp st',
    aiTier hasData kws cands opts st = (inl resp, st')
    /\ st_cache st' = st_cache st
    /\ ((exists m, resp = found_ai m) \/ (exists msg, resp = not_found msg)).
Proof.
  unfold aiTier. cbv [bind log ret].
  destruct (o_aiEnabled opts) as [[|]|].
  2: { eexists; eexists. split; [reflexivity|]. split; [reflexivity|].
       right. eexists. reflexivity. }
  all: destruct (o_aiProxyUrl opts) as [[|? ?]|];
    destruct (aiQuery W (o_query opts) kws cands) eqn:Eai;
    eexists; eexists; (split; [reflexivity|]); (split; [reflexivity|]);
    solve [left; eexists; reflexivity | right; eexists; reflexivity].
Qed.

Lemma local_answer_intro opts m k :
  tierOf m = k -> (1 <= k <= 4)%nat ->
  o_minConfidence opts <= confidence m -> confidence m <= 1 ->
  (k = 3%nat -> 0.693 <= confidence m <= 0.8) ->
  (k = 4%nat -> confidence m <= 0.48) ->
  pipeline_response opts (found m k).
Proof.
  intros Ht Hk Hthr Hle H3 H4. left. exists m, k.
  split; [reflexivity|]. split; [exact Ht|]. split; [exact Hk|].
  split; [exact Hthr|]. split; [exact Hle|]. split; assumption.
Qed.

Lemma gatherCandidates_cases kws st :
  exists cands st',
    gatherCandidates kws st = (inl cands, st') /\ st_cache st' = st_cache st.
Proof.
  unfold gatherCandidates. cbv [bind log ret].
  destruct kws as [|kw kws']; cbn [st_cache].
  - eexists; eexists. split; reflexivity.
  - destruct (getQuestionsByKeywords (db W) (map word (kw :: kws')));
      eexists; eexists; split; reflexivity.
Qed.

Lemma runMatchingPipeline_cases nq kws opts st :
  exists resp st',
    runMatchingPipeline nq kws opts st = (inl resp, st')
    /\ st_cache st' = st_cache st
    /\ pipeline_response opts resp.
Proof.
  unfold runMatchingPipeline. cbv [bind log ret].
  match goal with
  | |- context [mkState (st_cache st) ?t] => set (st0 := mkState (st_cache st) t)
  end.
  assert (Hc0 : st_cache st0 = st_cache st) by reflexivity. clearbody st0.
  destruct (0 <? totalQuestions (db W))%nat; cbn [negb].
  2: { destruct (aiTier_cases false kws [] opts st0)
         as [resp [st' [Hrun [Hc Hr]]]].
       exists resp, st'. rewrite Hrun. split; [reflexivity|].
       split; [congruence|]. right. exact Hr. }
  destruct (accepted opts (exactMatch nq (db W))) as [m1|] eqn:E1.
  { apply accepted_Some in E1. destruct E1 as [E1 Hthr].
    apply exactMatch_some in E1. destruct E1 as [_ [Hc1 [_ [_ Ht]]]].
    eexists; eexists. split; [reflexivity|]. split; [exact Hc0|].
    apply local_answer_intro; try assumption; try lia; try discriminate.
    rewrite Hc1. lra. }
  destruct (accepted opts (keywordMatch kws (db W))) as [m2|] eqn:E2.
  { apply accepted_Some in E2. destruct E2 as [E2 Hthr].
    apply keywordMatch_tier in E2. destruct E2 as [Ht [_ Hle]].
    eexists; eexists. split; [reflexivity|]. split; [exact Hc0|].
    apply local_answer_intro; try assumption; try lia; discriminate. }
  match goal with
  | |- context [gatherCandidates kws ?s] =>
      destruct (gatherCandidates_cases kws s) as [cands [st1 [Hg Hc1]]];
      rewrite Hg; clear Hg
  end.
  cbn [st_cache] in Hc1. rewrite Hc0 in Hc1.
  assert (Hfuzzy : forall m, accepted opts (fuzzyMatch nq cands) = Some m ->
                             pipeline_response opts (found m 3)).
  { intros m E. apply accepted_Some in E. destruct E as [E Hthr].
    apply fuzzyMatch_some in E.
    destruct E as [_ [_ [_ [_ [Hc [_ Ht]]]]]].
    apply local_answer_intro; try assumption; try lia; try discriminate.
    - lra.
    - intros _. exact Hc. }
  assert (Hpartial : forall m,
             accepted opts (partialMatch B nq cands) = Some m ->
             pipeline_response opts (found m 4)).
  { intros m E. apply accepted_Some in E. destruct E as [E Hthr].
    apply partialMatch_some in E.
    destruct E as [_ [_ [_ [_ [Hc [_ Ht]]]]]].
    apply local_answer_intro; try assumption; try lia; try discriminate.
    - lra.
    - intros _. apply Hc. }
  destruct (o_fuzzyEnabled opts);
    [destruct (accepted opts (fuzzyMatch nq cands)) as [m3|] eqn:E3|].
  { eexists; eexists. split; [reflexivity|].
    split; [cbn [st_cache]; exact Hc1|]. apply Hfuzzy. reflexivity. }
  all: destruct (o_partialEnabled opts);
    [destruct (accepted opts (partialMatch B nq cands)) as [m4|] eqn:E4|].
  all: try (eexists; eexists; split; [reflexivity|];
            split; [cbn [st_cache]; exact Hc1|]; apply Hpartial; reflexivity).
  all: match goal with
       | |- context [aiTier ?h ?ks ?cs ?o ?s] =>
           destruct (aiTier_cases h ks cs o s) as [resp [st' [Hrun [Hc Hr]]]];
           rewrite Hrun; clear Hrun
       end;
    exists resp, st'; (split; [reflexivity|]);
    (split; [cbn [st_cache] in Hc; congruence|]); right; exact Hr.
Qed.

(** What answerUncached does to the cache: it stores an answer, and nothing
    else. *)
Definition cached_after (q : jstr) (opts : Opts) (resp : Response)
           (c : Cache.LRUCache Response) : Cache.LRUCache Response :=
  if success resp
     && match match_ resp with Some _ => true | None => false end
     && o_useCache opts
  then Cache.set (cacheKey W q) resp (now_insert W) c
  else c.

Lemma answerUncached_cases q opts st :
  exists resp st',
    answerUncached q opts st = (inl resp, st')
    /\ st_cache st' = cached_after q opts resp (st_cache st)
    /\ pipeline_response opts resp.
Proof.
  unfold answerUncached, preprocessQuery, cached_after. cbv [bind].
  destruct (runMatchingPipeline_cases (normalizeForMatching B q)
              (extractKeywords B ln classifyKeywordType q
                               default_extract_options) opts st)
    as [resp [st1 [Hrun [Hc Hr]]]].
  rewrite Hrun.
  destruct (success resp
            && match match_ resp with Some _ => true | None => false end
            && o_useCache opts) eqn:E.
  - unfold cacheResult, ret. eexists; eexists.
    split; [reflexivity|].
    split; [cbn [st_cache]; rewrite E, Hc; reflexivity | exact Hr].
  - unfold ret. eexists; eexists. split; [reflexivity|].
    split; [rewrite E; exact Hc | exact Hr].
Qed.

Lemma findAnswer_cases query options st :
  exists resp st',
    findAnswer query options st = (inl resp, st')
    /\ ((exists code, resp = handleError code /\ st' = st)
        \/ (exists q, query = QString q
                      /\ not_false (useCache options) = true
                      /\ fst (Cache.get (cacheKey W q) (now_lookup W)
                                        (st_cache st)) = Some resp)
        \/ (exists q, query = QString q
                      /\ pipeline_response (defaults q options) resp)).
Proof.
  unfold findAnswer, validateQuery. cbv [catch bind].
  destruct query as [s|].
  2: { eexists; eexists. split; [reflexivity|]. left. eexists.
       split; reflexivity. }
  destruct s as [|ch s'].
  { eexists; eexists. split; [reflexivity|]. left. eexists.
    split; reflexivity. }
  destruct (List.length (trim (ch :: s')) <? MIN_QUERY_LENGTH)%nat.
  { eexists; eexists. split; [reflexivity|]. left. eexists.
    split; reflexivity. }
  destruct (MAX_QUERY_LENGTH <? List.length (trim (ch :: s')))%nat.
  { eexists; eexists. split; [reflexivity|]. left. eexists.
    split; reflexivity. }
  cbv [ret]. set (q := ch :: s').
  destruct (o_useCache (defaults q options)) eqn:Eu.
  - unfold checkCache.
    destruct (Cache.get (cacheKey W q) (now_lookup W) (st_cache st))
      as [[r|] c1] eqn:Eg.
    + eexists; eexists. split; [reflexivity|]. right. left.
      exists q. split; [reflexivity|]. split; [exact Eu|].
      rewrite Eg. reflexivity.
    + match goal with
      | |- context [answerUncached q ?o ?s] =>
          destruct (answerUncached_cases q o s) as [resp [st' [Hrun [_ Hr]]]]
      end.
      rewrite Hrun. exists resp, st'. split; [reflexivity|].
      right. right. exists q. split; [reflexivity | exact Hr].
  - destruct (answerUncached_cases q (defaults q options) st)
      as [resp [st' [Hrun [_ Hr]]]].
    rewrite Hrun. exists resp, st'. split; [reflexivity|].
    right. right. exists q. split; [reflexivity | exact Hr].
Qed.

(** X24. findAnswer never throws: it always gives a response, which is the error
    response of a query that is not valid (the state is then untouched), or
    the response the cache held, or that of the cascade: an answer of a local
    tier within the bounds of that tier, an answer of the AI service, or the
    report of no match. *)
Theorem findAnswer_response query options st :
  exists resp st',
    findAnswer query options st = (inl resp, st')
    /\ ((exists code, resp = handleError code /\ st' = st)
        \/ (exists q, query = QString q
                      /\ not_false (useCache options) = true
                      /\ fst (Cache.get (cacheKey W q) (now_lookup W)
                                        (st_cache st)) = Some resp)
        \/ (exists q, query = QString q
                      /\ pipeline_response (defaults q options) resp)).
Proof. apply findAnswer_cases. Qed.

(** X25. With the default threshold 0.5, or any threshold above 0.48, a call that
    does not answer from the cache never answers from tier 4: the confidence
    of a partial match stays below. *)
Theorem partial_tier_below_default query options st resp st' :
  0.48 < effective_minConfidence options ->
  not_false (useCache options) = false
  \/ (forall q, query = QString q ->
                fst (Cache.get (cacheKey W q) (now_lookup W) (st_cache st))
                = None) ->
  findAnswer query options st = (inl resp, st') ->
  tier resp <> Some 4%nat.
Proof.
  intros Hthr Hmiss Hrun.
  destruct (findAnswer_cases query options st) as [r [s1 [Hr Hcases]]].
  rewrite Hr in Hrun. injection Hrun as <- <-.
  destruct Hcases as [[code [-> _]]|[[q [Hq [Hu Hg]]]|[q [Hq Hp]]]].
  - discriminate.
  - exfalso. destruct Hmiss as [Hm|Hm]; [congruence|].
    rewrite (Hm q Hq) in Hg. discriminate Hg.
  - destruct Hp as [[m [k [-> [_ [_ [Hc [_ [_ H4]]]]]]]]|[[m ->]|[msg ->]]];
      try discriminate.
    cbn [tier found]. intro Hk. injection Hk as ->.
    specialize (H4 eq_refl). cbn [defaults o_minConfidence] in Hc. lra.
Qed.

(** ** Queries that are not valid *)

(** X26. A query that is no string, and a string whose trimmed length is above
    the maximum 500, are answered with the error response, QUERY_EMPTY for
    the first and QUERY_TOO_LONG for the second, and the state (cache and
    calls) is left as it was. *)
Theorem invalid_query_rejected options st :
  findAnswer QOther options st = (inl (handleError QUERY_EMPTY), st)
  /\ findAnswer (QString []) options st = (inl (handleError QUERY_EMPTY), st)
  /\ (forall s,
        (MAX_QUERY_LENGTH < List.length (trim s))%nat ->
        findAnswer (QString s) options st
        = (inl (handleError QUERY_TOO_LONG), st)).
Proof.
  split; [reflexivity|]. split; [reflexivity|].
  intros s Hlen. unfold findAnswer, validateQuery. cbv [catch bind].
  destruct s as [|ch s']; [simpl in Hlen; unfold MAX_QUERY_LENGTH in Hlen; lia|].
  replace (List.length (trim (ch :: s')) <? MIN_QUERY_LENGTH)%nat with false
    by (symmetry; apply Nat.ltb_ge; unfold MIN_QUERY_LENGTH, MAX_QUERY_LENGTH in *; lia).
  apply Nat.ltb_lt in Hlen. rewrite Hlen. reflexivity.
Qed.

(** ** A valid query *)




End WithCollaborators.

(** ** A concrete call *)

(** A store of one question, "is it ok no", and the query "is it ok": no
    exact match, no keyword of three letters or more, and a partial match. *)
Definition sample_doc : Question :=
  mkQuestion (js "q1") (js "Is it ok no?") (js "yes") (js "is it ok no") [].

Definition sample_db : DB :=
  mkDB [sample_doc]
       (fun t => if jstr_eqb t (js "is it ok no") then Some sample_doc else None)
       (fun _ => []).

Definition sample_world : World :=
  mkWorld sample_db (fun _ _ _ => None) (fun q => q) 0 0.

Definition sample_cache : Cache.LRUCache Response :=
  Cache.new Response CACHE_MAX_SIZE CACHE_TTL_MS.

(** What the partial matcher returns for the query: score 0.7 x 8/11 + 0.3 x
    3/4, confidence (0.3 + 0.3 x score) x 0.8, between 0.41 and 0.42. *)
Definition sample_match : MatchResult :=
  Eval vm_compute in
    match partialMatch ascii_builtins (js "is it ok") [sample_doc] with
    | Some m => m
    | None => mkMatch sample_doc NONE 0 0 0 None
    end.

Definition run_sample (options : Options) : (Response + ErrorCode) * State :=
  findAnswer ascii_builtins (fun _ => 0) (fun _ _ _ => COMMON) sample_world
             (QString (js "is it ok")) options (mkState sample_cache []).

(** The caller asks for a minimum confidence of 0, with the AI fallback off. *)
Definition zero_threshold : Options :=
  mkOptions (Some 0) None None None (Some false) None.

Definition low_threshold : Options :=
  mkOptions (Some 0.4) None None None (Some false) None.

(** C3 (the code breaks the claim). A caller's threshold of zero is replaced
    by 0.5 ([options.minConfidence || 0.5] takes 0 for absent): tier 4 is
    evaluated and produces a match whose confidence is at least the caller's
    threshold 0, yet the response is not that match but the report of no
    match. *)
Theorem zero_threshold_not_returned :
  minConfidence zero_threshold = Some 0
  /\ In (EvTier 4 (Some sample_match)) (st_trace (snd (run_sample zero_threshold)))
  /\ 0 <= confidence sample_match
  /\ fst (run_sample zero_threshold) <> inl (found sample_match 4)
  /\ fst (run_sample zero_threshold) = inl (not_found MsgNoMatchAIDisabled).
Proof.
  split; [reflexivity|]. split; [|split; [|split]].
  - vm_compute. repeat first [left; reflexivity | right].
  - vm_compute. discriminate.
  - vm_compute. discriminate.
  - vm_compute. reflexivity.
Qed.

Lemma cascade_short_circuit_witness :
  fst (run_sample low_threshold) = inl (found sample_match 4)
  /\ forall j r, (4 < j)%nat ->
                 ~ In (EvTier j r) (st_trace (snd (run_sample low_threshold))).
Proof.
  apply (@cascade_short_circuit ascii_builtins (fun _ => 0)
           (fun _ _ _ => COMMON) sample_world (QString (js "is it ok"))
           low_threshold sample_cache 4%nat sample_match).
  - vm_compute. repeat first [left; reflexivity | right].
  - lia.
  - vm_compute. discriminate.
Defined.

Lemma short_query_rejected_witness :
  findAnswer ascii_builtins (fun _ => 0) (fun _ _ _ => COMMON) sample_world
             (QString (js " ab ")) zero_threshold (mkState sample_cache [])
  = (inl (handleError QUERY_EMPTY), mkState sample_cache []).
Proof.
  apply (@short_query_rejected ascii_builtins (fun _ => 0)
           (fun _ _ _ => COMMON) sample_world (js " ab ") zero_threshold
           (mkState sample_cache [])).
  vm_compute. lia.
Defined.


(** ** The cache between two calls *)

Definition default_options : Options :=
  mkOptions None None None None (Some false) None.

Lemma partial_tier_below_default_witness :
  tier (not_found MsgNoMatchAIDisabled) <> Some 4%nat.
Proof.
  apply (@partial_tier_below_default ascii_builtins (fun _ => 0)
           (fun _ _ _ => COMMON) sample_world (QString (js "is it ok"))
           default_options (mkState sample_cache [])
           (not_found MsgNoMatchAIDisabled)
           (snd (run_sample default_options))).
  - vm_compute. reflexivity.
  - right. intros q Hq. injection Hq as <-. vm_compute. reflexivity.
  - vm_compute. reflexivity.
Defined.

Lemma invalid_query_rejected_witness :
  findAnswer ascii_builtins (fun _ => 0) (fun _ _ _ => COMMON) sample_world
             (QString (repeat 97%N 501)) default_options
             (mkState sample_cache [])
  = (inl (handleError QUERY_TOO_LONG), mkState sample_cache []).
Proof.
  apply (@invalid_query_rejected ascii_builtins (fun _ => 0)
           (fun _ _ _ => COMMON) sample_world default_options
           (mkState sample_cache [])).
  vm_compute. lia.
Defined.



End Engine.
